(** * Coordination and memory substrate of the orchestrator

    A shallow embedding of the parts of
    [orchestrator/infrastructure/consolidation.py],
    [orchestrator/infrastructure/memory_lite.py] and
    [orchestrator/infrastructure/blackboard.py] that the specification's
    testable properties speak about, with the properties proved (or
    refuted) on the embedding.

    The functions around them are embedded likewise (the lock protocol
    and the retry wrapper in general, the scores' ranges, the clustering
    invariants, the embedded store's retrieval, edges, patterns and shared
    state), with properties read off the code.

    Modelling conventions, used throughout:
    - a Python [float] is a real number ([R]) wherever a property is
      structural or states the expression the code evaluates, and rounding
      is not modelled there; where a rounding decides a property (a bound,
      a comparison with a threshold) the function is embedded a second
      time on binary64 floats, in the module [Binary64], and the property
      is settled there. [math.exp] is the C library's and has no binary64
      counterpart here: the ranges stated of the scores that call it are
      closed ranges, whose ends the rounded scores reach and do not pass;
    - a [datetime] is an integer count of microseconds ([Z]), which is the
      resolution of Python's [datetime] and [timedelta];
    - [time.time()] and [time.sleep] work on seconds as reals;
    - an exception is the class that was raised; messages and the
      [raise ... from ...] cause are dropped;
    - a character is an [ascii] and a [str] is a [string]. *)

From Stdlib Require Import PrimFloat.
From Stdlib Require Import Reals Lra Lia Psatz Ascii.
From stdpp Require Import gmap strings list.
From Stdlib Require Import Sorted.

Open Scope R_scope.

#[global] Set Warnings "-inexact-float".

(** ** Exceptions and results *)

(** The exception classes the modelled code raises or catches. The classes
    prefixed [redis_] are those of the redis client library, where
    [ConnectionError] and [TimeoutError] both derive from [RedisError];
    [BlackboardError], [LockAcquisitionError] and [ConnectionError] are
    declared in blackboard.py, the last two deriving from the first. *)
Inductive exn : Type :=
  | ValueError
  | TypeError
  | IndexError
  | ZeroDivisionError
  | redis_RedisError
  | redis_ConnectionError
  | redis_TimeoutError
  | BlackboardError
  | LockAcquisitionError
  | ConnectionError.

#[global] Instance exn_eq_dec : EqDecision exn.
Proof. solve_decision. Defined.

(** The direct base class, [None] standing for [Exception]. *)
Definition exn_base (e : exn) : option exn :=
  match e with
  | redis_ConnectionError | redis_TimeoutError => Some redis_RedisError
  | LockAcquisitionError | ConnectionError => Some BlackboardError
  | _ => None
  end.

(** [isinstance e c]: what an [except c] clause tests. *)
Definition isinstance (e c : exn) : bool :=
  bool_decide (e = c) || bool_decide (exn_base e = Some c).

(** The outcome of a call: a returned value or a raised exception. *)
Inductive result (A : Type) : Type :=
  | Return (a : A)
  | Raise (e : exn).
Arguments Return {A} a.
Arguments Raise {A} e.

#[global] Instance result_ret : MRet result := fun A a => Return a.
#[global] Instance result_bind : MBind result := fun A B k r =>
  match r with
  | Return a => k a
  | Raise e => Raise e
  end.

(** ** Shared numeric helpers *)

(** Python's builtin [sum]: a left fold starting from 0. *)
Definition sum (l : list R) : R := fold_left Rplus l 0.

(** A [float] tested for truth: [0.0] is falsy. *)
Definition truthy (x : R) : bool := if Req_dec_T x 0 then false else true.

(** [x == y] and [x >= y] on floats. *)
Definition Reqb (x y : R) : bool := if Req_dec_T x y then true else false.
Definition Rgeb (x y : R) : bool := if Rle_dec y x then true else false.

(** [datetime]: microseconds since the epoch; [timedelta]: microseconds. *)
Definition datetime : Type := Z.
Definition timedelta : Type := Z.
Bind Scope Z_scope with datetime timedelta.

(** [timedelta.total_seconds()]. *)
Definition total_seconds (d : timedelta) : R := IZR d / 1000000.

(** [timedelta.days]: whole days, rounded towards minus infinity. *)
Definition days (d : timedelta) : Z := (d / 86400000000)%Z.

(** ** consolidation.py *)

Module Consolidation.

(** The constructor's default configuration. *)
Record config : Type := Config {
  retrieval_weights : R * R * R;
  recency_decay_rate : R;
  clustering_threshold : R;
  min_cluster_size : nat;
  max_cluster_size : nat;
  importance_threshold_high : R;
  importance_threshold_low : R;
  utility_threshold : R;
  pattern_decay_rate : R;
  max_times_for_utility : Z
}.

Definition default_config : config := {|
  retrieval_weights := (0.5, 0.3, 0.2);
  recency_decay_rate := 0.995;
  clustering_threshold := 0.75;
  min_cluster_size := 2;
  max_cluster_size := 10;
  importance_threshold_high := 0.7;
  importance_threshold_low := 0.3;
  utility_threshold := 0.3;
  pattern_decay_rate := 0.01;
  max_times_for_utility := 100
|}.

(** [MemoryConsolidator._cosine_similarity]. *)
Definition _cosine_similarity (a b : list R) : result R :=
  if negb (length a =? length b)%nat then Raise ValueError
  else if bool_decide (a = []) || bool_decide (b = []) then Return 0
  else
    let dot := sum (map (fun '(x, y) => x * y) (zip a b)) in
    let norm_a := sqrt (sum (map (fun x => x * x) a)) in
    let norm_b := sqrt (sum (map (fun x => x * x) b)) in
    if Reqb norm_a 0 || Reqb norm_b 0 then Return 0
    else Return (dot / (norm_a * norm_b)).

(** [str.lower], on the letters A-Z. *)
Definition lower_char (c : ascii) : ascii :=
  let n := nat_of_ascii c in
  if (65 <=? n)%nat && (n <=? 90)%nat then ascii_of_nat (n + 32) else c.

Fixpoint lower (s : string) : string :=
  match s with
  | EmptyString => EmptyString
  | String c s' => String (lower_char c) (lower s')
  end.

(** [needle in haystack] on strings. *)
Definition contains (needle haystack : string) : bool :=
  match String.index 0 needle haystack with
  | Some _ => true
  | None => false
  end.

Definition high_indicators : list string :=
  [ "error"; "exception"; "failed"; "failure"; "critical";
    "security"; "vulnerability"; "breach"; "exploit";
    "decision:"; "decided to"; "choosing"; "architectural";
    "breaking change"; "deprecated"; "removed";
    "user preference"; "configuration"; "setting";
    "bug"; "fix"; "patch"; "workaround";
    "performance issue"; "bottleneck"; "optimization" ].

Definition low_indicators : list string :=
  [ "debug:"; "trace:"; "verbose:";
    "status: ok"; "success"; "completed normally";
    "starting"; "initialized"; "loading";
    "info:"; "running"; "processing" ].

(** [sum(1 for indicator in indicators if indicator in content_lower)]. *)
Definition count_matches (indicators : list string) (content_lower : string)
    : nat :=
  length (List.filter (fun indicator => contains indicator content_lower)
                      indicators).

(** [MemoryConsolidator._calculate_importance]. *)
Definition _calculate_importance (content : string) : R :=
  let content_lower := lower content in
  let high_count := count_matches high_indicators content_lower in
  let low_count := count_matches low_indicators content_lower in
  let base_score :=
    if (0 <? high_count)%nat then 0.7 + INR (Nat.min high_count 3) * 0.1
    else if (0 <? low_count)%nat then 0.3 - INR (Nat.min low_count 3) * 0.1
    else 0.5 in
  let length := String.length content in
  let base_score :=
    if (length <? 50)%nat || (500 <? length)%nat
    then Rmin (base_score + 0.1) 1.0
    else base_score in
  Rmax 0.0 (Rmin 1.0 base_score).

Record Episode : Type := {
  episode_id : string;
  pipeline_run_id : string;
  step_number : Z;
  role : string;
  content : string;
  embedding : list R;
  created_at : datetime;
  importance : option R;
  last_accessed : option datetime
}.

(** The inner loop of [_cluster_episodes]: [for candidate in episodes],
    with [continue] on a clustered candidate and [break] on a full
    cluster. *)
Fixpoint add_similar (cfg : config) (seed_ep : Episode)
    (candidates : list Episode) (cluster : list Episode)
    (clustered_ids : gset string)
    : result (list Episode * gset string) :=
  match candidates with
  | [] => Return (cluster, clustered_ids)
  | candidate :: rest =>
      if bool_decide (episode_id candidate ∈ clustered_ids)
      then add_similar cfg seed_ep rest cluster clustered_ids
      else if (max_cluster_size cfg <=? length cluster)%nat
      then Return (cluster, clustered_ids)
      else
        similarity ← _cosine_similarity (embedding seed_ep)
                                        (embedding candidate);
        if Rgeb similarity (clustering_threshold cfg)
        then add_similar cfg seed_ep rest (cluster ++ [candidate])
                         ({[episode_id candidate]} ∪ clustered_ids)
        else add_similar cfg seed_ep rest cluster clustered_ids
  end.

(** [cluster[0].importance and cluster[0].importance >= threshold]. *)
Definition seed_is_important (cfg : config) (cluster : list Episode)
    : result bool :=
  match cluster with
  | [] => Raise IndexError
  | first :: _ =>
      match importance first with
      | None => Return false
      | Some i =>
          Return (truthy i && Rgeb i (importance_threshold_high cfg))
      end
  end.

(** The outer loop of [_cluster_episodes]: [for seed_ep in episodes]. *)
Fixpoint cluster_loop (cfg : config) (episodes : list Episode)
    (seeds : list Episode) (clusters : list (list Episode))
    (clustered_ids : gset string) : result (list (list Episode)) :=
  match seeds with
  | [] => Return clusters
  | seed_ep :: rest =>
      if bool_decide (episode_id seed_ep ∈ clustered_ids)
      then cluster_loop cfg episodes rest clusters clustered_ids
      else
        let cluster := [seed_ep] in
        let clustered_ids := {[episode_id seed_ep]} ∪ clustered_ids in
        '(cluster, clustered_ids) ←
          add_similar cfg seed_ep episodes cluster clustered_ids;
        if (min_cluster_size cfg <=? length cluster)%nat
        then cluster_loop cfg episodes rest (clusters ++ [cluster])
                          clustered_ids
        else
          keep ← seed_is_important cfg cluster;
          if keep : bool
          then cluster_loop cfg episodes rest (clusters ++ [cluster])
                            clustered_ids
          else cluster_loop cfg episodes rest clusters clustered_ids
  end.

(** [MemoryConsolidator._cluster_episodes]. *)
Definition _cluster_episodes (cfg : config) (episodes : list Episode)
    : result (list (list Episode)) :=
  if bool_decide (episodes = []) then Return []
  else cluster_loop cfg episodes episodes [] ∅.

Module SemanticNode.
Record t : Type := {
  name : string;
  node_type : string;
  description : string;
  importance : R;
  sources : list string;
  created_at : option datetime;
  last_updated : option datetime;
  metadata : option (list (string * string))
}.
End SemanticNode.

(** A value of a relation's metadata dictionary, which the code types
    [Any]: one that [json.dumps] renders, with the JSON text it is
    rendered as, or one it raises [TypeError] on (a set, a datetime, an
    object of a class of the program). *)
Inductive any : Type :=
  | Json (text : string)
  | NotSerializable.

Module Relation.
Record t : Type := {
  source : string;
  relation_type : string;
  target : string;
  strength : R;
  valid_from : option datetime;
  valid_to : option datetime;
  metadata : option (list (string * any))
}.
End Relation.

(** What a read of the [sources] column hands back: the JSON text that
    was written (a [str], here with the list it decodes to), or, with a
    driver that decodes the column, a list. *)
Inductive sources_column : Type :=
  | SourcesText (decoded : list string)
  | SourcesList (ids : list string).

Definition json_dumps (ids : list string) : sources_column :=
  SourcesText ids.

(** A row of [semantic_memory], without its [node_id], which the code
    never uses; the table is keyed by the unique
    [name]. *)
Record node_row : Type := {
  row_node_type : string;
  row_description : string;
  row_importance : R;
  row_sources : sources_column;
  row_created_at : datetime;
  row_last_updated : datetime
}.

(** [list(set(xs))]. *)
Definition list_set (xs : list string) : list string :=
  elements (list_to_set xs : gset string).

(** The expression
    [json.loads(existing['sources']) if isinstance(existing['sources'], str)
     else existing['sources'] + node.sources]:
    the conditional binds weaker than [+], so [node.sources] is appended
    in the [else] branch only. *)
Definition merged_sources_arg (existing_sources : sources_column)
    (node_sources : list string) : list string :=
  match existing_sources with
  | SourcesText decoded => decoded
  | SourcesList ids => ids ++ node_sources
  end.

(** [MemoryConsolidator._upsert_semantic_node], [now] being the reading
    of the clock during the call. *)
Definition _upsert_semantic_node (now : datetime) (node : SemanticNode.t)
    (db : gmap string node_row) : bool * gmap string node_row :=
  match db !! SemanticNode.name node with
  | Some existing =>
      let merged_sources :=
        list_set (merged_sources_arg (row_sources existing)
                                     (SemanticNode.sources node)) in
      (false,
       <[SemanticNode.name node := {|
           row_node_type := row_node_type existing;
           row_description := SemanticNode.description node;
           row_importance :=
             Rmax (row_importance existing) (SemanticNode.importance node);
           row_sources := json_dumps merged_sources;
           row_created_at := row_created_at existing;
           row_last_updated := now |}]> db)
  | None =>
      (true,
       <[SemanticNode.name node := {|
           row_node_type := SemanticNode.node_type node;
           row_description := SemanticNode.description node;
           row_importance := SemanticNode.importance node;
           row_sources := json_dumps (SemanticNode.sources node);
           row_created_at := now;
           row_last_updated := now |}]> db)
  end.

(** Modelled from the spec: the schema of the table [semantic_relations],
    which the source reads and writes but does not create. Its columns are
    those [_upsert_relation] names; [relation_id] is the primary key, and
    the rows are kept in the order of their insertion. *)
Record relation_row : Type := {
  relation_id : nat;
  row_source : string;
  row_relation_type : string;
  row_target : string;
  row_strength : R;
  row_valid_from : datetime;
  row_valid_to : option datetime;
  row_metadata : option (list (string * string))
}.

(** The [WHERE] clause of the lookup: the triple, and [valid_to IS NULL]. *)
Definition is_active_for (r : Relation.t) (row : relation_row) : bool :=
  bool_decide (row_source row = Relation.source r)
  && bool_decide (row_relation_type row = Relation.relation_type r)
  && bool_decide (row_target row = Relation.target r)
  && bool_decide (row_valid_to row = None).

(** [UPDATE ... SET valid_to = ? WHERE relation_id = ?]. *)
Definition set_valid_to (now : datetime) (id : nat)
    (rows : list relation_row) : list relation_row :=
  map (fun row =>
         if (relation_id row =? id)%nat
         then {| relation_id := relation_id row;
                 row_source := row_source row;
                 row_relation_type := row_relation_type row;
                 row_target := row_target row;
                 row_strength := row_strength row;
                 row_valid_from := row_valid_from row;
                 row_valid_to := Some now;
                 row_metadata := row_metadata row |}
         else row) rows.

(** The key a new row gets: one more than the largest in the table. *)
Definition next_relation_id (rows : list relation_row) : nat :=
  S (foldr Nat.max 0%nat (map relation_id rows)).

(** [json.dumps] of a metadata dictionary: its entries with their values
    rendered, or [TypeError] when a value cannot be rendered. *)
Fixpoint json_dumps_dict (d : list (string * any))
    : result (list (string * string)) :=
  match d with
  | [] => Return []
  | (key, Json text) :: rest =>
      rendered ← json_dumps_dict rest;
      mret ((key, text) :: rendered)
  | (key, NotSerializable) :: rest => Raise TypeError
  end.

(** [json.dumps(relation.metadata) if relation.metadata else None]: an
    empty dictionary is falsy. *)
Definition metadata_column (m : option (list (string * any)))
    : result (option (list (string * string))) :=
  match m with
  | Some (item :: items) =>
      rendered ← json_dumps_dict (item :: items);
      mret (Some rendered)
  | _ => Return None
  end.

(** The statements [_upsert_relation] sends to the database. Each can
    raise (a locked or full database, a value SQLite cannot bind). *)
Inductive statement : Type :=
  | Select
  | Update
  | Insert
  | Commit.

#[global] Instance statement_eq_dec : EqDecision statement.
Proof. solve_decision. Defined.

(** [MemoryConsolidator._upsert_relation]; [fetchone] hands back the
    first matching row. [raises] is the statement the database raises on,
    if the call comes to send it, and [None] when every statement goes
    through. The whole body is inside [try: ... except Exception: return
    False], and the handler does not roll back: what the statements before
    the failing one wrote stays in the connection's open transaction,
    which is the table the connection reads from then on and which its
    next [commit] makes permanent. The tuple of the [INSERT]'s arguments,
    with its [json.dumps], is built after the [UPDATE] has run. *)
Definition _upsert_relation (raises : option statement) (now : datetime)
    (relation : Relation.t) (rows : list relation_row)
    : bool * list relation_row :=
  if bool_decide (raises = Some Select) then (false, rows)
  else
    let existing := List.find (is_active_for relation) rows in
    let updated :=
      match existing with
      | Some row =>
          if bool_decide (raises = Some Update) then None
          else Some (set_valid_to now (relation_id row) rows)
      | None => Some rows
      end in
    match updated with
    | None => (false, rows)
    | Some rows =>
        match metadata_column (Relation.metadata relation) with
        | Raise _ => (false, rows)
        | Return metadata =>
            if bool_decide (raises = Some Insert) then (false, rows)
            else
              let rows :=
                rows ++ [ {| relation_id := next_relation_id rows;
                             row_source := Relation.source relation;
                             row_relation_type :=
                               Relation.relation_type relation;
                             row_target := Relation.target relation;
                             row_strength := Relation.strength relation;
                             row_valid_from :=
                               default now (Relation.valid_from relation);
                             row_valid_to := Relation.valid_to relation;
                             row_metadata := metadata |} ] in
              if bool_decide (raises = Some Commit) then (false, rows)
              else (true, rows)
        end
    end.

(** [MemoryConsolidator.calculate_utility_score]. *)
Definition calculate_utility_score (cfg : config) (now : datetime)
    (times_used : Z) (success_rate : R) (last_used : datetime)
    (max_times : option Z) : result R :=
  let max_times :=
    match max_times with
    | None => max_times_for_utility cfg
    | Some m => m
    end in
  if (max_times =? 0)%Z then Raise ZeroDivisionError
  else
    let usage_score := Rmin (IZR times_used / IZR max_times) 1.0 in
    let days_since := days (now - last_used)%Z in
    let decay_rate := pattern_decay_rate cfg in
    let recency := exp (- decay_rate * IZR days_since) in
    let utility :=
      (0.4 * usage_score) + (0.3 * success_rate) + (0.3 * recency) in
    Return utility.

(** Step 2 of [MemoryConsolidator.consolidate]: an episode whose
    importance is unset is given the score of its content. *)
Definition calculate_importance_scores (episodes : list Episode)
    : list Episode :=
  map (fun episode =>
         match importance episode with
         | None =>
             {| episode_id := episode_id episode;
                pipeline_run_id := pipeline_run_id episode;
                step_number := step_number episode;
                role := role episode;
                content := content episode;
                embedding := embedding episode;
                created_at := created_at episode;
                importance := Some (_calculate_importance (content episode));
                last_accessed := last_accessed episode |}
         | Some _ => episode
         end) episodes.

Definition failure_indicators : list string :=
  [ "error"; "exception"; "failed"; "failure"; "traceback"; "stack trace" ].

(** [MemoryConsolidator._is_failure_episode]. *)
Definition _is_failure_episode (episode : Episode) : bool :=
  let content_lower := lower (content episode) in
  existsb (fun indicator => contains indicator content_lower)
          failure_indicators.

End Consolidation.

(** ** memory_lite.py *)

Module MemoryLite.

(** A timestamp column as [_calculate_recency] reads it: empty or NULL,
    text that [datetime.fromisoformat] rejects, or a parsed instant. *)
Inductive timestamp_text : Type :=
  | NoTimestamp
  | BadTimestamp
  | Timestamp (t : datetime).

(** [MemoryLite._calculate_recency]. *)
Definition _calculate_recency (now : datetime)
    (last_accessed : timestamp_text) : R :=
  match last_accessed with
  | NoTimestamp => 0.5
  | BadTimestamp => 0.5
  | Timestamp accessed =>
      let hours := total_seconds (now - accessed)%Z / 3600 in
      exp (-0.995 * hours)
  end.

Module patterns.
(** A row of the [patterns] table, keyed by [id]. *)
Record row : Type := {
  name : string;
  category : string;
  description : string;
  success_rate : R;
  times_used : Z;
  utility_score : R;
  key_elements : list string;
  common_tools : list string;
  last_used : timestamp_text
}.
End patterns.

(** [MemoryLite.record_pattern]. *)
Definition record_pattern (now : datetime)
    (pattern_id name category description : string) (success : bool)
    (key_elements common_tools : option (list string))
    (db : gmap string patterns.row)
    : result (string * gmap string patterns.row) :=
  match db !! pattern_id with
  | Some existing =>
      let times_used := (patterns.times_used existing + 1)%Z in
      let old_rate := patterns.success_rate existing in
      if (times_used =? 0)%Z then Raise ZeroDivisionError
      else
        let new_rate :=
          ((old_rate * IZR (patterns.times_used existing))
           + (if success then 1 else 0)) / IZR times_used in
        let recency := _calculate_recency now (patterns.last_used existing) in
        let utility :=
          (IZR times_used * 0.4) + (new_rate * 0.3) + (recency * 0.3) in
        let utility := Rmin 1.0 (utility / 10) in
        Return (pattern_id,
                <[pattern_id := {|
                    patterns.name := patterns.name existing;
                    patterns.category := patterns.category existing;
                    patterns.description := patterns.description existing;
                    patterns.success_rate := new_rate;
                    patterns.times_used := times_used;
                    patterns.utility_score := utility;
                    patterns.key_elements := patterns.key_elements existing;
                    patterns.common_tools := patterns.common_tools existing;
                    patterns.last_used := Timestamp now |}]> db)
  | None =>
      Return (pattern_id,
              <[pattern_id := {|
                  patterns.name := name;
                  patterns.category := category;
                  patterns.description := description;
                  patterns.success_rate := if success then 1.0 else 0.0;
                  patterns.times_used := 1;
                  patterns.utility_score := 0.5;
                  patterns.key_elements := default [] key_elements;
                  patterns.common_tools := default [] common_tools;
                  patterns.last_used := Timestamp now |}]> db)
  end.

Module nodes.
(** A row of the [nodes] table; [id] is its primary key. *)
Record row : Type := {
  id : string;
  node_type : string;
  content : string;
  metadata : list (string * string);
  importance : R;
  access_count : Z;
  created_at : datetime;
  last_accessed : datetime;
  valid_from : option string;
  valid_until : option string
}.
End nodes.

(** [INSERT OR REPLACE INTO nodes]: the rows in conflict on the primary
    key are deleted, then the row is inserted. *)
Definition insert_or_replace (new : nodes.row) (db : list nodes.row)
    : list nodes.row :=
  List.filter (fun row => negb (String.eqb (nodes.id row) (nodes.id new))) db
  ++ [new].

Section CreateNode.
(** [hashlib.sha256(s.encode()).hexdigest()]. *)
Variable sha256_hexdigest : string → string.

(** [MemoryLite.create_node]; the columns it does not name take their
    defaults, [datetime('now')] being [now]. *)
Definition create_node (now : datetime) (node_type content : string)
    (metadata : option (list (string * string))) (importance : R)
    (valid_from valid_until : option string) (db : list nodes.row)
    : string * list nodes.row :=
  let node_id :=
    String.substring 0 16
      (sha256_hexdigest (node_type +:+ ":" +:+ content)) in
  let metadata := default [] metadata in
  (node_id,
   insert_or_replace {|
       nodes.id := node_id;
       nodes.node_type := node_type;
       nodes.content := content;
       nodes.metadata := metadata;
       nodes.importance := importance;
       nodes.access_count := 0;
       nodes.created_at := now;
       nodes.last_accessed := now;
       nodes.valid_from := valid_from;
       nodes.valid_until := valid_until |} db).
End CreateNode.

(** A truthy [str] argument used as a filter: [None] and [''] select
    every row. *)
Definition selects (wanted : option string) (actual : string) : bool :=
  match wanted with
  | None => true
  | Some w => if String.eqb w "" then true else String.eqb actual w
  end.

(** The [UPDATE] of [get_node]:
    [SET access_count = access_count + 1, last_accessed = datetime('now')
     WHERE id = ?]. *)
Definition touch (now : datetime) (node_id : string) (db : list nodes.row)
    : list nodes.row :=
  map (fun row =>
         if String.eqb (nodes.id row) node_id
         then {| nodes.id := nodes.id row;
                 nodes.node_type := nodes.node_type row;
                 nodes.content := nodes.content row;
                 nodes.metadata := nodes.metadata row;
                 nodes.importance := nodes.importance row;
                 nodes.access_count := (nodes.access_count row + 1)%Z;
                 nodes.created_at := nodes.created_at row;
                 nodes.last_accessed := now;
                 nodes.valid_from := nodes.valid_from row;
                 nodes.valid_until := nodes.valid_until row |}
         else row) db.

(** [MemoryLite.get_node]: the [MemoryNode] it builds has the columns of
    the row [fetchone] hands back. *)
Definition get_node (now : datetime) (node_id : string)
    (db : list nodes.row) : option nodes.row * list nodes.row :=
  let db := touch now node_id db in
  (List.find (fun row => String.eqb (nodes.id row) node_id) db, db).

(** [MemoryLite.invalidate_node]; [now_text] is the text
    [datetime('now')] evaluates to. *)
Definition invalidate_node (now_text : string) (node_id : string)
    (db : list nodes.row) : list nodes.row :=
  map (fun row =>
         if String.eqb (nodes.id row) node_id
         then {| nodes.id := nodes.id row;
                 nodes.node_type := nodes.node_type row;
                 nodes.content := nodes.content row;
                 nodes.metadata := nodes.metadata row;
                 nodes.importance := nodes.importance row;
                 nodes.access_count := nodes.access_count row;
                 nodes.created_at := nodes.created_at row;
                 nodes.last_accessed := nodes.last_accessed row;
                 nodes.valid_from := nodes.valid_from row;
                 nodes.valid_until := Some now_text |}
         else row) db.

(** [str.isspace] on the ASCII characters: tab to carriage return, the
    separators 28 to 31, and the space. *)
Definition is_space (c : ascii) : bool :=
  let n := nat_of_ascii c in
  ((9 <=? n)%nat && (n <=? 13)%nat) || ((28 <=? n)%nat && (n <=? 32)%nat).

(** [str.split()]: the maximal runs of characters that are not
    whitespace; [word] is the run being read. *)
Fixpoint split_from (word : string) (s : string) : list string :=
  match s with
  | EmptyString => if String.eqb word "" then [] else [word]
  | String c rest =>
      if is_space c
      then if String.eqb word "" then split_from "" rest
           else word :: split_from "" rest
      else split_from (word +:+ String c "") rest
  end.

Definition split (s : string) : list string := split_from "" s.

(** [MemoryLite._calculate_relevance]. *)
Definition _calculate_relevance (content query : string) : R :=
  if String.eqb query "" then 0.5
  else
    let content_words : gset string :=
      list_to_set (split (Consolidation.lower content)) in
    let query_words : gset string :=
      list_to_set (split (Consolidation.lower query)) in
    if bool_decide (query_words = ∅) then 0.5
    else
      let overlap := size (content_words ∩ query_words) in
      Rmin 1.0 (INR overlap / INR (size query_words)).

Record RetrievalResult : Type := {
  node : nodes.row;
  score : R;
  relevance : R;
  recency : R
}.

(** [valid_until IS NULL OR valid_until > datetime('now')], a comparison
    of texts. *)
Definition is_valid (now_text : string) (row : nodes.row) : bool :=
  match nodes.valid_until row with
  | None => true
  | Some valid_until => String.ltb now_text valid_until
  end.

(** [results.sort(key=lambda x: x.score, reverse=True)]. The sort is
    stable, which determines its result: results of equal score keep
    their order. Each result is put behind those already placed whose
    score is not smaller. *)
Fixpoint insert_by_score (x : RetrievalResult)
    (placed : list RetrievalResult) : list RetrievalResult :=
  match placed with
  | [] => [x]
  | y :: rest =>
      if Rlt_dec (score y) (score x) then x :: y :: rest
      else y :: insert_by_score x rest
  end.

Definition sort_by_score (results : list RetrievalResult)
    : list RetrievalResult :=
  foldl (fun placed x => insert_by_score x placed) [] results.

(** The slice [l[:limit]]; a negative [limit] counts from the end. *)
Definition slice_to {A : Type} (limit : Z) (l : list A) : list A :=
  if (0 <=? limit)%Z then take (Z.to_nat limit) l
  else take (length l - Z.to_nat (- limit)) l.

(** The result [retrieve] builds from a row. *)
Definition scored (now : datetime) (query : string) (row : nodes.row)
    : RetrievalResult :=
  let relevance := _calculate_relevance (nodes.content row) query in
  let recency :=
    _calculate_recency now (Timestamp (nodes.last_accessed row)) in
  let importance := nodes.importance row in
  let score := 0.5 * relevance + 0.3 * importance + 0.2 * recency in
  {| node := row; score := score; relevance := relevance;
     recency := recency |}.

(** [MemoryLite.retrieve]; [now] is the reading of [datetime.now()] and
    [now_text] the text of the database's [datetime('now')]. The rows
    are read in the order of the table. *)
Definition retrieve (now : datetime) (now_text : string) (query : string)
    (node_type : option string) (limit : Z) (include_invalid : bool)
    (db : list nodes.row) : list RetrievalResult :=
  let rows :=
    List.filter (fun row =>
                   selects node_type (nodes.node_type row)
                   && (include_invalid || is_valid now_text row)) db in
  let results := map (scored now query) rows in
  slice_to limit (sort_by_score results).

Module edges.
(** A row of the [edges] table; [id] is its primary key. *)
Record row : Type := {
  id : nat;
  source_id : string;
  target_id : string;
  relation_type : string;
  weight : R;
  metadata : list (string * string);
  valid_from : datetime;
  valid_until : option datetime;
  created_at : datetime
}.
End edges.

Record MemoryEdge : Type := {
  source_id : string;
  target_id : string;
  relation_type : string;
  weight : R;
  metadata : list (string * string);
  valid_from : datetime;
  valid_until : option datetime
}.

(** [MemoryLite.create_edge]. The key is the next of the [AUTOINCREMENT]
    sequence; no statement of the module deletes an edge, so it is one
    more than the largest key in the table. *)
Definition create_edge (now : datetime)
    (source_id target_id relation_type : string) (weight : R)
    (metadata : option (list (string * string))) (db : list edges.row)
    : nat * list edges.row :=
  let metadata := default [] metadata in
  let lastrowid := S (foldr Nat.max 0%nat (map edges.id db)) in
  (lastrowid,
   db ++ [ {| edges.id := lastrowid;
              edges.source_id := source_id;
              edges.target_id := target_id;
              edges.relation_type := relation_type;
              edges.weight := weight;
              edges.metadata := metadata;
              edges.valid_from := now;
              edges.valid_until := None;
              edges.created_at := now |} ]).

Definition to_edge (row : edges.row) : MemoryEdge :=
  {| source_id := edges.source_id row;
     target_id := edges.target_id row;
     relation_type := edges.relation_type row;
     weight := edges.weight row;
     metadata := edges.metadata row;
     valid_from := edges.valid_from row;
     valid_until := edges.valid_until row |}.

(** The [WHERE] clause of one of the two queries of [get_relations], on
    the column [endpoint]. *)
Definition relation_query (endpoint : edges.row → string)
    (node_id : string) (relation_type : option string) (row : edges.row)
    : bool :=
  String.eqb (endpoint row) node_id
  && bool_decide (edges.valid_until row = None)
  && selects relation_type (edges.relation_type row).

(** [MemoryLite.get_relations]. *)
Definition get_relations (node_id : string) (direction : string)
    (relation_type : option string) (db : list edges.row)
    : list MemoryEdge :=
  let edges := [] in
  let edges :=
    if String.eqb direction "out" || String.eqb direction "both"
    then edges ++ map to_edge
                    (List.filter
                       (relation_query edges.source_id node_id relation_type)
                       db)
    else edges in
  let edges :=
    if String.eqb direction "in" || String.eqb direction "both"
    then edges ++ map to_edge
                    (List.filter
                       (relation_query edges.target_id node_id relation_type)
                       db)
    else edges in
  edges.

(** [MemoryLite.invalidate_edge]. *)
Definition invalidate_edge (now : datetime)
    (source_id target_id relation_type : string) (db : list edges.row)
    : list edges.row :=
  map (fun row =>
         if String.eqb (edges.source_id row) source_id
            && String.eqb (edges.target_id row) target_id
            && String.eqb (edges.relation_type row) relation_type
            && bool_decide (edges.valid_until row = None)
         then {| edges.id := edges.id row;
                 edges.source_id := edges.source_id row;
                 edges.target_id := edges.target_id row;
                 edges.relation_type := edges.relation_type row;
                 edges.weight := edges.weight row;
                 edges.metadata := edges.metadata row;
                 edges.valid_from := edges.valid_from row;
                 edges.valid_until := Some now;
                 edges.created_at := edges.created_at row |}
         else row) db.

Section BlackboardTable.
(** The values [json.dumps] writes. A stored text is represented by the
    value [json.loads] reads back from it. *)
Variable json : Type.

(** A row of the [blackboard] table, without its primary key [key]. *)
Record blackboard_row : Type := {
  bb_value : json;
  bb_artifact_type : string;
  bb_producer : option string;
  bb_version : Z;
  bb_created_at : datetime;
  bb_updated_at : datetime
}.

(** [MemoryLite.blackboard_set]. [INSERT OR REPLACE] writes a new row:
    the column [created_at], which the statement does not name, takes
    its default [datetime('now')] again. *)
Definition blackboard_set (now : datetime) (key : string) (value : json)
    (artifact_type : string) (producer : option string)
    (db : gmap string blackboard_row) : Z * gmap string blackboard_row :=
  let existing := db !! key in
  let version :=
    match existing with
    | Some existing => (bb_version existing + 1)%Z
    | None => 1%Z
    end in
  (version,
   <[key := {| bb_value := value;
               bb_artifact_type := artifact_type;
               bb_producer := producer;
               bb_version := version;
               bb_created_at := now;
               bb_updated_at := now |}]> db).

(** [MemoryLite.blackboard_get]. *)
Definition blackboard_get (key : string) (db : gmap string blackboard_row)
    : option json :=
  match db !! key with
  | Some row => Some (bb_value row)
  | None => None
  end.

(** [MemoryLite.blackboard_delete]. *)
Definition blackboard_delete (key : string)
    (db : gmap string blackboard_row) : gmap string blackboard_row :=
  delete key db.
End BlackboardTable.

Arguments bb_value {json} _.
Arguments bb_artifact_type {json} _.
Arguments bb_producer {json} _.
Arguments bb_version {json} _.
Arguments bb_created_at {json} _.
Arguments bb_updated_at {json} _.
Arguments blackboard_set {json} now key value artifact_type producer db.
Arguments blackboard_get {json} key db.
Arguments blackboard_delete {json} key db.

End MemoryLite.

(** ** blackboard.py *)

Module Blackboard.

(** What a command sent to the store can meet. *)
Inductive fault : Type :=
  | ConnectionLost      (* redis.ConnectionError *)
  | TimedOut            (* redis.TimeoutError *)
  | CommandRefused.     (* another redis.RedisError *)

Definition fault_exn (f : fault) : exn :=
  match f with
  | ConnectionLost => redis_ConnectionError
  | TimedOut => redis_TimeoutError
  | CommandRefused => redis_RedisError
  end.

(** The world the blackboard runs in: the keys of the store, each with
    its value and, when it has one, the instant it expires at; the
    clock of [time.time()], in seconds; the arguments [time.sleep] was
    called with, oldest first; and what the coming store commands meet,
    [None] for a command that goes through. *)
Record world : Type := World {
  kv : gmap string (string * option R);
  clock : R;
  slept : list R;
  faults : list (option fault)
}.

(** A computation: from a world, a returned value or a raised exception
    and the world after it; [None] when the fuel of a loop ran out. *)
Definition M (A : Type) : Type := world → option (result A * world).

#[global] Instance M_ret : MRet M := fun A a w => Some (Return a, w).
#[global] Instance M_bind : MBind M := fun A B k m w =>
  match m w with
  | Some (Return a, w') => k a w'
  | Some (Raise e, w') => Some (Raise e, w')
  | None => None
  end.

Definition raise {A : Type} (e : exn) : M A := fun w => Some (Raise e, w).

(** [try: body except cls: raise replacement]. *)
Definition reraise_as {A : Type} (cls replacement : exn) (body : M A) : M A :=
  fun w =>
    match body w with
    | Some (Raise e, w') =>
        if isinstance e cls then Some (Raise replacement, w')
        else Some (Raise e, w')
    | other => other
    end.

Definition time_time : M R := fun w => Some (Return (clock w), w).

Definition time_sleep (seconds : R) : M () := fun w =>
  Some (Return (),
        {| kv := kv w; clock := clock w + seconds;
           slept := slept w ++ [seconds]; faults := faults w |}).

(** A store command: it meets the next fault, if any, and otherwise runs. *)
Definition command {A : Type} (run : world → A * world) : M A := fun w =>
  match faults w with
  | Some f :: rest =>
      Some (Raise (fault_exn f),
            {| kv := kv w; clock := clock w; slept := slept w;
               faults := rest |})
  | None :: rest =>
      let '(a, w') := run {| kv := kv w; clock := clock w;
                             slept := slept w; faults := rest |} in
      Some (Return a, w')
  | [] => let '(a, w') := run w in Some (Return a, w')
  end.

(** The value of a key that is set and has not expired. *)
Definition live (w : world) (key : string) : option string :=
  match kv w !! key with
  | Some (value, Some expires) =>
      if Rlt_dec (clock w) expires then Some value else None
  | Some (value, None) => Some value
  | None => None
  end.

(** [redis.set(key, value, nx=True, px=ms)], for a positive [px]. *)
Definition redis_set_nx_px (key value : string) (px : Z) : M bool :=
  command (fun w =>
    match live w key with
    | Some _ => (false, w)
    | None =>
        (true,
         {| kv := <[key := (value, Some (clock w + IZR px / 1000))]> (kv w);
            clock := clock w; slept := slept w; faults := faults w |})
    end).

(** [redis.delete(key)], the number of keys removed. *)
Definition redis_delete (key : string) : M nat :=
  command (fun w =>
    match live w key with
    | Some _ =>
        (1%nat, {| kv := delete key (kv w); clock := clock w;
                   slept := slept w; faults := faults w |})
    | None =>
        (0%nat, {| kv := delete key (kv w); clock := clock w;
                   slept := slept w; faults := faults w |})
    end).

(** [except (redis.ConnectionError, redis.TimeoutError)]. *)
Definition is_transient (e : exn) : bool :=
  isinstance e redis_ConnectionError || isinstance e redis_TimeoutError.

(** The loop of [retry_on_failure]'s wrapper,
    [for attempt in range(max_retries)], and the [raise] after it. *)
Fixpoint retry_loop {A : Type} (max_retries : nat) (delay : R) (func : M A)
    (attempts : list nat) (last_exception : option exn) : M A :=
  match attempts with
  | [] => raise ConnectionError
  | attempt :: rest => fun w =>
      match func w with
      | Some (Return a, w') => Some (Return a, w')
      | Some (Raise e, w') =>
          if is_transient e then
            (_ ← (if (attempt <? max_retries - 1)%nat
                  then time_sleep (delay * INR (attempt + 1))
                  else mret ());
             retry_loop max_retries delay func rest (Some e)) w'
          else Some (Raise e, w')
      | None => None
      end
  end.

(** [retry_on_failure(max_retries, delay)] applied to [func]. *)
Definition retry_on_failure {A : Type} (max_retries : nat) (delay : R)
    (func : M A) : M A :=
  retry_loop max_retries delay func (seq 0 max_retries) None.

Definition LOCK_PREFIX : string := "bb:lock:".

Definition _make_lock_key (resource_id : string) : string :=
  LOCK_PREFIX +:+ resource_id.

(** The [while True] loop of a blocking [acquire_lock]. *)
Fixpoint poll (fuel : nat) (lock_key : string) (timeout_ms : Z)
    (blocking_timeout start_time wait_time : R) : M bool :=
  match fuel with
  | O => fun _ => None
  | S fuel' =>
      acquired ← redis_set_nx_px lock_key "1" timeout_ms;
      if acquired : bool then mret true
      else
        now ← time_time;
        let elapsed := now - start_time in
        if Rge_dec elapsed blocking_timeout
        then raise LockAcquisitionError
        else
          _ ← time_sleep (Rmin wait_time 1.0);
          poll fuel' lock_key timeout_ms blocking_timeout start_time
               (wait_time * 2)
  end.

(** The body of [Blackboard.acquire_lock], inside its
    [except redis.RedisError]. *)
Definition acquire_lock_body (fuel : nat) (resource_id : string)
    (timeout_ms : Z) (blocking : bool) (blocking_timeout : R) : M bool :=
  reraise_as redis_RedisError BlackboardError
    (let lock_key := _make_lock_key resource_id in
     if blocking then
       start_time ← time_time;
       let wait_time := 0.01 in
       poll fuel lock_key timeout_ms blocking_timeout start_time wait_time
     else
       acquired ← redis_set_nx_px lock_key "1" timeout_ms;
       mret acquired).

(** [Blackboard.acquire_lock], decorated with
    [@retry_on_failure(max_retries=3)]. *)
Definition acquire_lock (fuel : nat) (resource_id : string)
    (timeout_ms : Z) (blocking : bool) (blocking_timeout : R) : M bool :=
  retry_on_failure 3 0.5
    (acquire_lock_body fuel resource_id timeout_ms blocking
                       blocking_timeout).

(** [Blackboard.release_lock], decorated likewise. *)
Definition release_lock (resource_id : string) : M bool :=
  retry_on_failure 3 0.5
    (reraise_as redis_RedisError BlackboardError
       (let lock_key := _make_lock_key resource_id in
        result ← redis_delete lock_key;
        mret (negb (result =? 0)%nat))).

(** [try: body finally: final]: [final] runs whatever the body's outcome
    is, and an exception it raises replaces that outcome. *)
Definition try_finally {A : Type} (body : M A) (final : M ()) : M A :=
  fun w =>
    match body w with
    | Some (r, w') =>
        match final w' with
        | Some (Return _, w'') => Some (r, w'')
        | Some (Raise e, w'') => Some (Raise e, w'')
        | None => None
        end
    | None => None
    end.

(** [with self.lock(resource_id, ...): body]: the context manager
    [Blackboard.lock] around the block of the [with] statement. The
    generator's [yield] is where the block runs; its [finally] clause runs
    when the block returns and when it raises. (The name [lock] is
    SSReflect's.) *)
Definition with_lock {A : Type} (fuel : nat) (resource_id : string)
    (timeout_ms : Z) (blocking : bool) (blocking_timeout : R)
    (body : M A) : M A :=
  acquired ← acquire_lock fuel resource_id timeout_ms blocking
                          blocking_timeout;
  if negb acquired then raise LockAcquisitionError
  else try_finally body (_ ← release_lock resource_id; mret ()).

(** [pattern.split('*')[0]]: the text before the first ['*']. *)
Fixpoint before_star (pattern : string) : string :=
  match pattern with
  | EmptyString => EmptyString
  | String c rest =>
      if Ascii.eqb c "*" then EmptyString else String c (before_star rest)
  end.

(** [Blackboard._matches_pattern]. *)
Definition _matches_pattern (key pattern : string) : bool :=
  if String.eqb pattern "*" then true
  else if Consolidation.contains "*" pattern
  then String.prefix (before_star pattern) key
  else String.eqb key pattern.

(** [try: body except cls: handler]. *)
Definition try_except {A : Type} (cls : exn) (body handler : M A) : M A :=
  fun w =>
    match body w with
    | Some (Raise e, w') =>
        if isinstance e cls then handler w' else Some (Raise e, w')
    | other => other
    end.

(** [redis.ping()]. *)
Definition redis_ping : M bool := command (fun w => (true, w)).

(** [redis.info('stats')]; the counters of the reply are the server's,
    and are made an argument. *)
Definition redis_info (stats : gmap string Z) : M (gmap string Z) :=
  command (fun w => (stats, w)).

(** The connection test of [Blackboard.__init__]. *)
Definition __init__ : M () :=
  reraise_as redis_ConnectionError ConnectionError
    (_ ← redis_ping; mret ()).

(** The dictionary [health_check] returns: healthy with two counters, or
    unhealthy (the error text is dropped). *)
Inductive health : Type :=
  | Healthy (total_commands_processed instantaneous_ops_per_sec : Z)
  | Unhealthy.

(** [Blackboard.health_check]. *)
Definition health_check (stats : gmap string Z) : M health :=
  try_except redis_RedisError
    (_ ← redis_ping;
     info ← redis_info stats;
     mret (Healthy (default 0%Z (info !! "total_commands_processed"))
                   (default 0%Z (info !! "instantaneous_ops_per_sec"))))
    (mret Unhealthy).

End Blackboard.

(** ** Binary64 arithmetic

    The functions whose result a rounding can decide, with Python's
    [float] as what it is, an IEEE 754 binary64 number rounded to nearest
    with ties to even, and the decimal literals read as Python reads
    them. *)
Module Binary64.

(** Python's builtin [sum] on floats: a left fold from 0. (From CPython
    3.12 on, [sum] also carries the rounding errors of its additions along
    and adds them at the end; that gives the same result wherever the
    additions are exact, as they are in the samples of this file.) *)
Definition sum (l : list float) : float :=
  fold_left PrimFloat.add l 0%float.

(** [math.sqrt], which raises [ValueError] on a negative number. *)
Definition math_sqrt (x : float) : result float :=
  if (x <? 0)%float then Raise ValueError else Return (PrimFloat.sqrt x).

(** [x / y], which raises [ZeroDivisionError] on a zero divisor. *)
Definition truediv (x y : float) : result float :=
  if (y =? 0)%float then Raise ZeroDivisionError else Return (x / y)%float.

(** [MemoryConsolidator._cosine_similarity]. *)
Definition _cosine_similarity (a b : list float) : result float :=
  if negb (length a =? length b)%nat then Raise ValueError
  else
    match a, b with
    | [], _ | _, [] => Return 0%float
    | _, _ =>
        let dot := sum (map (fun '(x, y) => (x * y)%float) (zip a b)) in
        norm_a ← math_sqrt (sum (map (fun x => (x * x)%float) a));
        norm_b ← math_sqrt (sum (map (fun x => (x * x)%float) b));
        if (norm_a =? 0)%float || (norm_b =? 0)%float then Return 0%float
        else truediv dot (norm_a * norm_b)%float
    end.

(** [float(n)] of a count: the additions are exact below [2 ^ 53]. *)
Fixpoint float_of_count (n : nat) : float :=
  match n with
  | O => 0%float
  | S k => (float_of_count k + 1)%float
  end.

(** [min(x, y)] and [max(x, y)]: the first argument, unless the second is
    smaller (greater). *)
Definition min (x y : float) : float := if (y <? x)%float then y else x.
Definition max (x y : float) : float := if (x <? y)%float then y else x.

(** [MemoryConsolidator._calculate_importance]. *)
Definition _calculate_importance (content : string) : float :=
  let content_lower := Consolidation.lower content in
  let high_count :=
    Consolidation.count_matches Consolidation.high_indicators
                                content_lower in
  let low_count :=
    Consolidation.count_matches Consolidation.low_indicators
                                content_lower in
  let base_score :=
    if (0 <? high_count)%nat
    then (0.7 + float_of_count (Nat.min high_count 3) * 0.1)%float
    else if (0 <? low_count)%nat
    then (0.3 - float_of_count (Nat.min low_count 3) * 0.1)%float
    else 0.5%float in
  let length := String.length content in
  let base_score :=
    if (length <? 50)%nat || (500 <? length)%nat
    then min (base_score + 0.1)%float 1.0%float
    else base_score in
  max 0.0%float (min 1.0%float base_score).

End Binary64.

Import Consolidation MemoryLite Blackboard.

(** ** The specification's wording of the algorithms *)

Module Spec.




End Spec.

(** ** Definitions the properties are stated with *)

Definition dot (a b : list R) : R :=
  sum (map (fun '(x, y) => x * y) (zip a b)).

Definition sq_norm (a : list R) : R := sum (map (fun x => x * x) a).

(** The number of lexicon entries that occur in the content, compared
    without regard to case. *)
Definition high_count (content : string) : nat :=
  count_matches high_indicators (lower content).

Definition low_count (content : string) : nat :=
  count_matches low_indicators (lower content).

(** A vector of binary64 zeros, of either sign. *)
Definition zero_vector (a : list float) : Prop :=
  Forall (fun x => x = 0%float ∨ x = (-0)%float) a.

(** The scoring rule of the specification, from the capped counts [h] and
    [l] and the content length. *)
Definition spec_base (h l : nat) : R :=
  if (0 <? h)%nat then 0.7 + 0.1 * INR h
  else if (0 <? l)%nat then 0.3 - 0.1 * INR l
  else 0.5.

Definition spec_score (h l len : nat) : R :=
  let base := spec_base h l in
  if (len <? 50)%nat || (500 <? len)%nat then Rmin 1.0 (base + 0.1)
  else base.

Definition node_a : SemanticNode.t := {|
  SemanticNode.name := "auth.py";
  SemanticNode.node_type := "file";
  SemanticNode.description := "login handler";
  SemanticNode.importance := 0.5;
  SemanticNode.sources := ["e1"];
  SemanticNode.created_at := None;
  SemanticNode.last_updated := None;
  SemanticNode.metadata := None |}.

Definition node_b : SemanticNode.t := {|
  SemanticNode.name := "auth.py";
  SemanticNode.node_type := "file";
  SemanticNode.description := "login and token refresh";
  SemanticNode.importance := 0.8;
  SemanticNode.sources := ["e2"];
  SemanticNode.created_at := None;
  SemanticNode.last_updated := None;
  SemanticNode.metadata := None |}.

(** The active records of a relation's triple. *)
Definition active_rows (r : Relation.t) (rows : list relation_row)
    : list relation_row :=
  List.filter (is_active_for r) rows.

(** A record closed at [now]. *)
Definition closed_at (now : datetime) (row : relation_row) : relation_row :=
  {| relation_id := relation_id row;
     row_source := row_source row;
     row_relation_type := row_relation_type row;
     row_target := row_target row;
     row_strength := row_strength row;
     row_valid_from := row_valid_from row;
     row_valid_to := Some now;
     row_metadata := row_metadata row |}.

(** The table invariant: at most one active record per triple. *)
Definition at_most_one_active (rows : list relation_row) : Prop :=
  ∀ r : Relation.t, (length (active_rows r rows) <= 1)%nat.

Definition depends_on (strength : R) (valid_to : option datetime)
    : Relation.t := {|
  Relation.source := "svc_a";
  Relation.relation_type := "depends_on";
  Relation.target := "svc_b";
  Relation.strength := strength;
  Relation.valid_from := None;
  Relation.valid_to := valid_to;
  Relation.metadata := None |}.

Definition first_record : relation_row :=
  {| relation_id := 1;
     row_source := "svc_a";
     row_relation_type := "depends_on";
     row_target := "svc_b";
     row_strength := 0.8;
     row_valid_from := 1000000;
     row_valid_to := None;
     row_metadata := None |}.

Definition one_active : list relation_row := [first_record].

(** The table once the lookup of [_upsert_relation] and, when it finds an
    active record, its [UPDATE] have run. *)
Definition after_update (now : datetime) (r : Relation.t)
    (rows : list relation_row) : list relation_row :=
  match List.find (is_active_for r) rows with
  | Some row => set_valid_to now (relation_id row) rows
  | None => rows
  end.

(** The record the [INSERT] of [_upsert_relation] adds to [rows]. *)
Definition new_record (now : datetime) (r : Relation.t)
    (metadata : option (list (string * string)))
    (rows : list relation_row) : relation_row :=
  {| relation_id := next_relation_id rows;
     row_source := Relation.source r;
     row_relation_type := Relation.relation_type r;
     row_target := Relation.target r;
     row_strength := Relation.strength r;
     row_valid_from := default now (Relation.valid_from r);
     row_valid_to := Relation.valid_to r;
     row_metadata := metadata |}.

(** The relation of [depends_on] with an owner that [json.dumps] cannot
    render in its metadata. *)
Definition owned_by_object : Relation.t := {|
  Relation.source := "svc_a";
  Relation.relation_type := "depends_on";
  Relation.target := "svc_b";
  Relation.strength := 0.9;
  Relation.valid_from := None;
  Relation.valid_to := None;
  Relation.metadata := Some [("owner", NotSerializable)] |}.

Definition has_id (node_id : string) (row : nodes.row) : bool :=
  String.eqb (nodes.id row) node_id.

Definition used_once : patterns.row := {|
  patterns.name := "refactor (success)";
  patterns.category := "refactor";
  patterns.description := "Consolidated from 1 episodes";
  patterns.success_rate := 1;
  patterns.times_used := 1;
  patterns.utility_score := 0.5;
  patterns.key_elements := [];
  patterns.common_tools := [];
  patterns.last_used := Timestamp 0 |}.

(** The world after [time.sleep(seconds)]. *)
Definition after_sleep (seconds : R) (w : world) : world :=
  {| kv := kv w; clock := clock w + seconds;
     slept := slept w ++ [seconds]; faults := faults w |}.

(** An outcome that ends the wrapper's loop: a returned value, or an
    exception that is not a transient one. *)
Definition ends_loop {A : Type} (r : result A) : bool :=
  match r with
  | Return _ => true
  | Raise e => negb (is_transient e)
  end.

(** A bare store command, as [redis.ping()]. *)
Definition ping : M bool := command (fun w => (true, w)).

(** A store that refuses four connections in a row. *)
Definition store_down : world :=
  {| kv := ∅; clock := 0; slept := [];
     faults := [Some ConnectionLost; Some ConnectionLost;
                Some ConnectionLost; Some ConnectionLost] |}.

(** The wait before the retry that follows the [k]-th failed attempt,
    counting from 0: 10 ms doubled [k] times, at most 1 s. *)
Definition backoff (k : nat) : R := Rmin (0.01 * 2 ^ k) 1.0.

Definition no_fault (fs : list (option fault)) : Prop :=
  Forall (fun f => f = None) fs.

(** A lock on ["r"] held by another agent for the next 100 s, a store
    that answers, and a caller willing to wait 2 s. *)
Definition held_by_other : world :=
  {| kv := {[ "bb:lock:r" := ("1", Some 100) ]};
     clock := 0; slept := []; faults := [] |}.

(** Three episodes of one run: the first two with the same embedding, the
    third orthogonal to them and carrying the given importance. *)
Definition episode (id : string) (step : Z) (emb : list R)
    (imp : option R) : Episode := {|
  episode_id := id;
  pipeline_run_id := "R";
  step_number := step;
  role := "executor";
  content := "";
  embedding := emb;
  created_at := 0;
  importance := imp;
  last_accessed := None |}.

Definition run_R (imp3 : option R) : list Episode :=
  [ episode "e1" 1 [1; 0] None;
    episode "e2" 2 [1; 0] None;
    episode "e3" 3 [0; 1] imp3 ].

(** A text in which no ['*'] occurs. *)
Fixpoint star_free (s : string) : bool :=
  match s with
  | EmptyString => true
  | String c rest => negb (Ascii.eqb c "*") && star_free rest
  end.

(** The world after a store command that went through and changed no
    key. *)
Definition answered (w : world) : world :=
  {| kv := kv w; clock := clock w; slept := slept w;
     faults := tail (faults w) |}.

(** The world after a conditional put wrote the lock marker under
    [key]. *)
Definition marked (key : string) (timeout_ms : Z) (w : world) : world :=
  {| kv := <[key := ("1", Some (clock w + IZR timeout_ms / 1000))]> (kv w);
     clock := clock w; slept := slept w; faults := tail (faults w) |}.

(** The world after a [delete] of [key] went through. *)
Definition removed (key : string) (w : world) : world :=
  {| kv := delete key (kv w); clock := clock w; slept := slept w;
     faults := tail (faults w) |}.

(** The world after a store command met a fault. *)
Definition refused (rest : list (option fault)) (w : world) : world :=
  {| kv := kv w; clock := clock w; slept := slept w; faults := rest |}.

(** Two non-blocking attempts at the lock of one resource, [seconds]
    apart. *)
Definition two_attempts (resource_id : string) (timeout_ms : Z)
    (seconds : R) : M (bool * bool) :=
  first ← acquire_lock 0 resource_id timeout_ms false 10;
  _ ← time_sleep seconds;
  second ← acquire_lock 0 resource_id timeout_ms false 10;
  mret (first, second).

(** A store that answers, with no key set. *)
Definition empty_store : world :=
  {| kv := ∅; clock := 0; slept := []; faults := [] |}.

(** A candidate the seed's cluster takes: its similarity to the seed
    reaches the threshold. *)
Definition similar_to (cfg : config) (seed candidate : Episode) : Prop :=
  ∃ similarity,
    _cosine_similarity (embedding seed) (embedding candidate)
    = Return similarity
    ∧ clustering_threshold cfg <= similarity.

(** A cluster as [_cluster_episodes] builds it: a seed from the episodes,
    followed by episodes similar to the seed, within the size limit. *)
Definition seeded_cluster (cfg : config) (episodes cluster : list Episode)
    : Prop :=
  ∃ seed joined,
    cluster = seed :: joined
    ∧ seed ∈ episodes
    ∧ Forall (fun e => e ∈ episodes ∧ similar_to cfg seed e) joined
    ∧ (length cluster <= Nat.max 1 (max_cluster_size cfg))%nat.


(** The calls that returned [True], among the values a run of calls
    returned. *)
Definition succeeded (returned : list bool) : list bool :=
  List.filter (fun ok : bool => ok) returned.

(** A run of [_upsert_relation] calls, each with the statement the
    database raises on (if any), the clock reading of the call and its
    relation: the values the calls return, oldest first, and the table
    after the run. *)
Definition upsert_relations
    (calls : list (option statement * datetime * Relation.t))
    (rows : list relation_row) : list bool * list relation_row :=
  foldl (fun acc call =>
           (acc.1 ++ [(_upsert_relation call.1.1 call.1.2 call.2 acc.2).1],
            (_upsert_relation call.1.1 call.1.2 call.2 acc.2).2))
        ([], rows) calls.

(** An episode whose importance, if it has one, is below the threshold
    0.7 of the default configuration. *)
Definition unimportant (e : Episode) : Prop :=
  ∀ i, importance e = Some i → i < 0.7.

(** The record of a failed build step, carrying the given importance. *)
Definition build_failed (imp : option R) : Episode := {|
  episode_id := "e9";
  pipeline_run_id := "R";
  step_number := 9;
  role := "executor";
  content := "Build FAILED in step 3";
  embedding := [1; 0];
  created_at := 0;
  importance := imp;
  last_accessed := None |}.

(** The rows [retrieve] reads: those its [WHERE] clause selects. *)
Definition selected (now_text : string) (node_type : option string)
    (include_invalid : bool) (db : list nodes.row) : list nodes.row :=
  List.filter (fun row =>
                 selects node_type (nodes.node_type row)
                 && (include_invalid || is_valid now_text row)) db.

(** [a] is ranked no lower than [b]. *)
Definition by_score (a b : RetrievalResult) : Prop := score b <= score a.

(** A run of [get_node] calls on one id, at the given instants: what the
    last call returns, and the table after it. *)
Definition get_node_run (times : list datetime) (node_id : string)
    (db : list nodes.row) : option nodes.row * list nodes.row :=
  foldl (fun acc now => get_node now node_id acc.2) (None, db) times.

(** A row of the [nodes] table that has not been accessed. *)
Definition note (id content : string) (importance : R)
    (valid_until : option string) : nodes.row := {|
  nodes.id := id;
  nodes.node_type := "concept";
  nodes.content := content;
  nodes.metadata := [];
  nodes.importance := importance;
  nodes.access_count := 0;
  nodes.created_at := 0;
  nodes.last_accessed := 0;
  nodes.valid_from := None;
  nodes.valid_until := valid_until |}.

(** Two notes, the second valid until the start of 2026. *)
Definition notes : list nodes.row :=
  [ note "n1" "login uses oauth" 0.5 None;
    note "n2" "deploy on friday" 0.9 (Some "2026-01-01 00:00:00") ].

(** A row after one more access at [now]. *)
Definition accessed (now : datetime) (row : nodes.row) : nodes.row := {|
  nodes.id := nodes.id row;
  nodes.node_type := nodes.node_type row;
  nodes.content := nodes.content row;
  nodes.metadata := nodes.metadata row;
  nodes.importance := nodes.importance row;
  nodes.access_count := (nodes.access_count row + 1)%Z;
  nodes.created_at := nodes.created_at row;
  nodes.last_accessed := now;
  nodes.valid_from := nodes.valid_from row;
  nodes.valid_until := nodes.valid_until row |}.

(** An edge of the triple ([source], [target], [relation]). *)
Definition of_triple (source target relation : string) (e : MemoryEdge)
    : bool :=
  String.eqb (source_id e) source
  && String.eqb (target_id e) target
  && String.eqb (relation_type e) relation.

(** A run of [record_pattern] calls on one pattern id, each with the
    clock reading of the call and its outcome. *)
Fixpoint record_outcomes (pattern_id name category description : string)
    (outcomes : list (datetime * bool)) (db : gmap string patterns.row)
    : result (gmap string patterns.row) :=
  match outcomes with
  | [] => Return db
  | (now, success) :: rest =>
      '(_, db') ← record_pattern now pattern_id name category description
                    success None None db;
      record_outcomes pattern_id name category description rest db'
  end.

(** The number of successes among the outcomes. *)
Definition successes (outcomes : list (datetime * bool)) : nat :=
  length (List.filter snd outcomes).

(** A run of [blackboard_set] calls on one key, each with the clock
    reading of the call and the value written: the version the last call
    returns (0 for no call) and the table after it. *)
Definition blackboard_sets {json : Type} (key : string)
    (writes : list (datetime * json)) (db : gmap string (blackboard_row json))
    : Z * gmap string (blackboard_row json) :=
  foldl (fun acc write =>
           blackboard_set write.1 key write.2 "generic" None acc.2)
        (0%Z, db) writes.

(** The version stored for a key, 0 when there is none. *)
Definition stored_version {json : Type} (key : string)
    (db : gmap string (blackboard_row json)) : Z :=
  match db !! key with
  | Some row => bb_version row
  | None => 0%Z
  end.

(** The wrapper's sleeps after the failed attempts [first], ...,
    [first + count - 1]: [delay * (attempt + 1)], except after the last
    attempt it allows. *)
Definition delays (max_retries : nat) (delay : R) (first count : nat)
    : list R :=
  map (fun attempt => delay * INR (attempt + 1))
      (List.filter (fun attempt => (attempt <? max_retries - 1)%nat)
                   (seq first count)).

(** The world after store commands met faults and the caller slept
    [waits]: [rest] is what the coming commands meet. *)
Definition after_retries (waits : list R) (rest : list (option fault))
    (w : world) : world :=
  {| kv := kv w; clock := fold_left Rplus waits (clock w);
     slept := slept w ++ waits; faults := rest |}.

(** A fault the wrapper retries. *)
Definition retried (f : fault) : Prop := f ≠ CommandRefused.

(** Whether one of the next [n] store commands meets a fault. *)
Definition meets_fault (n : nat) (fs : list (option fault)) : bool :=
  existsb (fun f => match f with Some _ => true | None => false end)
          (take n fs).

(** The world a blocking [acquire_lock] makes its attempt number [k] in,
    counting from 0, when its waits so far began with the one numbered
    [first]: the [k] conditional puts before it went through and were
    refused, each using up one entry of the coming faults and leaving the
    keys as they were, and each was followed by its wait. *)
Definition attempts_from (first k : nat) (w : world) : world :=
  after_retries (map backoff (seq first k)) (drop k (faults w)) w.

Definition at_attempt (k : nat) (w : world) : world := attempts_from 0 k w.

(** * Properties *)

(** Case analysis on the comparisons inside [Rmin] and [Rmax]. *)
Ltac minmax :=
  unfold Rmin, Rmax;
  repeat match goal with
         | |- context [Rle_dec ?a ?b] => destruct (Rle_dec a b)
         | H : context [Rle_dec ?a ?b] |- _ => destruct (Rle_dec a b)
         end;
  lra.

Section SumLemmas.

Lemma fold_left_Rplus_acc (l : list R) (acc : R) :
  fold_left Rplus l acc = acc + fold_left Rplus l 0.
Proof.
  revert acc; induction l as [|x l IH]; intros acc; simpl.
  - lra.
  - rewrite (IH (acc + x)), (IH (0 + x)). lra.
Qed.

Lemma sum_nil : sum [] = 0.
Proof. reflexivity. Qed.

Lemma sum_cons (x : R) (l : list R) : sum (x :: l) = x + sum l.
Proof.
  unfold sum; simpl. rewrite fold_left_Rplus_acc. lra.
Qed.

Lemma dot_cons (x y : R) (a b : list R) :
  dot (x :: a) (y :: b) = x * y + dot a b.
Proof. unfold dot; simpl. apply sum_cons. Qed.

Lemma sq_norm_cons (x : R) (a : list R) :
  sq_norm (x :: a) = x * x + sq_norm a.
Proof. unfold sq_norm; simpl. apply sum_cons. Qed.

Lemma sq_norm_nonneg (a : list R) : 0 <= sq_norm a.
Proof.
  induction a as [|x a IH].
  - unfold sq_norm; simpl; rewrite sum_nil; lra.
  - rewrite sq_norm_cons. nra.
Qed.

(** A vector has a zero norm exactly when all its components are zero. *)
Lemma sq_norm_zero (a : list R) :
  sq_norm a = 0 ↔ Forall (fun x => x = 0) a.
Proof.
  induction a as [|x a IH].
  - split; [constructor | reflexivity].
  - rewrite sq_norm_cons. pose proof (sq_norm_nonneg a) as Hn. split.
    + intros H. assert (x = 0) by nra. assert (sq_norm a = 0) by nra.
      constructor; [assumption | apply IH; assumption].
    + intros H. inversion H as [|? ? Hx Ha]; subst.
      apply IH in Ha. rewrite Ha. lra.
Qed.

(** Cauchy-Schwarz on lists of equal length. *)
Lemma cauchy_schwarz (a b : list R) :
  length a = length b →
  dot a b * dot a b <= sq_norm a * sq_norm b.
Proof.
  revert b; induction a as [|x a IH]; intros [|y b] Hlen;
    simpl in Hlen; try discriminate.
  - unfold dot, sq_norm; simpl; rewrite sum_nil; lra.
  - injection Hlen as Hlen. specialize (IH b Hlen).
    rewrite dot_cons, !sq_norm_cons.
    pose proof (sq_norm_nonneg a) as HA.
    pose proof (sq_norm_nonneg b) as HB.
    set (D := dot a b) in *. set (A := sq_norm a) in *.
    set (B := sq_norm b) in *. clearbody D A B.
    assert (Hmix : 2 * (D * (x * y)) <= A * (y * y) + B * (x * x)).
    { destruct (Rle_dec (2 * (D * (x * y))) (A * (y * y) + B * (x * x)))
        as [Hle|Hgt]; [exact Hle | exfalso].
      apply Rnot_le_lt in Hgt.
      assert (Hu : 0 <= A * (y * y) + B * (x * x)) by nra.
      assert (Hsq : (2 * (D * (x * y))) * (2 * (D * (x * y)))
                    <= (A * (y * y) + B * (x * x))
                       * (A * (y * y) + B * (x * x))).
      { assert (H1 : 0 <= (A * (y * y) - B * (x * x))
                          * (A * (y * y) - B * (x * x)))
          by apply Rle_0_sqr.
        assert (H2 : 0 <= (x * y) * (x * y) * (A * B - D * D))
          by (apply Rmult_le_pos; nra).
        nra. }
      nra. }
    nra.
Qed.

End SumLemmas.

Section Cosine.

Lemma cosine_unfold (a b : list R) :
  length a = length b → a ≠ [] →
  sq_norm a ≠ 0 → sq_norm b ≠ 0 →
  _cosine_similarity a b
  = Return (dot a b / (sqrt (sq_norm a) * sqrt (sq_norm b))).
Proof.
  intros Hlen Ha Hna Hnb. unfold _cosine_similarity.
  assert (Hb : b ≠ []) by (intros ->; destruct a; [congruence | discriminate]).
  rewrite Hlen, Nat.eqb_refl; simpl.
  rewrite !bool_decide_eq_false_2 by assumption; simpl.
  fold (sq_norm a) (sq_norm b) (dot a b).
  pose proof (sq_norm_nonneg a). pose proof (sq_norm_nonneg b).
  assert (0 < sqrt (sq_norm a)) by (apply sqrt_lt_R0; lra).
  assert (0 < sqrt (sq_norm b)) by (apply sqrt_lt_R0; lra).
  unfold Reqb.
  destruct (Req_dec_T (sqrt (sq_norm a)) 0); [lra|].
  destruct (Req_dec_T (sqrt (sq_norm b)) 0); [lra|].
  reflexivity.
Qed.

Lemma cosine_total (a b : list R) :
  length a = length b → ∃ c, _cosine_similarity a b = Return c.
Proof.
  intros Hlen. unfold _cosine_similarity.
  rewrite Hlen, Nat.eqb_refl; simpl.
  destruct (bool_decide (a = []) || bool_decide (b = [])); [eauto|].
  match goal with |- context [if ?c then _ else _] => destruct c end; eauto.
Qed.

Lemma cosine_mismatch (a b : list R) :
  length a ≠ length b → _cosine_similarity a b = Raise ValueError.
Proof.
  intros Hlen. unfold _cosine_similarity.
  apply Nat.eqb_neq in Hlen. rewrite Hlen. reflexivity.
Qed.

Lemma cosine_zero_norm (a b : list R) :
  length a = length b → sq_norm a = 0 ∨ sq_norm b = 0 →
  _cosine_similarity a b = Return 0.
Proof.
  intros Hlen Hz. unfold _cosine_similarity.
  rewrite Hlen, Nat.eqb_refl; simpl.
  destruct (bool_decide (a = []) || bool_decide (b = [])); [reflexivity|].
  fold (sq_norm a) (sq_norm b) (dot a b).
  assert (Hor : Reqb (sqrt (sq_norm a)) 0 || Reqb (sqrt (sq_norm b)) 0
                = true).
  { unfold Reqb. destruct Hz as [-> | ->]; rewrite sqrt_0.
    - destruct (Req_dec_T 0 0); [reflexivity | congruence].
    - destruct (Req_dec_T 0 0); [|congruence].
      apply orb_true_r. }
  rewrite Hor. reflexivity.
Qed.

Lemma cosine_in_range (a b : list R) :
  length a = length b → sq_norm a ≠ 0 → sq_norm b ≠ 0 →
  -1 <= dot a b / (sqrt (sq_norm a) * sqrt (sq_norm b)) <= 1.
Proof.
  intros Hlen Hna Hnb.
  pose proof (sq_norm_nonneg a) as HA. pose proof (sq_norm_nonneg b) as HB.
  pose proof (cauchy_schwarz a b Hlen) as HCS.
  assert (Hsa : 0 < sqrt (sq_norm a)) by (apply sqrt_lt_R0; lra).
  assert (Hsb : 0 < sqrt (sq_norm b)) by (apply sqrt_lt_R0; lra).
  pose proof (sqrt_sqrt _ HA) as Ea. pose proof (sqrt_sqrt _ HB) as Eb.
  set (n := sqrt (sq_norm a) * sqrt (sq_norm b)).
  assert (Hn : 0 < n) by (unfold n; nra).
  assert (Hnn : n * n = sq_norm a * sq_norm b).
  { unfold n.
    replace (sqrt (sq_norm a) * sqrt (sq_norm b)
             * (sqrt (sq_norm a) * sqrt (sq_norm b)))
      with ((sqrt (sq_norm a) * sqrt (sq_norm a))
            * (sqrt (sq_norm b) * sqrt (sq_norm b))) by ring.
    rewrite Ea, Eb. reflexivity. }
  assert (Hd : - n <= dot a b <= n) by (clearbody n; nra).
  clearbody n. split.
  - apply (Rmult_le_reg_r n); [assumption|].
    replace (dot a b / n * n) with (dot a b) by (field; lra). lra.
  - apply (Rmult_le_reg_r n); [assumption|].
    replace (dot a b / n * n) with (dot a b) by (field; lra). lra.
Qed.

Lemma not_all_zero_norm (a : list R) :
  ¬ Forall (fun x => x = 0) a → sq_norm a ≠ 0 ∧ a ≠ [].
Proof.
  intros Hnz. split.
  - intros H. apply Hnz, sq_norm_zero, H.
  - intros ->. apply Hnz. constructor.
Qed.

(** In exact arithmetic the quotient [_cosine_similarity] returns for two
    non-zero vectors of equal dimension lies in [-1, 1], by the inequality
    of Cauchy and Schwarz. The code computes it in binary64, where the
    rounding of the norms and of their product can carry it past either
    end ([cosine_similarity_exceeds_one]). *)
Lemma cosine_similarity_exact_bounds (a b : list R) :
  length a = length b →
  ¬ Forall (fun x => x = 0) a → ¬ Forall (fun x => x = 0) b →
  ∃ c, _cosine_similarity a b = Return c ∧ -1 <= c <= 1.
Proof.
  intros Hlen Ha Hb.
  destruct (not_all_zero_norm a Ha) as [Hna Hae].
  destruct (not_all_zero_norm b Hb) as [Hnb _].
  eexists; split; [apply cosine_unfold; assumption|].
  apply cosine_in_range; assumption.
Qed.

End Cosine.

Section Importance.

Lemma capped_cases (n : nat) :
  Nat.min n 3 = 0%nat ∧ n = 0%nat
  ∨ Nat.min n 3 = 1%nat ∧ n ≠ 0%nat
  ∨ Nat.min n 3 = 2%nat ∧ n ≠ 0%nat
  ∨ Nat.min n 3 = 3%nat ∧ n ≠ 0%nat.
Proof. destruct n as [|[|[|n]]]; simpl; lia. Qed.

Lemma spec_score_range (h l len : nat) :
  (h <= 3)%nat → (l <= 3)%nat → 0 <= spec_score h l len <= 1.
Proof.
  intros Hh Hl. unfold spec_score, spec_base.
  assert (Eh : (h = 0 ∨ h = 1 ∨ h = 2 ∨ h = 3)%nat) by lia.
  assert (El : (l = 0 ∨ l = 1 ∨ l = 2 ∨ l = 3)%nat) by lia.
  destruct ((len <? 50)%nat || (500 <? len)%nat);
    destruct Eh as [->|[->|[->| ->]]]; destruct El as [->|[->|[->| ->]]];
    simpl; minmax.
Qed.

Lemma importance_is_spec_score (content : string) :
  _calculate_importance content
  = spec_score (Nat.min 3 (high_count content))
               (Nat.min 3 (low_count content)) (String.length content).
Proof.
  unfold _calculate_importance, spec_score, spec_base, high_count, low_count.
  set (hc := count_matches high_indicators (lower content)).
  set (lc := count_matches low_indicators (lower content)).
  rewrite (Nat.min_comm 3 hc), (Nat.min_comm 3 lc).
  destruct (capped_cases hc) as [[-> ->]|[[-> Hh]|[[-> Hh]|[-> Hh]]]];
    destruct (capped_cases lc) as [[-> ->]|[[-> Hl]|[[-> Hl]|[-> Hl]]]];
    repeat match goal with
           | H : ?n ≠ 0%nat |- context [(0 <? ?n)%nat] =>
               replace (0 <? n)%nat with true
                 by (symmetry; apply Nat.ltb_lt; lia)
           end;
    destruct ((String.length content <? 50)%nat
              || (500 <? String.length content)%nat);
    simpl; minmax.
Qed.

(** The scoring rule as the specification words it: with [h] and [l] the
    counts of high and low indicators capped at 3, the score is the base
    ([0.7 + 0.1 h] if [h > 0], else [0.3 - 0.1 l] if [l > 0], else
    [0.5]), raised by 0.1 and capped at 1 when the content is shorter
    than 50 or longer than 500 characters; and it lies in [0, 1]. *)
Theorem calculate_importance_rule (content : string) :
  let h := Nat.min 3 (high_count content) in
  let l := Nat.min 3 (low_count content) in
  let base :=
    if (0 <? h)%nat then 0.7 + 0.1 * INR h
    else if (0 <? l)%nat then 0.3 - 0.1 * INR l
    else 0.5 in
  let len := String.length content in
  _calculate_importance content
  = (if (len <? 50)%nat || (500 <? len)%nat
     then Rmin 1.0 (base + 0.1) else base)
  ∧ 0 <= _calculate_importance content <= 1.
Proof.
  cbv zeta. split.
  - rewrite importance_is_spec_score. reflexivity.
  - rewrite importance_is_spec_score.
    apply spec_score_range; apply Nat.le_min_l.
Qed.

Ltac score_of h l :=
  rewrite importance_is_spec_score;
  replace (high_count _) with h by (vm_compute; reflexivity);
  replace (low_count _) with l by (vm_compute; reflexivity);
  unfold spec_score, spec_base; simpl; minmax.

(** Two of the specification's sample contents score as it says. *)
Lemma calculate_importance_samples :
  _calculate_importance "Error: null pointer in auth module" >= 0.8
  ∧ _calculate_importance "Started." = 0.6.
Proof. split; [score_of 1%nat 0%nat | score_of 0%nat 0%nat]. Qed.

Lemma substring_debug_bug (m : nat) (s : string) :
  String.substring m 6 s = "debug:" → String.substring (m + 2) 3 s = "bug".
Proof.
  revert s; induction m as [|m IH]; intros s H.
  - destruct s as [|c1 [|c2 [|c3 [|c4 [|c5 [|c6 rest]]]]]];
      simpl in H; try discriminate.
    injection H as -> -> -> -> -> -> _. simpl. reflexivity.
  - destruct s as [|c s]; simpl in H; [discriminate|]. simpl. apply IH, H.
Qed.

(** The high indicator ["bug"] occurs wherever the low indicator
    ["debug:"] does. *)
Lemma debug_contains_bug (s : string) :
  contains "debug:" s = true → contains "bug" s = true.
Proof.
  unfold contains.
  destruct (String.index 0 "debug:" s) as [m|] eqn:E; [|discriminate].
  intros _. apply String.index_correct1 in E. simpl String.length in E.
  apply substring_debug_bug in E.
  destruct (String.index 0 "bug" s) eqn:E2; [reflexivity|]. exfalso.
  apply (String.index_correct3 0 (m + 2) "bug" s E2);
    [discriminate | lia | exact E].
Qed.

Lemma count_matches_pos (indicators : list string) (s x : string) :
  In x indicators → contains x s = true →
  (1 <= count_matches indicators s)%nat.
Proof.
  intros Hin Hx. unfold count_matches.
  assert (Hf : In x (List.filter (fun i => contains i s) indicators))
    by (apply List.filter_In; auto).
  destruct (List.filter _ indicators); [destruct Hf | simpl; lia].
Qed.

(** The low indicator ["debug:"] never lowers a score: a content in which
    it occurs counts at least one high indicator and scores 0.8 or
    more. *)
Lemma debug_content_scores_high (content : string) :
  contains "debug:" (lower content) = true →
  (1 <= high_count content)%nat ∧ _calculate_importance content >= 0.8.
Proof.
  intros Hd. apply debug_contains_bug in Hd.
  assert (Hh : (1 <= high_count content)%nat).
  { apply (count_matches_pos _ _ "bug"); [|exact Hd].
    unfold high_indicators. simpl. tauto. }
  split; [exact Hh|]. rewrite importance_is_spec_score.
  unfold spec_score, spec_base.
  assert (Hm : (Nat.min 3 (high_count content) = 1
                ∨ Nat.min 3 (high_count content) = 2
                ∨ Nat.min 3 (high_count content) = 3)%nat) by lia.
  destruct ((String.length content <? 50)%nat
            || (500 <? String.length content)%nat);
    destruct Hm as [-> |[-> | ->]]; simpl; minmax.
Qed.

(** C7. Importance scoring, at the sample content
    ["debug: loaded config"], which the specification scores at most 0.3:
    the high indicator ["bug"] occurs inside the low indicator
    ["debug:"], so the content counts one high indicator, its base is
    0.8, and with the bonus for a short content its score is 0.9. *)
Theorem calculate_importance_debug_sample :
  high_count "debug: loaded config" = 1%nat
  ∧ low_count "debug: loaded config" = 1%nat
  ∧ _calculate_importance "debug: loaded config" = 0.9
  ∧ ¬ _calculate_importance "debug: loaded config" <= 0.3.
Proof.
  assert (E : _calculate_importance "debug: loaded config" = 0.9)
    by score_of 1%nat 1%nat.
  split; [vm_compute; reflexivity|].
  split; [vm_compute; reflexivity|].
  split; [exact E|]. rewrite E. lra.
Qed.

End Importance.

Section Rounding.

Lemma cosine_mismatch_binary64 (a b : list float) :
  length a ≠ length b → Binary64._cosine_similarity a b = Raise ValueError.
Proof.
  intros Hlen. unfold Binary64._cosine_similarity.
  apply Nat.eqb_neq in Hlen. rewrite Hlen. reflexivity.
Qed.

Lemma sum_zero_squares (a : list float) :
  zero_vector a → Binary64.sum (map (fun x => (x * x)%float) a) = 0%float.
Proof.
  unfold Binary64.sum. induction 1 as [|x a [-> | ->] _ IH];
    [reflexivity | exact IH | exact IH].
Qed.

(** A zero vector gives similarity 0 as soon as the norm of the other
    vector has been taken. *)
Lemma cosine_zero_vector_binary64 (a b : list float) :
  length a = length b → a ≠ [] →
  (zero_vector a →
   Binary64._cosine_similarity a b
   = (_ ← Binary64.math_sqrt
            (Binary64.sum (map (fun x => (x * x)%float) b));
      Return 0%float))
  ∧ (zero_vector b →
     Binary64._cosine_similarity a b
     = (_ ← Binary64.math_sqrt
              (Binary64.sum (map (fun x => (x * x)%float) a));
        Return 0%float)).
Proof.
  intros Hlen Ha. unfold Binary64._cosine_similarity.
  rewrite Hlen, Nat.eqb_refl. cbn [negb].
  destruct a as [|x a]; [congruence|].
  destruct b as [|y b]; [discriminate|].
  split; intros Hzero; rewrite (sum_zero_squares _ Hzero);
    change (Binary64.math_sqrt 0) with (Return 0%float);
    destruct (Binary64.math_sqrt _) as [norm|e]; try reflexivity;
    cbn [mbind result_bind]; change (0 =? 0)%float with true;
    rewrite ?orb_true_r; reflexivity.
Qed.

(** C8. Cosine similarity, at the vector [1.0, 1.0, 1.0] taken with
    itself, which the specification (and the docstring of the function)
    places in [-1, 1]: in binary64 the dot product is 3.0, each norm is
    the square root of 3.0 rounded, their product rounds to
    2.9999999999999996, and the quotient the code returns, which nothing
    clamps, is 1.0000000000000002, above 1. Its opposite is returned for
    the vector taken with its negation. *)
Theorem cosine_similarity_exceeds_one :
  Binary64._cosine_similarity [1; 1; 1]%float [1; 1; 1]%float
  = Return 0x1.0000000000001p+0%float
  ∧ (1 <? 0x1.0000000000001p+0)%float = true
  ∧ Binary64._cosine_similarity [1; 1; 1]%float [-1; -1; -1]%float
    = Return (-0x1.0000000000001p+0)%float
  ∧ (-0x1.0000000000001p+0 <? -1)%float = true.
Proof. repeat split; vm_compute; reflexivity. Qed.

(** The other two parts of the claim on samples: unequal dimensions
    raise [ValueError], and a zero vector gives 0. *)
Example cosine_similarity_binary64_samples :
  Binary64._cosine_similarity [1; 0]%float [1]%float = Raise ValueError
  ∧ Binary64._cosine_similarity [0; 0]%float [1; 1]%float = Return 0%float.
Proof. split; vm_compute; reflexivity. Qed.

(** The score of a content that counts a high indicator, in binary64:
    the code adds 0.1 to 0.7 up to three times, which gives
    0.7999999999999999, 0.8999999999999999 or 1.0, and these stay at or
    above the threshold 0.7 that clustering compares the importance of a
    lone seed with, though the first is below 0.8. *)
Lemma importance_binary64_high (content : string) :
  (1 <= high_count content)%nat →
  (0.7 <=? Binary64._calculate_importance content)%float = true
  ∧ (0x1.9999999999999p-1 <=? Binary64._calculate_importance content)%float
    = true.
Proof.
  unfold high_count, Binary64._calculate_importance.
  set (hc := count_matches high_indicators (lower content)).
  intros Hh.
  replace (0 <? hc)%nat with true by (symmetry; apply Nat.ltb_lt; lia).
  destruct (capped_cases hc) as [[_ ->]|[[-> _]|[[-> _]|[-> _]]]]; [lia| | |];
    destruct ((String.length content <? 50)%nat
              || (500 <? String.length content)%nat);
    split; vm_compute; reflexivity.
Qed.

(** The test [importance >= 0.7] comes out the same on the score computed
    in binary64 and on the score computed in exact arithmetic: it holds
    exactly when the content counts a high indicator. *)
Lemma importance_keep_test_agrees (content : string) :
  (0.7 <=? Binary64._calculate_importance content)%float
  = Rgeb (_calculate_importance content)
         (importance_threshold_high default_config)
  ∧ Rgeb (_calculate_importance content)
         (importance_threshold_high default_config)
    = (0 <? high_count content)%nat.
Proof.
  rewrite importance_is_spec_score.
  unfold high_count, low_count, Binary64._calculate_importance,
    spec_score, spec_base, Rgeb.
  cbn [importance_threshold_high default_config].
  set (hc := count_matches high_indicators (lower content)).
  set (lc := count_matches low_indicators (lower content)).
  rewrite (Nat.min_comm 3 hc), (Nat.min_comm 3 lc).
  destruct (capped_cases hc) as [[-> ->]|[[-> Hh]|[[-> Hh]|[-> Hh]]]];
    destruct (capped_cases lc) as [[-> ->]|[[-> Hl]|[[-> Hl]|[-> Hl]]]];
    repeat match goal with
           | H : ?n ≠ 0%nat |- context [(0 <? ?n)%nat] =>
               replace (0 <? n)%nat with true
                 by (symmetry; apply Nat.ltb_lt; lia)
           end;
    destruct ((String.length content <? 50)%nat
              || (500 <? String.length content)%nat);
    (split; [vm_compute PrimFloat.leb|]);
    cbn [Nat.ltb Nat.leb INR];
    match goal with
    | |- context [Rle_dec ?x ?y] =>
        destruct (Rle_dec x y) as [Hle|Hnle]; try reflexivity;
        exfalso; revert Hle || revert Hnle; simpl; minmax
    end.
Qed.

(** The sample of C7 in binary64: the code returns 0.8999999999999999,
    one unit in the last place below the 0.9 of exact arithmetic. *)
Example calculate_importance_debug_sample_binary64 :
  Binary64._calculate_importance "debug: loaded config"
  = 0x1.cccccccccccccp-1%float
  ∧ (Binary64._calculate_importance "debug: loaded config" <=? 0.3)%float
    = false.
Proof. split; vm_compute; reflexivity. Qed.

(** One failure word in a content of 50 to 500 characters scores
    0.7999999999999999, below 0.8. *)
Example calculate_importance_one_word_binary64 :
  Binary64._calculate_importance
    "The nightly build failed while linking the cache service."
  = 0x1.9999999999999p-1%float
  ∧ (0x1.9999999999999p-1 <? 0.8)%float = true.
Proof. split; vm_compute; reflexivity. Qed.

(** The weighted sums of [calculate_utility_score] and of [retrieve] at
    the ends of their operands' ranges, in binary64: the weights add up
    to 1.0 exactly, so that, rounding being monotone, neither sum leaves
    [0, 1] on operands in [0, 1]. *)
Example weighted_sums_ends_binary64 :
  (0.4 * 1.0 + 0.3 * 1.0 + 0.3 * 1.0)%float = 1%float
  ∧ (0.4 * 0.0 + 0.3 * 0.0 + 0.3 * 0.0)%float = 0%float
  ∧ (0.5 * 1.0 + 0.3 * 1.0 + 0.2 * 1.0)%float = 1%float
  ∧ (0.5 * 0.0 + 0.3 * 0.0 + 0.2 * 0.0)%float = 0%float.
Proof. repeat split; vm_compute; reflexivity. Qed.

End Rounding.

Section Clustering.

Lemma result_bind_Return {A B : Type} (a : A) (k : A → result B) :
  (Return a ≫= k) = k a.
Proof. reflexivity. Qed.

Lemma result_bind_Raise {A B : Type} (e : exn) (k : A → result B) :
  (Raise e ≫= k) = Raise e.
Proof. reflexivity. Qed.






Lemma cosine_same : _cosine_similarity [1; 0] [1; 0] = Return 1.
Proof.
  rewrite cosine_unfold; try discriminate; try reflexivity.
  - rewrite !dot_cons, !sq_norm_cons.
    unfold dot, sq_norm; simpl; rewrite sum_nil.
    replace (1 * 1 + (0 * 0 + 0)) with 1 by lra.
    rewrite sqrt_1. f_equal. field.
  - rewrite !sq_norm_cons. unfold sq_norm; simpl; rewrite sum_nil. lra.
  - rewrite !sq_norm_cons. unfold sq_norm; simpl; rewrite sum_nil. lra.
Qed.

Lemma cosine_orthogonal : _cosine_similarity [1; 0] [0; 1] = Return 0.
Proof.
  rewrite cosine_unfold; try discriminate; try reflexivity.
  - rewrite !dot_cons, !sq_norm_cons.
    unfold dot, sq_norm; simpl; rewrite sum_nil.
    f_equal. unfold Rdiv. lra.
  - rewrite !sq_norm_cons. unfold sq_norm; simpl; rewrite sum_nil. lra.
  - rewrite !sq_norm_cons. unfold sq_norm; simpl; rewrite sum_nil. lra.
Qed.

(** One round of the inner loop on a clustered candidate, on one that
    joins, and on one that does not. *)
Lemma add_similar_clustered (cfg : config) (seed c : Episode)
    (rest cluster : list Episode) (ids : gset string) :
  episode_id c ∈ ids →
  add_similar cfg seed (c :: rest) cluster ids
  = add_similar cfg seed rest cluster ids.
Proof.
  intros Hin. cbn [add_similar].
  rewrite bool_decide_eq_true_2 by assumption. reflexivity.
Qed.

Lemma add_similar_compared (cfg : config) (seed c : Episode)
    (rest cluster : list Episode) (ids : gset string) (sim : R) :
  episode_id c ∉ ids →
  (length cluster < max_cluster_size cfg)%nat →
  _cosine_similarity (embedding seed) (embedding c) = Return sim →
  add_similar cfg seed (c :: rest) cluster ids
  = if Rgeb sim (clustering_threshold cfg)
    then add_similar cfg seed rest (cluster ++ [c])
                     ({[episode_id c]} ∪ ids)
    else add_similar cfg seed rest cluster ids.
Proof.
  intros Hin Hroom Hsim. cbn [add_similar].
  rewrite bool_decide_eq_false_2 by assumption.
  apply Nat.leb_gt in Hroom. rewrite Hroom, Hsim. reflexivity.
Qed.

(** One round of the outer loop on a clustered episode, and on a seed. *)
Lemma cluster_loop_clustered (cfg : config) (episodes rest : list Episode)
    (seed : Episode) (clusters : list (list Episode)) (ids : gset string) :
  episode_id seed ∈ ids →
  cluster_loop cfg episodes (seed :: rest) clusters ids
  = cluster_loop cfg episodes rest clusters ids.
Proof.
  intros Hin. cbn [cluster_loop].
  rewrite bool_decide_eq_true_2 by assumption. reflexivity.
Qed.

Lemma cluster_loop_seed (cfg : config) (episodes rest : list Episode)
    (seed : Episode) (clusters : list (list Episode)) (ids ids' : gset string)
    (cluster : list Episode) :
  episode_id seed ∉ ids →
  add_similar cfg seed episodes [seed] ({[episode_id seed]} ∪ ids)
  = Return (cluster, ids') →
  cluster_loop cfg episodes (seed :: rest) clusters ids
  = if (min_cluster_size cfg <=? length cluster)%nat
    then cluster_loop cfg episodes rest (clusters ++ [cluster]) ids'
    else
      keep ← seed_is_important cfg cluster;
      if keep : bool
      then cluster_loop cfg episodes rest (clusters ++ [cluster]) ids'
      else cluster_loop cfg episodes rest clusters ids'.
Proof.
  intros Hin Hadd. cbn [cluster_loop].
  rewrite bool_decide_eq_false_2 by assumption.
  rewrite Hadd. reflexivity.
Qed.

(** The specification's scenario of three episodes: the two similar ones
    form a cluster, and the third is dropped, or kept as a cluster of its
    own when its importance is 0.9. *)
Example cluster_episodes_scenario :
  _cluster_episodes default_config (run_R None)
  = Return [[episode "e1" 1 [1; 0] None; episode "e2" 2 [1; 0] None]]
  ∧ _cluster_episodes default_config (run_R (Some 0.9))
    = Return [[episode "e1" 1 [1; 0] None; episode "e2" 2 [1; 0] None];
              [episode "e3" 3 [0; 1] (Some 0.9)]].
Proof.
  assert (Hge : Rgeb 1 (clustering_threshold default_config) = true).
  { unfold Rgeb; simpl. destruct (Rle_dec 0.75 1); [reflexivity | lra]. }
  assert (Hlt : Rgeb 0 (clustering_threshold default_config) = false).
  { unfold Rgeb; simpl. destruct (Rle_dec 0.75 0); [lra | reflexivity]. }
  assert (Himp : truthy 0.9 && Rgeb 0.9 0.7 = true).
  { unfold truthy, Rgeb.
    destruct (Req_dec_T 0.9 0); [lra|].
    destruct (Rle_dec 0.7 0.9); [reflexivity | lra]. }
  assert (Hfirst : ∀ imp3,
    add_similar default_config (episode "e1" 1 [1; 0] None) (run_R imp3)
      [episode "e1" 1 [1; 0] None] ({["e1"]} ∪ ∅)
    = Return ([episode "e1" 1 [1; 0] None; episode "e2" 2 [1; 0] None],
              {["e2"]} ∪ ({["e1"]} ∪ ∅))).
  { intros imp3. unfold run_R.
    rewrite add_similar_clustered by compute_done.
    rewrite (add_similar_compared _ _ _ _ _ _ 1);
      [|compute_done | simpl; lia | exact cosine_same].
    rewrite Hge.
    rewrite (add_similar_compared _ _ _ _ _ _ 0);
      [|compute_done | simpl; lia | exact cosine_orthogonal].
    rewrite Hlt. reflexivity. }
  assert (Hthird : ∀ imp3,
    add_similar default_config (episode "e3" 3 [0; 1] imp3) (run_R imp3)
      [episode "e3" 3 [0; 1] imp3]
      ({["e3"]} ∪ ({["e2"]} ∪ ({["e1"]} ∪ ∅)))
    = Return ([episode "e3" 3 [0; 1] imp3],
              {["e3"]} ∪ ({["e2"]} ∪ ({["e1"]} ∪ ∅)))).
  { intros imp3. unfold run_R.
    rewrite !add_similar_clustered by compute_done. reflexivity. }
  split; unfold _cluster_episodes;
    rewrite bool_decide_eq_false_2 by discriminate.
  - unfold run_R at 2.
    erewrite cluster_loop_seed; [|compute_done|apply Hfirst].
    cbn [length min_cluster_size default_config Nat.leb app].
    rewrite cluster_loop_clustered by compute_done.
    erewrite cluster_loop_seed; [|compute_done|apply Hthird].
    reflexivity.
  - unfold run_R at 2.
    erewrite cluster_loop_seed; [|compute_done|apply Hfirst].
    cbn [length min_cluster_size default_config Nat.leb app].
    rewrite cluster_loop_clustered by compute_done.
    erewrite cluster_loop_seed; [|compute_done|apply Hthird].
    cbn [length min_cluster_size default_config Nat.leb app
         seed_is_important importance episode
         importance_threshold_high].
    rewrite Himp. reflexivity.
Qed.


End Clustering.

Section NodeMerge.

(** What two upserts of one name leave in a table that did not have the
    name: the second call reads the [sources] text the first one wrote,
    and keeps the ids decoded from it. *)
Lemma upsert_semantic_node_twice (db : gmap string node_row)
    (a b : SemanticNode.t) (now_a now_b : datetime) :
  SemanticNode.name a = SemanticNode.name b →
  db !! SemanticNode.name a = None →
  (_upsert_semantic_node now_b b (_upsert_semantic_node now_a a db).2).2
    !! SemanticNode.name a
  = Some {| row_node_type := SemanticNode.node_type a;
            row_description := SemanticNode.description b;
            row_importance :=
              Rmax (SemanticNode.importance a) (SemanticNode.importance b);
            row_sources := SourcesText (list_set (SemanticNode.sources a));
            row_created_at := now_a;
            row_last_updated := now_b |}.
Proof.
  intros Hname Hfresh. unfold _upsert_semantic_node at 2.
  rewrite Hfresh. cbn [snd]. unfold _upsert_semantic_node.
  rewrite <- Hname, lookup_insert_eq. cbn [snd].
  rewrite lookup_insert_eq. reflexivity.
Qed.

(** When the column is read back as a list, the update does merge. *)
Lemma upsert_semantic_node_list_column (db : gmap string node_row)
    (existing : node_row) (ids : list string) (b : SemanticNode.t)
    (now : datetime) :
  db !! SemanticNode.name b = Some existing →
  row_sources existing = SourcesList ids →
  ∃ row merged,
    (_upsert_semantic_node now b db).2 !! SemanticNode.name b = Some row
    ∧ row_sources row = SourcesText merged
    ∧ (list_to_set merged : gset string)
      = list_to_set ids ∪ list_to_set (SemanticNode.sources b).
Proof.
  intros Hex Hcol. unfold _upsert_semantic_node. rewrite Hex. cbn [snd].
  rewrite lookup_insert_eq. eexists _, _. split; [reflexivity|].
  split; [reflexivity|]. rewrite Hcol. unfold list_set; simpl.
  apply set_eq. intros x.
  rewrite elem_of_list_to_set, elem_of_elements, elem_of_list_to_set.
  rewrite elem_of_union, !elem_of_list_to_set, elem_of_app. reflexivity.
Qed.

(** C1. Node merge, on an empty table: after the upserts of ["auth.py"]
    with sources [e1], importance 0.5 and then with sources [e2],
    importance 0.8, the stored node has the later description and
    [last_updated] and the importance 0.8, the maximum; its sources are
    [e1] alone, not the union [e1, e2]. *)
Theorem upsert_semantic_node_merge_sample :
  ∃ row,
    (_upsert_semantic_node 2000000 node_b
       (_upsert_semantic_node 1000000 node_a ∅).2).2 !! "auth.py"
    = Some row
    ∧ row_description row = "login and token refresh"
    ∧ row_last_updated row = 2000000%Z
    ∧ row_importance row = 0.8
    ∧ row_sources row = SourcesText ["e1"]
    ∧ row_sources row ≠ SourcesText (list_set (["e1"] ++ ["e2"])).
Proof.
  eexists. split.
  - apply (upsert_semantic_node_twice ∅ node_a node_b);
      [reflexivity | apply lookup_empty].
  - cbn [row_description row_last_updated row_importance row_sources
         node_a node_b SemanticNode.description SemanticNode.importance
         SemanticNode.sources].
    assert (E1 : list_set ["e1"] = ["e1"]) by (vm_compute; reflexivity).
    assert (E2 : list_set (["e1"] ++ ["e2"]) = ["e1"; "e2"])
      by (vm_compute; reflexivity).
    rewrite E1, E2.
    split; [reflexivity|]. split; [reflexivity|].
    split; [minmax|]. split; [reflexivity|]. discriminate.
Qed.

End NodeMerge.

Section Supersession.

Lemma filter_singleton_split {A : Type} (f : A → bool) (l : list A) (x : A) :
  List.filter f l = [x] →
  ∃ pre post, l = pre ++ x :: post ∧ f x = true
              ∧ List.filter f pre = [] ∧ List.filter f post = [].
Proof.
  induction l as [|y l IH]; simpl; [discriminate|].
  destruct (f y) eqn:Hy.
  - intros [= -> Hrest]. exists [], l. auto.
  - intros Hl. destruct (IH Hl) as (pre & post & -> & Hx & Hpre & Hpost).
    exists (y :: pre), post. simpl. rewrite Hy. auto.
Qed.

Lemma find_after_inactive {A : Type} (f : A → bool) (pre post : list A)
    (x : A) :
  List.filter f pre = [] → f x = true →
  List.find f (pre ++ x :: post) = Some x.
Proof.
  intros Hpre Hx. induction pre as [|y pre IH]; simpl.
  - rewrite Hx. reflexivity.
  - simpl in Hpre. destruct (f y); [discriminate|]. apply IH, Hpre.
Qed.

Lemma find_none_inactive {A : Type} (f : A → bool) (l : list A) :
  List.filter f l = [] → List.find f l = None.
Proof.
  induction l as [|y l IH]; simpl; [reflexivity|].
  destruct (f y); [discriminate | exact IH].
Qed.

Lemma set_valid_to_other (now : datetime) (id : nat)
    (rows : list relation_row) :
  id ∉ map relation_id rows → set_valid_to now id rows = rows.
Proof.
  induction rows as [|row rows IH]; simpl; [reflexivity|].
  intros Hid. apply not_elem_of_cons in Hid as [Hne Hid].
  destruct (Nat.eqb_spec (relation_id row) id) as [Heq|_];
    [symmetry in Heq; contradiction|].
  rewrite IH by assumption. reflexivity.
Qed.

Lemma set_valid_to_split (now : datetime) (pre post : list relation_row)
    (old : relation_row) :
  NoDup (map relation_id (pre ++ old :: post)) →
  set_valid_to now (relation_id old) (pre ++ old :: post)
  = pre ++ closed_at now old :: post.
Proof.
  rewrite map_app. simpl. intros Hnd.
  apply NoDup_app in Hnd as (_ & Hpre & Hnd).
  apply NoDup_cons in Hnd as [Hpost _].
  assert (Hpre' : relation_id old ∉ map relation_id pre).
  { intros Hin. apply (Hpre _ Hin). left. }
  unfold set_valid_to. rewrite map_app. simpl. rewrite Nat.eqb_refl.
  fold (set_valid_to now (relation_id old) pre).
  fold (set_valid_to now (relation_id old) post).
  rewrite !set_valid_to_other by assumption. reflexivity.
Qed.

Lemma le_max_ids (l : list nat) (n : nat) :
  n ∈ l → (n <= foldr Nat.max 0 l)%nat.
Proof.
  induction l as [|m l IH]; intros Hn; [inversion Hn|]. simpl.
  apply elem_of_cons in Hn as [->|Hn]; [lia|].
  specialize (IH Hn). lia.
Qed.

(** The key of a new row is not in use. *)
Lemma next_relation_id_fresh (rows : list relation_row) :
  next_relation_id rows ∉ map relation_id rows.
Proof.
  unfold next_relation_id. intros Hin. apply le_max_ids in Hin. lia.
Qed.

Lemma closed_not_active (r : Relation.t) (now : datetime)
    (row : relation_row) :
  is_active_for r (closed_at now row) = false.
Proof.
  unfold is_active_for, closed_at; simpl.
  apply andb_false_r.
Qed.

Lemma find_some_filter {A : Type} (f : A → bool) (l : list A) (x : A) :
  List.find f l = Some x → ∃ rest, List.filter f l = x :: rest.
Proof.
  induction l as [|y l IH]; simpl; [discriminate|].
  destruct (f y); [intros [= ->]; eauto | exact IH].
Qed.

Lemma find_none_filter {A : Type} (f : A → bool) (l : list A) :
  List.find f l = None → List.filter f l = [].
Proof.
  induction l as [|y l IH]; simpl; [reflexivity|].
  destruct (f y); [discriminate | exact IH].
Qed.

Lemma set_valid_to_ids (now : datetime) (id : nat)
    (rows : list relation_row) :
  map relation_id (set_valid_to now id rows) = map relation_id rows.
Proof.
  induction rows as [|row rows IH]; simpl; [reflexivity|].
  rewrite IH. destruct (relation_id row =? id)%nat; reflexivity.
Qed.

(** Two relations under which one active row is active have the same
    triple, so they select the same rows. *)
Lemma active_same_triple (r r' : Relation.t) (row : relation_row) :
  is_active_for r row = true → is_active_for r' row = true →
  ∀ row', is_active_for r' row' = is_active_for r row'.
Proof.
  unfold is_active_for. intros H H' row'.
  repeat (apply andb_prop in H as [H ?]).
  repeat (apply andb_prop in H' as [H' ?]).
  repeat match goal with
         | H : bool_decide _ = true |- _ => apply bool_decide_eq_true_1 in H
         end.
  replace (Relation.source r') with (Relation.source r) by congruence.
  replace (Relation.relation_type r')
    with (Relation.relation_type r) by congruence.
  replace (Relation.target r') with (Relation.target r) by congruence.
  reflexivity.
Qed.

Lemma filter_ext_eq {A : Type} (f g : A → bool) (l : list A) :
  (∀ x, f x = g x) → List.filter f l = List.filter g l.
Proof.
  intros Hfg. induction l as [|y l IH]; simpl; [reflexivity|].
  rewrite Hfg, IH. reflexivity.
Qed.

Lemma filter_closed_le (r : Relation.t) (now : datetime) (id : nat)
    (rows : list relation_row) :
  (length (active_rows r (set_valid_to now id rows))
   <= length (active_rows r rows))%nat.
Proof.
  unfold active_rows.
  induction rows as [|row rows IH]; simpl; [lia|].
  destruct (relation_id row =? id)%nat.
  - fold (closed_at now row). rewrite closed_not_active.
    destruct (is_active_for r row); simpl; lia.
  - destruct (is_active_for r row); simpl; lia.
Qed.

(** What a call leaves in the table: the table it was given, when the
    lookup or the [UPDATE] raised; the table after the [UPDATE], when the
    [INSERT] or the building of its arguments raised; and otherwise that
    table with the new record. It returns [True] in the last case only,
    and then only if the [commit] went through. *)
Lemma upsert_relation_cases (raises : option statement) (now : datetime)
    (r : Relation.t) (rows : list relation_row) :
  _upsert_relation raises now r rows = (false, rows)
  ∨ _upsert_relation raises now r rows = (false, after_update now r rows)
  ∨ ∃ metadata,
      metadata_column (Relation.metadata r) = Return metadata
      ∧ _upsert_relation raises now r rows
        = (negb (bool_decide (raises = Some Commit)),
           after_update now r rows
           ++ [new_record now r metadata (after_update now r rows)]).
Proof.
  unfold _upsert_relation, after_update.
  destruct (List.find (is_active_for r) rows) as [row|];
    destruct (metadata_column (Relation.metadata r)) as [metadata|e];
    destruct raises as [[| | |]|];
    repeat case_bool_decide; try discriminate; try congruence; auto;
    right; right; exists metadata; split; reflexivity.
Qed.

(** After the [UPDATE] the keys are as they were, no triple has more
    active records than before, and the relation's triple has none. *)
Lemma after_update_closes (now : datetime) (r : Relation.t)
    (rows : list relation_row) :
  NoDup (map relation_id rows) → at_most_one_active rows →
  map relation_id (after_update now r rows) = map relation_id rows
  ∧ (∀ r', (length (active_rows r' (after_update now r rows))
            <= length (active_rows r' rows))%nat)
  ∧ active_rows r (after_update now r rows) = [].
Proof.
  intros Hnd Hone. unfold after_update.
  destruct (List.find (is_active_for r) rows) as [old|] eqn:Hfind.
  - split; [apply set_valid_to_ids|].
    split; [intros r'; apply filter_closed_le|].
    destruct (find_some_filter _ _ _ Hfind) as [rest Hf].
    pose proof (Hone r) as H1. unfold active_rows in H1.
    rewrite Hf in H1. destruct rest; [|simpl in H1; lia].
    destruct (filter_singleton_split _ _ _ Hf)
      as (pre & post & -> & Hold & Hpre & Hpost).
    rewrite set_valid_to_split by assumption. unfold active_rows.
    rewrite List.filter_app. cbn [List.filter].
    rewrite closed_not_active, Hpre, Hpost. reflexivity.
  - split; [reflexivity|]. split; [intros r'; lia|].
    apply find_none_filter, Hfind.
Qed.

(** [_upsert_relation] keeps the keys distinct and keeps at most one
    active record per triple, whatever relation it is given and whether
    it fails or not; both hold of the empty table, hence of every table the
    function has built. *)
Lemma upsert_relation_invariant (raises : option statement)
    (now : datetime) (r : Relation.t) (rows : list relation_row) :
  NoDup (map relation_id rows) → at_most_one_active rows →
  NoDup (map relation_id (_upsert_relation raises now r rows).2)
  ∧ at_most_one_active (_upsert_relation raises now r rows).2.
Proof.
  intros Hnd Hone.
  destruct (after_update_closes now r rows Hnd Hone) as (Hids & Hle & Hnone).
  assert (Hone' : at_most_one_active (after_update now r rows)).
  { intros r'. specialize (Hle r'). specialize (Hone r'). lia. }
  destruct (upsert_relation_cases raises now r rows)
    as [->|[->|(metadata & _ & ->)]]; cbn [snd].
  - auto.
  - rewrite Hids. auto.
  - set (closed := after_update now r rows) in *.
    split.
    + rewrite map_app, Hids. simpl. apply NoDup_app. split; [assumption|].
      split; [|repeat constructor; set_solver].
      intros id Hin Hfresh. apply list_elem_of_singleton in Hfresh.
      subst id. unfold next_relation_id in Hin. rewrite Hids in Hin.
      apply le_max_ids in Hin. lia.
    + intros r'. unfold active_rows. rewrite List.filter_app, length_app.
      cbn [List.filter].
      destruct (is_active_for r' (new_record now r metadata closed))
        eqn:Hnew.
      * assert (Hr : is_active_for r (new_record now r metadata closed)
                     = true).
        { unfold is_active_for in *. cbn in *.
          repeat (apply andb_prop in Hnew as [Hnew ?]).
          rewrite !bool_decide_eq_true_2 by reflexivity. simpl.
          assumption. }
        rewrite (filter_ext_eq _ _ closed
                   (active_same_triple r r' _ Hr Hnew)).
        fold (active_rows r closed). rewrite Hnone. simpl. lia.
      * simpl. specialize (Hone' r'). unfold active_rows in *. lia.
Qed.

(** The defect of the failure path: when the triple has an active record
    and the [INSERT] (or the [json.dumps] of its arguments) raises, the
    call returns [False] with the active record already closed by the
    [UPDATE], which nothing rolls back: the triple is left with no active
    record. *)
Lemma upsert_relation_failed_insert (raises : option statement)
    (now : datetime) (r : Relation.t) (rows : list relation_row)
    (old : relation_row) :
  NoDup (map relation_id rows) →
  active_rows r rows = [old] →
  raises ≠ Some Select → raises ≠ Some Update →
  (raises = Some Insert
   ∨ ∃ e, metadata_column (Relation.metadata r) = Raise e) →
  ∃ pre post,
    rows = pre ++ old :: post
    ∧ _upsert_relation raises now r rows
      = (false, pre ++ closed_at now old :: post)
    ∧ active_rows r (pre ++ closed_at now old :: post) = [].
Proof.
  intros Hnd Hactive Hselect Hupdate Hfails.
  destruct (filter_singleton_split _ _ _ Hactive)
    as (pre & post & -> & Hold & Hpre & Hpost).
  exists pre, post. split; [reflexivity|]. split.
  - unfold _upsert_relation.
    rewrite (bool_decide_eq_false_2 _ Hselect).
    rewrite (find_after_inactive _ _ _ _ Hpre Hold).
    rewrite (bool_decide_eq_false_2 _ Hupdate).
    rewrite (set_valid_to_split now pre post old Hnd).
    destruct (metadata_column (Relation.metadata r)) as [metadata|e];
      [|reflexivity].
    destruct Hfails as [->|[e He]]; [reflexivity | discriminate].
  - unfold active_rows. rewrite List.filter_app. cbn [List.filter].
    rewrite closed_not_active, Hpre, Hpost. reflexivity.
Qed.

Example upsert_relation_failed_insert_sample :
  _upsert_relation None 2000000 owned_by_object one_active
  = (false, [closed_at 2000000 first_record])
  ∧ active_rows owned_by_object [closed_at 2000000 first_record] = [].
Proof. split; reflexivity. Qed.

(** C5, as the code has it. Supersession: when the relation given has no
    [valid_to] of its own and its triple has exactly one active record
    [old], [_upsert_relation] returns [True] exactly when its metadata can
    be rendered by [json.dumps] and no statement raises. It has then
    closed [old] at [now], left every other record as it was, and appended
    one record [new]: [new] is the one active record of the triple, and it
    carries the given strength and metadata (an empty metadata dictionary
    being stored as NULL). Otherwise it returns [False]. *)
Theorem upsert_relation_supersedes (raises : option statement)
    (now : datetime) (r : Relation.t) (rows : list relation_row)
    (old : relation_row) :
  NoDup (map relation_id rows) →
  Relation.valid_to r = None →
  active_rows r rows = [old] →
  ∃ pre post,
    rows = pre ++ old :: post
    ∧ match metadata_column (Relation.metadata r), raises with
      | Return metadata, None =>
          ∃ new,
            _upsert_relation raises now r rows
            = (true, pre ++ closed_at now old :: post ++ [new])
            ∧ active_rows r (pre ++ closed_at now old :: post ++ [new])
              = [new]
            ∧ row_valid_to (closed_at now old) = Some now
            ∧ row_strength new = Relation.strength r
            ∧ row_metadata new = metadata
            ∧ relation_id new ∉ map relation_id rows
      | _, _ => (_upsert_relation raises now r rows).1 = false
      end.
Proof.
  intros Hnd Hopen Hactive.
  destruct (filter_singleton_split _ _ _ Hactive)
    as (pre & post & -> & Hold & Hpre & Hpost).
  exists pre, post. split; [reflexivity|].
  unfold _upsert_relation.
  rewrite (find_after_inactive _ _ _ _ Hpre Hold).
  rewrite (set_valid_to_split now pre post old Hnd).
  destruct (metadata_column (Relation.metadata r)) as [metadata|e];
    destruct raises as [[| | |]|];
    repeat case_bool_decide; try discriminate; try congruence;
    try reflexivity.
  fold (new_record now r metadata (pre ++ closed_at now old :: post)).
  rewrite <- app_assoc. cbn [app].
  eexists. split; [reflexivity|].
  split; [|split; [reflexivity|split; [reflexivity|split; [reflexivity|]]]].
  - unfold active_rows.
    rewrite List.filter_app. cbn [List.filter].
    rewrite closed_not_active, List.filter_app, Hpre, Hpost.
    cbn [List.filter app].
    unfold is_active_for at 1;
      cbn [new_record row_source row_relation_type row_target row_valid_to].
    rewrite Hopen, !bool_decide_eq_true_2 by reflexivity.
    reflexivity.
  - cbn [new_record relation_id].
    replace (next_relation_id (pre ++ closed_at now old :: post))
      with (next_relation_id (pre ++ old :: post))
      by (unfold next_relation_id; rewrite !map_app; reflexivity).
    apply next_relation_id_fresh.
Qed.

Lemma upsert_relation_supersedes_witness :
  ∃ pre post,
    one_active = pre ++ first_record :: post
    ∧ ∃ new,
        _upsert_relation None 2000000 (depends_on 0.9 None) one_active
        = (true, pre ++ closed_at 2000000 first_record :: post ++ [new])
        ∧ active_rows (depends_on 0.9 None)
            (pre ++ closed_at 2000000 first_record :: post ++ [new])
          = [new]
        ∧ row_valid_to (closed_at 2000000 first_record) = Some 2000000%Z
        ∧ row_strength new = Relation.strength (depends_on 0.9 None)
        ∧ row_metadata new = None
        ∧ relation_id new ∉ map relation_id one_active.
Proof.
  apply (upsert_relation_supersedes None 2000000 (depends_on 0.9 None)
           one_active first_record).
  - repeat constructor. set_solver.
  - reflexivity.
  - reflexivity.
Defined.

(** An upsert of a relation that carries a [valid_to] of its own, all its
    statements going through, closes the active record and inserts a
    record that is closed as well: the call returns [True] and no active
    record is left. *)
Lemma upsert_relation_closed_relation_counterexample :
  ¬ (∀ (raises : option statement) (now : datetime) (r : Relation.t)
       (rows rows' : list relation_row),
       active_rows r rows ≠ [] →
       _upsert_relation raises now r rows = (true, rows') →
       length (active_rows r rows') = 1%nat).
Proof.
  intros H.
  specialize (H None 2000000%Z (depends_on 0.9 (Some 1500000%Z)) one_active
                [closed_at 2000000 first_record;
                 new_record 2000000 (depends_on 0.9 (Some 1500000%Z)) None
                   [closed_at 2000000 first_record]]).
  assert (Hne : active_rows (depends_on 0.9 (Some 1500000%Z)) one_active
                ≠ []) by (vm_compute; discriminate).
  specialize (H Hne eq_refl). vm_compute in H. discriminate.
Qed.

End Supersession.

Section CreateNodeIdentity.

Lemma insert_or_replace_one (new : nodes.row) (db : list nodes.row) :
  List.filter (has_id (nodes.id new)) (insert_or_replace new db) = [new].
Proof.
  unfold insert_or_replace, has_id. rewrite List.filter_app. simpl.
  rewrite String.eqb_refl.
  replace (List.filter _ (List.filter _ db)) with (@nil nodes.row);
    [reflexivity|].
  induction db as [|row db IH]; simpl; [reflexivity|].
  destruct (String.eqb (nodes.id row) (nodes.id new)) eqn:E; simpl;
    [exact IH | rewrite E; exact IH].
Qed.

Lemma insert_or_replace_others (new : nodes.row) (db : list nodes.row) :
  List.filter (fun row => negb (has_id (nodes.id new) row))
              (insert_or_replace new db)
  = List.filter (fun row => negb (has_id (nodes.id new) row)) db.
Proof.
  unfold insert_or_replace, has_id. rewrite List.filter_app. simpl.
  rewrite String.eqb_refl. simpl. rewrite app_nil_r.
  induction db as [|row db IH]; simpl; [reflexivity|].
  destruct (String.eqb (nodes.id row) (nodes.id new)) eqn:E; simpl;
    [exact IH | rewrite E; simpl; rewrite IH; reflexivity].
Qed.

(** C10. [create_node] is deterministic and idempotent on identity: the
    id it returns is the first 16 characters of the hash of
    [node_type:content], whatever the other arguments and the table are;
    after two calls with the same [node_type] and [content] the table
    holds exactly one row with that id, which carries the second call's
    metadata, importance and validity interval; and the rows with other
    ids are those the table had. *)
Theorem create_node_idempotent_identity
    (sha256_hexdigest : string → string) (now1 now2 : datetime)
    (node_type content : string)
    (metadata1 metadata2 : option (list (string * string)))
    (importance1 importance2 : R)
    (valid_from1 valid_until1 valid_from2 valid_until2 : option string)
    (db : list nodes.row) :
  let first := create_node sha256_hexdigest now1 node_type content
                 metadata1 importance1 valid_from1 valid_until1 db in
  let second := create_node sha256_hexdigest now2 node_type content
                  metadata2 importance2 valid_from2 valid_until2 first.2 in
  let node_id :=
    String.substring 0 16
      (sha256_hexdigest (node_type +:+ ":" +:+ content)) in
  first.1 = node_id
  ∧ second.1 = node_id
  ∧ (∃ row,
       List.filter (has_id node_id) second.2 = [row]
       ∧ nodes.metadata row = default [] metadata2
       ∧ nodes.importance row = importance2
       ∧ nodes.valid_from row = valid_from2
       ∧ nodes.valid_until row = valid_until2)
  ∧ List.filter (fun row => negb (has_id node_id row)) second.2
    = List.filter (fun row => negb (has_id node_id row)) db.
Proof.
  cbv zeta. unfold create_node. cbn [fst snd].
  split; [reflexivity|]. split; [reflexivity|]. split.
  - eexists. split.
    + match goal with
      | |- List.filter _ (insert_or_replace ?new _) = _ =>
          apply (insert_or_replace_one new)
      end.
    + repeat split; reflexivity.
  - match goal with
    | |- List.filter _ (insert_or_replace ?new2
                          (insert_or_replace ?new1 _)) = _ =>
        rewrite (insert_or_replace_others new2);
        apply (insert_or_replace_others new1)
    end.
Qed.

End CreateNodeIdentity.

Section PatternUtility.

Lemma exp_zero_arg (x : R) : x = 0 → exp x = 1.
Proof. intros ->. apply exp_0. Qed.

(** The embedded store's update of the pattern [used_once], used a
    second time with success at the instant of its last use: it stores
    the utility 0.14, while the consolidator scores the stored pattern
    (2 uses, success rate 1, used 0 days ago) at 0.608. *)
Lemma record_pattern_utility_sample :
  ∃ db' row,
    record_pattern 0 "refactor-success" "refactor (success)" "refactor"
      "Consolidated from 1 episodes" true None None
      {["refactor-success" := used_once]}
    = Return ("refactor-success", db')
    ∧ db' !! "refactor-success" = Some row
    ∧ patterns.times_used row = 2%Z
    ∧ patterns.success_rate row = 1
    ∧ patterns.last_used row = Timestamp 0
    ∧ patterns.utility_score row = 0.14
    ∧ calculate_utility_score default_config 0 2 1 0 None = Return 0.608.
Proof.
  unfold record_pattern. rewrite lookup_singleton_eq.
  cbn [patterns.times_used patterns.success_rate patterns.last_used
       used_once Z.add Z.eqb Pos.add Pos.succ].
  eexists _, _. split; [reflexivity|].
  split; [apply lookup_insert_eq|].
  cbn [patterns.times_used patterns.success_rate patterns.last_used
       patterns.utility_score].
  change (1 + 1)%Z with 2%Z.
  split; [reflexivity|]. split; [lra|]. split; [reflexivity|].
  assert (Hrec : _calculate_recency 0 (Timestamp 0) = 1).
  { unfold _calculate_recency, total_seconds.
    change (0 - 0)%Z with 0%Z. apply exp_zero_arg. lra. }
  split.
  - rewrite Hrec. minmax.
  - unfold calculate_utility_score.
    change (days (0 - 0)) with 0%Z. simpl.
    rewrite (exp_zero_arg (- (0.01) * 0)) by lra.
    f_equal. minmax.
Qed.

(** The two code paths do not compute one value: the claim that the
    utility the embedded store writes is the consolidator's score of the
    written pattern fails. *)
Lemma pattern_utility_paths_differ :
  ¬ (∀ (now : datetime) (pattern_id name category description : string)
       (success : bool) (db db' : gmap string patterns.row)
       (row : patterns.row) (last_used : datetime),
       record_pattern now pattern_id name category description success
         None None db = Return (pattern_id, db') →
       db' !! pattern_id = Some row →
       patterns.last_used row = Timestamp last_used →
       calculate_utility_score default_config now
         (patterns.times_used row) (patterns.success_rate row) last_used
         None
       = Return (patterns.utility_score row)).
Proof.
  intros H.
  destruct record_pattern_utility_sample
    as (db' & row & Hrun & Hrow & Ht & Hs & Hl & Hu & Hc).
  specialize (H _ _ _ _ _ _ _ _ _ _ Hrun Hrow Hl).
  rewrite Ht, Hs, Hu, Hc in H. injection H as H. lra.
Qed.

(** C2, as the code has it. The consolidator's scorer returns
    [0.4 min(times_used / 100, 1) + 0.3 success_rate
     + 0.3 exp(-0.01 days)], [days] being the whole days since the last
    use. The embedded store computes another quantity: its update of a
    known pattern stores [min(1, (0.4 n + 0.3 rate + 0.3 recency) / 10)],
    with [n] and [rate] the new use count and success rate and [recency]
    the value [exp(-0.995 hours)] for the hours since the previous last
    use (0.5 when none is recorded or it does not parse); a pattern it
    has not seen before is stored with the utility 0.5. *)
Theorem pattern_utility_scores :
  (∀ (now last_used : datetime) (times_used : Z) (success_rate : R),
     calculate_utility_score default_config now times_used success_rate
       last_used None
     = Return (0.4 * Rmin (IZR times_used / 100) 1
               + 0.3 * success_rate
               + 0.3 * exp (- (0.01 * IZR (days (now - last_used))))))
  ∧ (∀ (now : datetime) (pattern_id name category description : string)
       (success : bool) (key_elements common_tools : option (list string))
       (db : gmap string patterns.row) (existing : patterns.row),
       db !! pattern_id = Some existing →
       (patterns.times_used existing + 1 ≠ 0)%Z →
       ∃ db' row,
         record_pattern now pattern_id name category description success
           key_elements common_tools db = Return (pattern_id, db')
         ∧ db' !! pattern_id = Some row
         ∧ patterns.times_used row = (patterns.times_used existing + 1)%Z
         ∧ patterns.success_rate row
           = (patterns.success_rate existing
              * IZR (patterns.times_used existing)
              + (if success then 1 else 0))
             / IZR (patterns.times_used existing + 1)
         ∧ patterns.utility_score row
           = Rmin 1 ((0.4 * IZR (patterns.times_used row)
                      + 0.3 * patterns.success_rate row
                      + 0.3 * _calculate_recency now
                                (patterns.last_used existing)) / 10))
  ∧ (∀ now accessed : datetime,
       _calculate_recency now (Timestamp accessed)
       = exp (- (0.995 * (total_seconds (now - accessed) / 3600)))
       ∧ _calculate_recency now NoTimestamp = 0.5
       ∧ _calculate_recency now BadTimestamp = 0.5)
  ∧ (∀ (now : datetime) (pattern_id name category description : string)
       (success : bool) (key_elements common_tools : option (list string))
       (db : gmap string patterns.row),
       db !! pattern_id = None →
       ∃ db' row,
         record_pattern now pattern_id name category description success
           key_elements common_tools db = Return (pattern_id, db')
         ∧ db' !! pattern_id = Some row
         ∧ patterns.times_used row = 1%Z
         ∧ patterns.utility_score row = 0.5).
Proof.
  split; [|split; [|split]]; cycle 2.
  - intros now accessed. unfold _calculate_recency.
    split; [f_equal; lra|]. split; reflexivity.
  - intros now pattern_id name category description success key_elements
      common_tools db Hnew.
    unfold record_pattern. rewrite Hnew.
    eexists _, _. split; [reflexivity|].
    split; [apply lookup_insert_eq|]. split; reflexivity.
  - intros now last_used times_used success_rate.
    unfold calculate_utility_score. simpl.
    replace (- (0.01) * IZR (days (now - last_used)))
      with (- (0.01 * IZR (days (now - last_used)))) by lra.
    replace 1.0 with 1 by lra. reflexivity.
  - intros now pattern_id name category description success key_elements
      common_tools db existing Hex Hnz.
    unfold record_pattern. rewrite Hex.
    apply Z.eqb_neq in Hnz. rewrite Hnz.
    eexists _, _. split; [reflexivity|].
    split; [apply lookup_insert_eq|].
    cbn [patterns.times_used patterns.success_rate patterns.utility_score].
    split; [reflexivity|]. split; [reflexivity|].
    f_equal; [lra|]. f_equal. lra.
Qed.

Lemma pattern_utility_scores_witness :
  ∃ db' row,
    record_pattern 0 "refactor-success" "refactor (success)" "refactor"
      "Consolidated from 1 episodes" true None None
      {["refactor-success" := used_once]}
    = Return ("refactor-success", db')
    ∧ db' !! "refactor-success" = Some row
    ∧ patterns.times_used row = (patterns.times_used used_once + 1)%Z
    ∧ patterns.success_rate row
      = (patterns.success_rate used_once
         * IZR (patterns.times_used used_once)
         + (if true then 1 else 0))
        / IZR (patterns.times_used used_once + 1)
    ∧ patterns.utility_score row
      = Rmin 1 ((0.4 * IZR (patterns.times_used row)
                 + 0.3 * patterns.success_rate row
                 + 0.3 * _calculate_recency 0
                           (patterns.last_used used_once)) / 10).
Proof.
  apply (proj1 (proj2 pattern_utility_scores) 0%Z "refactor-success"
           "refactor (success)" "refactor" "Consolidated from 1 episodes"
           true None None {["refactor-success" := used_once]} used_once).
  - apply lookup_singleton_eq.
  - simpl. lia.
Defined.

End PatternUtility.

Section RetryPolicy.

Lemma first_delay : 0.5 * INR (0 + 1) = 0.5.
Proof. simpl. lra. Qed.

Lemma second_delay : 0.5 * INR (1 + 1) = 1.0.
Proof. simpl. lra. Qed.

Lemma retry_loop_step {A : Type} (func : M A) (attempt : nat)
    (rest : list nat) (last : option exn) (w w' : world) (r : result A) :
  func w = Some (r, w') →
  retry_loop 3 0.5 func (attempt :: rest) last w
  = if ends_loop r then Some (r, w')
    else match r with
         | Raise e =>
             retry_loop 3 0.5 func rest (Some e)
               (if (attempt <? 2)%nat
                then after_sleep (0.5 * INR (attempt + 1)) w' else w')
         | Return _ => Some (r, w')
         end.
Proof.
  intros Hf. cbn [retry_loop]. rewrite Hf.
  destruct r as [a|e]; [reflexivity|]. cbn [ends_loop].
  destruct (is_transient e); [|reflexivity]. cbn [negb].
  change (3 - 1)%nat with 2%nat.
  destruct (attempt <? 2)%nat; reflexivity.
Qed.

(** An attempt that returns, or raises anything but a transient error,
    is the wrapper's outcome. *)
Lemma retry_ends_at_first {A : Type} (func : M A) (w w1 : world)
    (r1 : result A) :
  func w = Some (r1, w1) → ends_loop r1 = true →
  retry_on_failure 3 0.5 func w = Some (r1, w1).
Proof.
  intros H1 E1. unfold retry_on_failure. change (seq 0 3) with [0; 1; 2]%nat.
  rewrite (retry_loop_step _ _ _ _ _ _ _ H1), E1. reflexivity.
Qed.

(** On a store that stays down the wrapper makes three attempts and sleeps
    twice. *)
Lemma retry_ping_store_down :
  retry_on_failure 3 0.5 ping store_down
  = Some (Raise ConnectionError,
          {| kv := ∅; clock := 0 + 0.5 + 1.0; slept := [0.5; 1.0];
             faults := [Some ConnectionLost] |}).
Proof.
  unfold retry_on_failure. change (seq 0 3) with [0; 1; 2]%nat.
  rewrite (retry_loop_step ping 0 _ _ store_down
             {| kv := ∅; clock := 0; slept := [];
                faults := [Some ConnectionLost; Some ConnectionLost;
                           Some ConnectionLost] |}
             (Raise redis_ConnectionError)) by reflexivity.
  cbn [ends_loop is_transient isinstance negb orb bool_decide Nat.ltb Nat.leb].
  rewrite first_delay.
  rewrite (retry_loop_step ping 1 _ _ _
             {| kv := ∅; clock := 0 + 0.5; slept := [0.5];
                faults := [Some ConnectionLost; Some ConnectionLost] |}
             (Raise redis_ConnectionError)) by reflexivity.
  cbn [ends_loop is_transient isinstance negb orb bool_decide Nat.ltb Nat.leb].
  rewrite second_delay.
  rewrite (retry_loop_step ping 2 _ _ _
             {| kv := ∅; clock := 0 + 0.5 + 1.0; slept := [0.5; 1.0];
                faults := [Some ConnectionLost] |}
             (Raise redis_ConnectionError)) by reflexivity.
  reflexivity.
Qed.

(** C3, as the code has it. The retry wrapper with its parameters
    [max_retries = 3], [delay = 0.5] makes at most three attempts. An
    attempt that returns, or that raises anything but a redis connection
    or timeout error, ends the call with that outcome, and nothing is
    retried. After a first transient failure the wrapper sleeps 0.5 s and
    tries again; after a second one it sleeps 1.0 s and tries a third
    time; a third transient failure raises [ConnectionError] with no
    further sleep. *)
Theorem retry_on_failure_policy {A : Type} (func : M A) (w : world) :
  (∀ r1 w1,
     func w = Some (r1, w1) → ends_loop r1 = true →
     retry_on_failure 3 0.5 func w = Some (r1, w1))
  ∧ (∀ r1 w1 r2 w2,
       func w = Some (r1, w1) → ends_loop r1 = false →
       func (after_sleep 0.5 w1) = Some (r2, w2) → ends_loop r2 = true →
       retry_on_failure 3 0.5 func w = Some (r2, w2))
  ∧ (∀ r1 w1 r2 w2 r3 w3,
       func w = Some (r1, w1) → ends_loop r1 = false →
       func (after_sleep 0.5 w1) = Some (r2, w2) → ends_loop r2 = false →
       func (after_sleep 1.0 w2) = Some (r3, w3) →
       retry_on_failure 3 0.5 func w
       = Some (if ends_loop r3 then r3 else Raise ConnectionError, w3)).
Proof.
  unfold retry_on_failure. change (seq 0 3) with [0; 1; 2]%nat.
  split; [|split].
  - intros r1 w1 H1 E1. rewrite (retry_loop_step _ _ _ _ _ _ _ H1), E1.
    reflexivity.
  - intros r1 w1 r2 w2 H1 E1 H2 E2.
    rewrite (retry_loop_step _ _ _ _ _ _ _ H1), E1.
    destruct r1 as [a|e1]; [discriminate|].
    cbn [Nat.ltb Nat.leb]. rewrite first_delay.
    rewrite (retry_loop_step _ _ _ _ _ _ _ H2), E2. reflexivity.
  - intros r1 w1 r2 w2 r3 w3 H1 E1 H2 E2 H3.
    rewrite (retry_loop_step _ _ _ _ _ _ _ H1), E1.
    destruct r1 as [a|e1]; [discriminate|].
    cbn [Nat.ltb Nat.leb]. rewrite first_delay.
    rewrite (retry_loop_step _ _ _ _ _ _ _ H2), E2.
    destruct r2 as [a|e2]; [discriminate|].
    cbn [Nat.ltb Nat.leb]. rewrite second_delay.
    rewrite (retry_loop_step _ _ _ _ _ _ _ H3).
    destruct (ends_loop r3) eqn:E3; [reflexivity|].
    destruct r3 as [a|e3]; [discriminate|]. reflexivity.
Qed.

Lemma retry_on_failure_policy_witness :
  retry_on_failure 3 0.5 ping store_down
  = Some (Raise ConnectionError,
          {| kv := ∅; clock := 0 + 0.5 + 1.0; slept := [0.5; 1.0];
             faults := [Some ConnectionLost] |}).
Proof.
  apply (proj2 (proj2 (retry_on_failure_policy ping store_down))
           (Raise redis_ConnectionError)
           {| kv := ∅; clock := 0; slept := [];
              faults := [Some ConnectionLost; Some ConnectionLost;
                         Some ConnectionLost] |}
           (Raise redis_ConnectionError)
           {| kv := ∅; clock := 0 + 0.5; slept := [0.5];
              faults := [Some ConnectionLost; Some ConnectionLost] |}
           (Raise redis_ConnectionError)
           {| kv := ∅; clock := 0 + 0.5 + 1.0; slept := [0.5; 1.0];
              faults := [Some ConnectionLost] |});
    reflexivity.
Defined.

(** The wrapper does not sleep 0.5 s, 1.0 s and 1.5 s before giving up:
    on a store that stays down it gives up after two sleeps. *)
Lemma retry_delays_counterexample :
  ¬ (∀ w w' : world,
       retry_on_failure 3 0.5 ping w = Some (Raise ConnectionError, w') →
       slept w' = slept w ++ [0.5; 1.0; 1.5]).
Proof.
  intros H. specialize (H _ _ retry_ping_store_down).
  discriminate H.
Qed.

(** The decorated operations do not let a transient error reach the
    wrapper: [redis.ConnectionError] and [redis.TimeoutError] derive from
    [redis.RedisError], which the operation's own handler turns into
    [BlackboardError]. A [release_lock] that meets a fault makes one
    attempt, sleeps not at all and raises [BlackboardError]. *)
Lemma release_lock_fault_not_retried (resource_id : string) (f : fault)
    (rest : list (option fault)) (w : world) :
  faults w = Some f :: rest →
  release_lock resource_id w
  = Some (Raise BlackboardError,
          {| kv := kv w; clock := clock w; slept := slept w;
             faults := rest |}).
Proof.
  intros Hf. unfold release_lock.
  apply retry_ends_at_first; [|reflexivity].
  unfold reraise_as, redis_delete, command, mbind, M_bind.
  rewrite Hf. destruct f; reflexivity.
Qed.

End RetryPolicy.

Section LockAcquisition.

(** What one conditional put does. *)
Lemma redis_set_nx_px_cases (key value : string) (px : Z) (w : world) :
  ∃ r w1,
    redis_set_nx_px key value px w = Some (r, w1)
    ∧ clock w1 = clock w ∧ slept w1 = slept w
    ∧ ((∃ f, r = Raise (fault_exn f) ∧ kv w1 = kv w
             ∧ ¬ no_fault (faults w))
       ∨ (r = Return false ∧ kv w1 = kv w
          ∧ (no_fault (faults w) → no_fault (faults w1)))
       ∨ (r = Return true
          ∧ kv w1 = <[key := (value, Some (clock w + IZR px / 1000))]> (kv w)
          ∧ (no_fault (faults w) → no_fault (faults w1)))).
Proof.
  unfold redis_set_nx_px, command, no_fault.
  destruct w as [kv0 clock0 slept0 faults0]; cbn [faults kv clock slept].
  destruct faults0 as [|[f|] rest].
  - destruct (live _ key); eexists _, _; (split; [reflexivity|]); cbn;
      (split; [reflexivity|]); (split; [reflexivity|]); auto.
  - eexists _, _. split; [reflexivity|]. cbn.
    split; [reflexivity|]. split; [reflexivity|]. left. exists f.
    split; [reflexivity|]. split; [reflexivity|].
    intros H. inversion H; discriminate.
  - unfold live; cbn [faults kv clock slept].
    destruct (kv0 !! key) as [[v [e|]]|];
      [destruct (Rlt_dec clock0 e)| |];
      eexists _, _; (split; [reflexivity|]); cbn;
      (split; [reflexivity|]); (split; [reflexivity|]);
      right; [left|right|left|right];
      (split; [reflexivity|]); (split; [reflexivity|]);
      intros H; inversion H; assumption.
Qed.

Lemma poll_step (fuel : nat) (key : string) (ttl : Z)
    (bt start wait : R) (w : world) :
  poll (S fuel) key ttl bt start wait w
  = match redis_set_nx_px key "1" ttl w with
    | Some (Return true, w1) => Some (Return true, w1)
    | Some (Return false, w1) =>
        if Rge_dec (clock w1 - start) bt
        then Some (Raise LockAcquisitionError, w1)
        else poll fuel key ttl bt start (wait * 2)
                  (after_sleep (Rmin wait 1.0) w1)
    | Some (Raise e, w1) => Some (Raise e, w1)
    | None => None
    end.
Proof.
  cbn [poll]. unfold mbind at 1, M_bind at 1.
  destruct (redis_set_nx_px key "1" ttl w) as [[[[|]|e] w1]|];
    try reflexivity.
  unfold mbind, M_bind, time_time, raise.
  destruct (Rge_dec (clock w1 - start) bt); reflexivity.
Qed.

Lemma seq_backoff_cons (k n : nat) :
  backoff k :: map backoff (seq (S k) n) = map backoff (seq k (S n)).
Proof. reflexivity. Qed.

(** A finished poll slept the backoff sequence, and wrote the marker
    only if it acquired the lock. *)
Lemma poll_outcome (fuel : nat) (key : string) (ttl : Z) (bt start : R) :
  ∀ (k : nat) (w : world) (r : result bool) (w' : world),
    poll fuel key ttl bt start (0.01 * 2 ^ k) w = Some (r, w') →
    ∃ n,
      slept w' = slept w ++ map backoff (seq k n)
      ∧ match r with
        | Return acquired =>
            acquired = true
            ∧ kv w' = <[key := ("1", Some (clock w' + IZR ttl / 1000))]> (kv w)
        | Raise e =>
            kv w' = kv w
            ∧ (e = LockAcquisitionError ∧ clock w' - start >= bt
               ∧ (clock w' = clock w ∨ clock w' - start < bt + 1)
               ∨ (∃ f, e = fault_exn f) ∧ ¬ no_fault (faults w))
        end.
Proof.
  induction fuel as [|fuel IH]; intros k w r w' Hrun; [discriminate|].
  rewrite poll_step in Hrun.
  destruct (redis_set_nx_px_cases key "1" ttl w)
    as (r1 & w1 & Hset & Hclock & Hslept & Hcases).
  rewrite Hset in Hrun.
  destruct Hcases as [(f & -> & Hkv & Hf)|[(-> & Hkv & Hf)|(-> & Hkv & Hf)]].
  - injection Hrun as <- <-. exists 0%nat. rewrite Hslept, app_nil_r.
    split; [reflexivity|]. split; [assumption|]. right. eauto.
  - destruct (Rge_dec (clock w1 - start) bt) as [Hge|Hlt].
    + injection Hrun as <- <-. exists 0%nat. rewrite Hslept, app_nil_r.
      split; [reflexivity|]. split; [assumption|]. left. auto.
    + replace (0.01 * 2 ^ k * 2) with (0.01 * 2 ^ S k) in Hrun
        by (simpl; lra).
      apply IH in Hrun as (n & Hs & Hr). exists (S n).
      rewrite <- seq_backoff_cons. split.
      * rewrite Hs. cbn [after_sleep slept]. rewrite Hslept, <- app_assoc.
        reflexivity.
      * cbn [after_sleep kv faults] in Hr. rewrite Hkv in Hr.
        destruct r as [acquired|e]; [exact Hr|].
        destruct Hr as [Hk [(He & Ht & Hlate)|[Hx Hnf]]]; (split; [exact Hk|]);
          [left | right; split; [exact Hx|]].
        -- split; [exact He|]. split; [exact Ht|]. right.
           cbn [after_sleep clock] in Hlate.
           assert (Rmin (0.01 * 2 ^ k) 1.0 <= 1) by minmax.
           destruct Hlate as [Hlate|Hlate]; lra.
        -- intros Hno. apply Hnf, Hf, Hno.
  - injection Hrun as <- <-. exists 0%nat. rewrite Hslept, app_nil_r.
    split; [reflexivity|]. split; [reflexivity|].
    rewrite Hkv, Hclock. reflexivity.
Qed.

(** Each wait is at least 10 ms, so a poll given [n + 1] rounds comes to
    an end once [n] waits cover the blocking timeout. *)
Lemma poll_terminates (fuel : nat) (key : string) (ttl : Z) (bt start : R) :
  ∀ (wait : R) (w : world),
    0.01 <= wait →
    bt <= clock w - start + 0.01 * INR fuel →
    ∃ r w', poll (S fuel) key ttl bt start wait w = Some (r, w').
Proof.
  induction fuel as [|fuel IH]; intros wait w Hwait Hbt;
    rewrite poll_step;
    destruct (redis_set_nx_px_cases key "1" ttl w)
      as (r1 & w1 & -> & Hclock & _ & Hcases);
    destruct Hcases as [(f & -> & _)|[(-> & _)|(-> & _)]]; eauto;
    destruct (Rge_dec (clock w1 - start) bt) as [Hge|Hlt]; eauto.
  - exfalso. simpl in Hbt. rewrite Hclock in Hlt. lra.
  - apply IH; [lra|]. cbn [after_sleep clock].
    rewrite S_INR in Hbt. rewrite Hclock.
    assert (0.01 <= Rmin wait 1.0) by minmax. lra.
Qed.

Lemma nat_above (x : R) : ∃ n : nat, x <= INR n.
Proof.
  destruct (Rle_dec x 0) as [Hle|Hgt].
  - exists 0%nat. simpl. lra.
  - destruct (archimed x) as [Hup _]. exists (Z.to_nat (up x)).
    rewrite INR_IZR_INZ, Z2Nat.id; [lra|].
    apply le_IZR. lra.
Qed.

Lemma acquire_lock_once (fuel : nat) (resource_id : string) (ttl : Z)
    (bt : R) (w : world) (r : result bool) (w' : world) :
  poll fuel (_make_lock_key resource_id) ttl bt (clock w) 0.01 w
  = Some (r, w') →
  (∀ f, r ≠ Raise (fault_exn f)) →
  acquire_lock fuel resource_id ttl true bt w = Some (r, w').
Proof.
  intros Hpoll Hr. unfold acquire_lock.
  assert (Hbody : acquire_lock_body fuel resource_id ttl true bt w
                  = Some (r, w')).
  { unfold acquire_lock_body, reraise_as, mbind, M_bind, time_time.
    rewrite Hpoll. destruct r as [a|e]; [reflexivity|].
    destruct e; try reflexivity;
      [exfalso; apply (Hr CommandRefused)
      |exfalso; apply (Hr ConnectionLost)
      |exfalso; apply (Hr TimedOut)]; reflexivity. }
  apply (retry_ends_at_first _ _ _ _ Hbody).
  destruct r as [a|e]; [reflexivity|].
  destruct e; try reflexivity;
    [exfalso; apply (Hr ConnectionLost)
    |exfalso; apply (Hr TimedOut)]; reflexivity.
Qed.

Lemma acquire_lock_fault (fuel : nat) (resource_id : string) (ttl : Z)
    (bt : R) (w : world) (f : fault) (w' : world) :
  poll fuel (_make_lock_key resource_id) ttl bt (clock w) 0.01 w
  = Some (Raise (fault_exn f), w') →
  acquire_lock fuel resource_id ttl true bt w
  = Some (Raise BlackboardError, w').
Proof.
  intros Hpoll. unfold acquire_lock.
  apply retry_ends_at_first; [|reflexivity].
  unfold acquire_lock_body, reraise_as, mbind, M_bind, time_time.
  rewrite Hpoll. destruct f; reflexivity.
Qed.

Lemma poll_enough (w : world) (key : string) (ttl : Z) (bt : R) :
  ∃ enough : nat, ∀ fuel : nat, (enough <= fuel)%nat →
    ∃ r w', poll fuel key ttl bt (clock w) 0.01 w = Some (r, w').
Proof.
  destruct (nat_above (bt / 0.01)) as [n Hn].
  exists (S n). intros fuel Hfuel.
  destruct fuel as [|fuel]; [lia|].
  apply poll_terminates; [lra|].
  assert (INR n <= INR fuel) by (apply le_INR; lia).
  assert (bt = bt / 0.01 * 0.01) by (field; lra).
  nra.
Qed.

(** A conditional put on a key that is held fails and changes nothing
    but the list of coming faults. *)
Lemma redis_set_nx_px_held (key value v : string) (px : Z) (e : R)
    (w : world) :
  kv w !! key = Some (v, Some e) → clock w < e → no_fault (faults w) →
  ∃ w1, redis_set_nx_px key value px w = Some (Return false, w1)
        ∧ kv w1 = kv w ∧ clock w1 = clock w ∧ no_fault (faults w1).
Proof.
  intros Hkey Hlive Hnf. unfold redis_set_nx_px, command, no_fault in *.
  destruct w as [kv0 clock0 slept0 faults0]; cbn [faults kv clock] in *.
  destruct faults0 as [|[f|] rest].
  - unfold live; cbn [kv clock]. rewrite Hkey.
    destruct (Rlt_dec clock0 e); [|contradiction].
    eexists. split; [reflexivity|]. cbn. auto.
  - inversion Hnf; discriminate.
  - unfold live; cbn [kv clock]. rewrite Hkey.
    destruct (Rlt_dec clock0 e); [|contradiction].
    eexists. split; [reflexivity|]. cbn.
    inversion Hnf; auto.
Qed.

(** While another holder's marker stays live, a poll that ends ends in
    [LockAcquisitionError]. *)
Lemma poll_times_out (fuel : nat) (key v : string) (ttl : Z)
    (bt start e : R) :
  start + bt + 1 <= e →
  ∀ (wait : R) (w : world) (r : result bool) (w' : world),
    kv w !! key = Some (v, Some e) → clock w < e → no_fault (faults w) →
    poll fuel key ttl bt start wait w = Some (r, w') →
    r = Raise LockAcquisitionError.
Proof.
  intros He. induction fuel as [|fuel IH];
    intros wait w r w' Hkey Hlive Hnf Hrun; [discriminate|].
  rewrite poll_step in Hrun.
  destruct (redis_set_nx_px_held key "1" v ttl e w Hkey Hlive Hnf)
    as (w1 & Hset & Hkv & Hclock & Hnf1).
  rewrite Hset in Hrun.
  destruct (Rge_dec (clock w1 - start) bt) as [Hge|Hlt].
  - injection Hrun as <- _. reflexivity.
  - apply IH in Hrun; [exact Hrun| | |exact Hnf1].
    + cbn [after_sleep kv]. rewrite Hkv. exact Hkey.
    + cbn [after_sleep clock].
      assert (Rmin wait 1.0 <= 1) by minmax. lra.
Qed.

(** The timeout does occur: held by another until after the timeout has
    passed, and with a store that answers, the lock is refused with
    [LockAcquisitionError], the keys being left as they were. *)
Lemma acquire_lock_held_times_out (w : world) (resource_id v : string)
    (timeout_ms : Z) (blocking_timeout e : R) :
  kv w !! _make_lock_key resource_id = Some (v, Some e) →
  clock w < e → clock w + blocking_timeout + 1 <= e →
  no_fault (faults w) →
  ∃ enough : nat, ∀ fuel : nat, (enough <= fuel)%nat →
    ∃ w',
      acquire_lock fuel resource_id timeout_ms true blocking_timeout w
      = Some (Raise LockAcquisitionError, w')
      ∧ kv w' = kv w.
Proof.
  intros Hkey Hlive He Hnf.
  destruct (poll_enough w (_make_lock_key resource_id) timeout_ms
              blocking_timeout) as [enough Henough].
  exists enough. intros fuel Hfuel.
  destruct (Henough fuel Hfuel) as (r & w' & Hpoll).
  pose proof (poll_times_out _ _ _ _ _ _ _ He _ _ _ _ Hkey Hlive Hnf Hpoll)
    as ->.
  exists w'. split.
  - apply acquire_lock_once; [exact Hpoll|].
    intros f; destruct f; discriminate.
  - assert (Hwait : 0.01 = 0.01 * 2 ^ 0) by (simpl; lra).
    rewrite Hwait in Hpoll.
    apply poll_outcome in Hpoll as (k & _ & Hkv & _). exact Hkv.
Qed.

Example acquire_lock_held_sample :
  ∃ enough : nat, ∀ fuel : nat, (enough <= fuel)%nat →
    ∃ w',
      acquire_lock fuel "r" 5000 true 2 held_by_other
      = Some (Raise LockAcquisitionError, w')
      ∧ kv w' = kv held_by_other.
Proof.
  apply (acquire_lock_held_times_out held_by_other "r" "1" 5000 2 100).
  - apply lookup_singleton_eq.
  - simpl. lra.
  - simpl. lra.
  - constructor.
Qed.

(** What one conditional put of the lock marker does, on any store. *)
Lemma redis_set_nx_px_step (key : string) (px : Z) (w : world) :
  redis_set_nx_px key "1" px w
  = Some (match faults w with
          | Some f :: _ => (Raise (fault_exn f), answered w)
          | _ =>
              match live w key with
              | None => (Return true, marked key px w)
              | Some _ => (Return false, answered w)
              end
          end).
Proof.
  unfold redis_set_nx_px, command, answered, marked.
  destruct w as [kv0 clock0 slept0 faults0]; cbn [faults kv clock slept].
  destruct faults0 as [|[f|] rest]; cbn [tail]; try reflexivity;
    unfold live; cbn [kv clock];
    destruct (kv0 !! key) as [[v [e|]]|];
    try destruct (Rlt_dec clock0 e); reflexivity.
Qed.

Lemma attempts_from_shift (first k : nat) (w : world) :
  attempts_from (S first) k (after_sleep (Rmin (0.01 * 2 ^ first) 1.0)
                                         (answered w))
  = attempts_from first (S k) w.
Proof.
  unfold attempts_from, after_retries, after_sleep, answered;
    cbn [kv clock slept faults].
  f_equal.
  - rewrite <- app_assoc. reflexivity.
  - destruct (faults w); cbn [tail]; [destruct k|]; reflexivity.
Qed.

Lemma live_first_attempt (first : nat) (w : world) (key : string) :
  live (attempts_from first 0 w) key = live w key.
Proof. reflexivity. Qed.

Lemma faults_first_attempt (first : nat) (w : world) :
  faults (attempts_from first 0 w) = faults w.
Proof. reflexivity. Qed.

Lemma meets_fault_head (fs : list (option fault)) :
  meets_fault 1 fs
  = match fs with Some _ :: _ => true | _ => false end.
Proof. destruct fs as [|[f|] rest]; reflexivity. Qed.

(** The attempts of a finished poll, one by one: every attempt but the
    last went through, found the marker live and the blocking timeout not
    yet reached, and was followed by its wait; the last attempt decides
    the outcome. *)
Lemma poll_attempts (fuel : nat) (key : string) (ttl : Z) (bt start : R) :
  ∀ (first : nat) (w : world) (r : result bool) (w' : world),
    poll fuel key ttl bt start (0.01 * 2 ^ first) w = Some (r, w') →
    ∃ n,
      (∀ k, (k < n)%nat →
         meets_fault 1 (faults (attempts_from first k w)) = false
         ∧ is_Some (live (attempts_from first k w) key)
         ∧ clock (attempts_from first k w) - start < bt)
      ∧ clock w' = clock (attempts_from first n w)
      ∧ slept w' = slept (attempts_from first n w)
      ∧ faults w' = tail (faults (attempts_from first n w))
      ∧ match r with
        | Return acquired =>
            meets_fault 1 (faults (attempts_from first n w)) = false
            ∧ live (attempts_from first n w) key = None
        | Raise e =>
            if meets_fault 1 (faults (attempts_from first n w))
            then ∃ f, e = fault_exn f
            else e = LockAcquisitionError
                 ∧ is_Some (live (attempts_from first n w) key)
        end.
Proof.
  induction fuel as [|fuel IH]; intros first w r w' Hrun; [discriminate|].
  rewrite poll_step, redis_set_nx_px_step in Hrun.
  destruct (faults w) as [|[f|] rest] eqn:Hfaults.
  - destruct (live w key) as [v|] eqn:Hlive.
    + destruct (Rge_dec (clock (answered w) - start) bt) as [Hge|Hlt].
      * injection Hrun as <- <-. exists 0%nat.
        split; [intros k Hk; lia|].
        split; [reflexivity|]. split; [symmetry; apply app_nil_r|].
        split; [reflexivity|].
        rewrite faults_first_attempt, Hfaults, live_first_attempt, Hlive,
          meets_fault_head. eauto.
      * replace (0.01 * 2 ^ first * 2) with (0.01 * 2 ^ S first) in Hrun
          by (simpl; lra).
        apply IH in Hrun as (n & Hbefore & Hclock & Hslept & Hrest & Hlast).
        rewrite attempts_from_shift in Hclock, Hslept, Hrest, Hlast.
        exists (S n). split; [|auto].
        intros [|k] Hk.
        -- rewrite faults_first_attempt, Hfaults, live_first_attempt, Hlive,
             meets_fault_head.
           split; [reflexivity|]. split; [eauto|].
           change (clock (attempts_from first 0 w)) with (clock w).
           cbn [answered clock] in Hlt. lra.
        -- rewrite <- attempts_from_shift. apply Hbefore. lia.
    + injection Hrun as <- <-. exists 0%nat.
      split; [intros k Hk; lia|].
      split; [reflexivity|]. split; [symmetry; apply app_nil_r|].
      split; [reflexivity|].
      rewrite faults_first_attempt, Hfaults, live_first_attempt, Hlive,
        meets_fault_head. auto.
  - injection Hrun as <- <-. exists 0%nat.
    split; [intros k Hk; lia|].
    split; [reflexivity|]. split; [symmetry; apply app_nil_r|].
    split; [reflexivity|].
    rewrite faults_first_attempt, Hfaults, meets_fault_head. eauto.
  - destruct (live w key) as [v|] eqn:Hlive.
    + destruct (Rge_dec (clock (answered w) - start) bt) as [Hge|Hlt].
      * injection Hrun as <- <-. exists 0%nat.
        split; [intros k Hk; lia|].
        split; [reflexivity|]. split; [symmetry; apply app_nil_r|].
        split; [reflexivity|].
        rewrite faults_first_attempt, Hfaults, live_first_attempt, Hlive,
          meets_fault_head. eauto.
      * replace (0.01 * 2 ^ first * 2) with (0.01 * 2 ^ S first) in Hrun
          by (simpl; lra).
        apply IH in Hrun as (n & Hbefore & Hclock & Hslept & Hrest & Hlast).
        rewrite attempts_from_shift in Hclock, Hslept, Hrest, Hlast.
        exists (S n). split; [|auto].
        intros [|k] Hk.
        -- rewrite faults_first_attempt, Hfaults, live_first_attempt, Hlive,
             meets_fault_head.
           split; [reflexivity|]. split; [eauto|].
           change (clock (attempts_from first 0 w)) with (clock w).
           cbn [answered clock] in Hlt. lra.
        -- rewrite <- attempts_from_shift. apply Hbefore. lia.
    + injection Hrun as <- <-. exists 0%nat.
      split; [intros k Hk; lia|].
      split; [reflexivity|]. split; [symmetry; apply app_nil_r|].
      split; [reflexivity|].
      rewrite faults_first_attempt, Hfaults, live_first_attempt, Hlive,
        meets_fault_head. auto.
Qed.

(** C4. Blocking lock acquisition. Given rounds enough, a blocking
    [acquire_lock] comes to an end after some number [n] of waits, which
    are 10 ms, 20 ms, 40 ms, ... capped at 1 s. It polls: it sends one
    conditional put of the marker per attempt ([n + 1] store commands in
    all, the clock moving by the waits only), and each of the first [n]
    attempts went through, found a live marker set for the resource and
    the blocking timeout not yet reached, and was followed by its wait. The
    last attempt decides the outcome, in one of three ways: it finds no
    live marker, and the call returns [True] with its own marker written;
    it finds the marker still live and the blocking timeout reached (by
    less than a second, unless the first attempt already found it
    reached), and the call raises [LockAcquisitionError] with the store's
    keys as they were (no marker of the caller's); or it meets a store
    fault, and the call raises [BlackboardError], the keys again as they
    were. *)
Theorem acquire_lock_blocking_backoff (w : world) (resource_id : string)
    (timeout_ms : Z) (blocking_timeout : R) :
  ∃ enough : nat, ∀ fuel : nat, (enough <= fuel)%nat →
    ∃ r w' n,
      acquire_lock fuel resource_id timeout_ms true blocking_timeout w
      = Some (r, w')
      ∧ slept w'
        = slept w ++ map (fun k => Rmin (0.01 * 2 ^ k) 1.0) (seq 0 n)
      ∧ clock w' = clock (at_attempt n w)
      ∧ faults w' = drop (S n) (faults w)
      ∧ (∀ k, (k < n)%nat →
           meets_fault 1 (faults (at_attempt k w)) = false
           ∧ is_Some (live (at_attempt k w) (_make_lock_key resource_id))
           ∧ clock (at_attempt k w) - clock w < blocking_timeout)
      ∧ match r with
        | Return acquired =>
            acquired = true
            ∧ meets_fault 1 (faults (at_attempt n w)) = false
            ∧ live (at_attempt n w) (_make_lock_key resource_id) = None
            ∧ kv w'
              = <[_make_lock_key resource_id
                  := ("1", Some (clock w' + IZR timeout_ms / 1000))]> (kv w)
        | Raise e =>
            kv w' = kv w
            ∧ (e = LockAcquisitionError
               ∧ meets_fault 1 (faults (at_attempt n w)) = false
               ∧ is_Some (live (at_attempt n w) (_make_lock_key resource_id))
               ∧ clock w' - clock w >= blocking_timeout
               ∧ (clock w' = clock w
                  ∨ clock w' - clock w < blocking_timeout + 1)
               ∨ e = BlackboardError
                 ∧ meets_fault 1 (faults (at_attempt n w)) = true
                 ∧ ¬ Forall (fun f => f = None) (faults w))
        end.
Proof.
  destruct (poll_enough w (_make_lock_key resource_id) timeout_ms
              blocking_timeout) as [enough Henough].
  exists enough. intros fuel Hfuel.
  destruct (Henough fuel Hfuel) as (r & w' & Hpoll).
  pose proof Hpoll as Hout.
  assert (Hwait : 0.01 = 0.01 * 2 ^ 0) by (simpl; lra).
  rewrite Hwait in Hout.
  pose proof Hout as Hatt.
  apply poll_outcome in Hout as (k & Hslept & Hr).
  apply poll_attempts in Hatt
    as (n & Hbefore & Hclock & Hwaits & Hrest & Hlast).
  assert (k = n) as ->.
  { unfold attempts_from, after_retries in Hwaits; cbn [slept] in Hwaits.
    rewrite Hslept in Hwaits. apply app_inv_head in Hwaits.
    apply (f_equal length) in Hwaits.
    rewrite !length_map, !length_seq in Hwaits. exact Hwaits. }
  assert (Hdrop : faults w' = drop (S n) (faults w)).
  { rewrite Hrest. unfold attempts_from, after_retries; cbn [faults].
    destruct (drop n (faults w)) as [|f rest] eqn:Hd; cbn [tail].
    - symmetry. apply drop_ge. apply drop_nil_inv in Hd. lia.
    - rewrite <- (Nat.add_1_l n), Nat.add_comm, <- drop_drop, Hd.
      reflexivity. }
  destruct r as [acquired|e].
  - exists (Return acquired), w', n.
    split; [apply acquire_lock_once; [exact Hpoll | discriminate]|].
    split; [exact Hslept|]. split; [exact Hclock|]. split; [exact Hdrop|].
    split; [exact Hbefore|].
    destruct Hr as [Hacq Hkv], Hlast as [Hmf Hlive]. auto.
  - destruct Hr as [Hkv [(-> & Ht)|[[f ->] Hnf]]].
    + exists (Raise LockAcquisitionError), w', n.
      split; [apply acquire_lock_once;
              [exact Hpoll | intros f; destruct f; discriminate]|].
      split; [exact Hslept|]. split; [exact Hclock|]. split; [exact Hdrop|].
      split; [exact Hbefore|]. split; [exact Hkv|]. left.
      fold (at_attempt n w) in Hlast.
      destruct (meets_fault 1 (faults (at_attempt n w))).
      * destruct Hlast as [f Hf]. destruct f; discriminate.
      * destruct Hlast as [_ Hlive]. destruct Ht as [Ht Hlate]. auto.
    + exists (Raise BlackboardError), w', n.
      split; [apply (acquire_lock_fault _ _ _ _ _ f), Hpoll|].
      split; [exact Hslept|]. split; [exact Hclock|]. split; [exact Hdrop|].
      split; [exact Hbefore|]. split; [exact Hkv|]. right.
      fold (at_attempt n w) in Hlast.
      destruct (meets_fault 1 (faults (at_attempt n w))).
      * auto.
      * destruct Hlast as [Hf _]. destruct f; discriminate.
Qed.
End LockAcquisition.

Section PatternMatching.

Lemma contains_star (s : string) :
  Consolidation.contains "*" s = negb (star_free s).
Proof.
  unfold Consolidation.contains.
  induction s as [|c s IH]; [reflexivity|].
  cbn [String.index String.prefix star_free].
  destruct (ascii_dec "*" c) as [<-|Hne].
  - destruct s; reflexivity.
  - assert (E : Ascii.eqb c "*" = false)
      by (apply Ascii.eqb_neq; congruence).
    rewrite E. cbn [negb andb].
    destruct (String.index 0 "*" s); exact IH.
Qed.

Lemma before_star_app (pre post : string) :
  star_free pre = true → before_star (pre +:+ "*" +:+ post) = pre.
Proof.
  induction pre as [|c pre IH]; intros H; [reflexivity|].
  cbn [star_free] in H. apply andb_prop in H as [Hc Hpre].
  apply negb_true_iff in Hc.
  change (String c pre +:+ "*" +:+ post)
    with (String c (pre +:+ "*" +:+ post)).
  cbn [before_star]. rewrite Hc, (IH Hpre). reflexivity.
Qed.

Lemma star_free_app (pre post : string) :
  star_free (pre +:+ "*" +:+ post) = false.
Proof.
  induction pre as [|c pre IH]; [reflexivity|].
  change (String c pre +:+ "*" +:+ post)
    with (String c (pre +:+ "*" +:+ post)).
  cbn [star_free]. rewrite IH. apply andb_false_r.
Qed.

Lemma prefix_app (pre key : string) :
  String.prefix pre key = true ↔ ∃ rest, key = pre +:+ rest.
Proof.
  revert key. induction pre as [|c pre IH]; intros key.
  - split; [intros _; exists key; reflexivity|].
    intros _. destruct key; reflexivity.
  - destruct key as [|k key]; cbn [String.prefix].
    + split; [discriminate | intros [rest H]; discriminate H].
    + destruct (ascii_dec c k) as [->|Hne].
      * rewrite IH. split; intros [rest H]; exists rest.
        -- rewrite H. reflexivity.
        -- injection H as H. exact H.
      * split; [discriminate|]. intros [rest H]. injection H as H _.
        congruence.
Qed.

(** X1. [_matches_pattern] is a prefix test, not a glob match. For a
    pattern with a ['*'] in it, only the text before the first ['*']
    counts: the key matches exactly when it starts with that text,
    whatever follows the ['*'] in the pattern. A pattern with no ['*']
    matches the key equal to it and no other. *)
Theorem matches_pattern_prefix_only (key pattern : string) :
  (∀ pre post : string,
     pattern = pre +:+ "*" +:+ post → star_free pre = true →
     (_matches_pattern key pattern = true ↔ ∃ rest, key = pre +:+ rest))
  ∧ (star_free pattern = true →
     (_matches_pattern key pattern = true ↔ key = pattern)).
Proof.
  split.
  - intros pre post -> Hpre. unfold _matches_pattern.
    rewrite contains_star, star_free_app, before_star_app by exact Hpre.
    cbn [negb].
    destruct (String.eqb (pre +:+ "*" +:+ post) "*") eqn:E;
      [|apply prefix_app].
    apply String.eqb_eq in E.
    destruct pre as [|c pre].
    + split; [intros _; exists key; reflexivity | reflexivity].
    + destruct pre; discriminate E.
  - intros Hfree. unfold _matches_pattern.
    rewrite contains_star, Hfree. cbn [negb].
    destruct (String.eqb pattern "*") eqn:E.
    + apply String.eqb_eq in E. subst pattern. discriminate Hfree.
    + apply String.eqb_eq.
Qed.

Lemma matches_pattern_prefix_only_witness :
  _matches_pattern "agent:1:code" "agent:*:plan" = true
  ∧ (_matches_pattern "agent:1" "agent:2" = true ↔ "agent:1" = "agent:2").
Proof.
  split.
  - apply (proj1 (matches_pattern_prefix_only "agent:1:code" "agent:*:plan")
             "agent:" ":plan" eq_refl eq_refl).
    exists "1:code". reflexivity.
  - apply (proj2 (matches_pattern_prefix_only "agent:1" "agent:2")).
    reflexivity.
Defined.

End PatternMatching.

Section LockProtocol.

Lemma no_fault_tail (fs : list (option fault)) :
  no_fault fs → no_fault (tail fs).
Proof. intros H. destruct H; [constructor | assumption]. Qed.

(** A command on a store that answers runs, and uses up one entry of the
    coming faults. *)
Lemma command_no_fault {A : Type} (run : world → A * world) (w : world) :
  no_fault (faults w) →
  command run w = Some (Return (run (refused (tail (faults w)) w)).1,
                        (run (refused (tail (faults w)) w)).2).
Proof.
  intros Hnf. unfold command, refused.
  destruct w as [kv0 clock0 slept0 faults0]; cbn [faults kv clock slept] in *.
  destruct faults0 as [|[f|] rest]; cbn [tail].
  - destruct (run _); reflexivity.
  - inversion Hnf; discriminate.
  - destruct (run _); reflexivity.
Qed.

Lemma command_fault {A : Type} (run : world → A * world) (w : world)
    (f : fault) (rest : list (option fault)) :
  faults w = Some f :: rest →
  command run w = Some (Raise (fault_exn f), refused rest w).
Proof. intros Hf. unfold command. rewrite Hf. reflexivity. Qed.

Lemma redis_set_nx_px_run (key : string) (px : Z) (w : world) :
  no_fault (faults w) →
  redis_set_nx_px key "1" px w
  = Some (match live w key with
          | None => (Return true, marked key px w)
          | Some _ => (Return false, answered w)
          end).
Proof.
  intros Hnf. unfold redis_set_nx_px. rewrite command_no_fault by exact Hnf.
  unfold live, refused, marked, answered; cbn [kv clock slept faults].
  destruct (kv w !! key) as [[v [e|]]|];
    [destruct (Rlt_dec (clock w) e)| |]; reflexivity.
Qed.

Lemma redis_delete_run (key : string) (w : world) :
  no_fault (faults w) →
  redis_delete key w
  = Some (Return (match live w key with Some _ => 1%nat | None => 0%nat end),
          removed key w).
Proof.
  intros Hnf. unfold redis_delete. rewrite command_no_fault by exact Hnf.
  unfold live, refused, removed; cbn [kv clock slept faults].
  destruct (kv w !! key) as [[v [e|]]|];
    [destruct (Rlt_dec (clock w) e)| |]; reflexivity.
Qed.

Lemma acquire_lock_nonblocking_run (fuel : nat) (resource_id : string)
    (timeout_ms : Z) (blocking_timeout : R) (w : world) :
  no_fault (faults w) →
  acquire_lock fuel resource_id timeout_ms false blocking_timeout w
  = Some (match live w (_make_lock_key resource_id) with
          | None =>
              (Return true, marked (_make_lock_key resource_id) timeout_ms w)
          | Some _ => (Return false, answered w)
          end).
Proof.
  intros Hnf. unfold acquire_lock.
  destruct (live w (_make_lock_key resource_id)) as [v|] eqn:Hlive;
    (apply retry_ends_at_first; [|reflexivity]);
    unfold acquire_lock_body, reraise_as, mbind, M_bind;
    rewrite redis_set_nx_px_run, Hlive by exact Hnf; reflexivity.
Qed.

Lemma acquire_lock_nonblocking_fault (fuel : nat) (resource_id : string)
    (timeout_ms : Z) (blocking_timeout : R) (w : world) (f : fault)
    (rest : list (option fault)) :
  faults w = Some f :: rest →
  acquire_lock fuel resource_id timeout_ms false blocking_timeout w
  = Some (Raise BlackboardError, refused rest w).
Proof.
  intros Hf. unfold acquire_lock.
  apply retry_ends_at_first; [|reflexivity].
  unfold acquire_lock_body, reraise_as, mbind, M_bind, redis_set_nx_px.
  rewrite (command_fault _ _ _ _ Hf). destruct f; reflexivity.
Qed.

Lemma acquire_lock_blocking_free (fuel : nat) (resource_id : string)
    (timeout_ms : Z) (blocking_timeout : R) (w : world) :
  no_fault (faults w) → live w (_make_lock_key resource_id) = None →
  acquire_lock (S fuel) resource_id timeout_ms true blocking_timeout w
  = Some (Return true, marked (_make_lock_key resource_id) timeout_ms w).
Proof.
  intros Hnf Hlive. apply acquire_lock_once; [|discriminate].
  rewrite poll_step, redis_set_nx_px_run, Hlive by exact Hnf. reflexivity.
Qed.

Lemma release_lock_run (resource_id : string) (w : world) :
  no_fault (faults w) →
  release_lock resource_id w
  = Some (Return (bool_decide (is_Some (live w (_make_lock_key resource_id)))),
          removed (_make_lock_key resource_id) w).
Proof.
  intros Hnf. unfold release_lock.
  apply retry_ends_at_first; [|reflexivity].
  unfold reraise_as, mbind, M_bind.
  rewrite redis_delete_run by exact Hnf.
  destruct (live w (_make_lock_key resource_id)); reflexivity.
Qed.

Lemma live_removed (key : string) (w : world) :
  live (removed key w) key = None.
Proof.
  unfold live, removed; cbn [kv]. rewrite lookup_delete_eq. reflexivity.
Qed.

Lemma held_by_other_live :
  live held_by_other (_make_lock_key "r") = Some "1".
Proof.
  unfold live, held_by_other, _make_lock_key; cbn [kv clock].
  change (LOCK_PREFIX +:+ "r") with "bb:lock:r".
  rewrite lookup_singleton_eq.
  destruct (Rlt_dec 0 100) as [_|Hn]; [reflexivity | exfalso; lra].
Qed.

(** X2. A non-blocking [acquire_lock] makes one conditional put. On a
    store that answers it returns [True] exactly when no live marker is
    set for the resource, and then sets one that expires [timeout_ms]
    milliseconds later; when a live marker is set it returns [False] and
    leaves the keys as they were. A store fault is not retried: the call
    raises [BlackboardError] after that one command, without sleeping. *)
Theorem acquire_lock_nonblocking (fuel : nat) (resource_id : string)
    (timeout_ms : Z) (blocking_timeout : R) (w : world) :
  (no_fault (faults w) →
   acquire_lock fuel resource_id timeout_ms false blocking_timeout w
   = Some (match live w (_make_lock_key resource_id) with
           | None =>
               (Return true,
                marked (_make_lock_key resource_id) timeout_ms w)
           | Some _ => (Return false, answered w)
           end))
  ∧ (∀ (f : fault) (rest : list (option fault)),
       faults w = Some f :: rest →
       acquire_lock fuel resource_id timeout_ms false blocking_timeout w
       = Some (Raise BlackboardError, refused rest w)).
Proof.
  split.
  - apply acquire_lock_nonblocking_run.
  - intros f rest. apply acquire_lock_nonblocking_fault.
Qed.

Lemma acquire_lock_nonblocking_witness :
  acquire_lock 0 "r" 5000 false 10 held_by_other
  = Some (Return false, answered held_by_other)
  ∧ acquire_lock 0 "r" 5000 false 10 (refused [Some TimedOut] held_by_other)
    = Some (Raise BlackboardError, refused [] held_by_other).
Proof.
  split.
  - pose proof (proj1 (acquire_lock_nonblocking 0 "r" 5000 10 held_by_other))
      as H.
    rewrite held_by_other_live in H. apply H. constructor.
  - apply (proj2 (acquire_lock_nonblocking 0 "r" 5000 10
                    (refused [Some TimedOut] held_by_other))
             TimedOut []).
    reflexivity.
Defined.

(** X3. The lock marker excludes a second holder until it expires, and
    no longer. After a successful non-blocking acquisition, a second
    attempt made [seconds] later, on a store that answers, succeeds
    exactly when [timeout_ms / 1000 <= seconds]: before that it returns
    [False]; from then on the lock is granted again although it was never
    released. *)
Theorem lock_excludes_until_expiry (resource_id : string) (timeout_ms : Z)
    (seconds : R) (w : world) :
  no_fault (faults w) → live w (_make_lock_key resource_id) = None →
  (0 < timeout_ms)%Z → 0 <= seconds →
  ∃ w',
    two_attempts resource_id timeout_ms seconds w
    = Some (Return (true, Rgeb seconds (IZR timeout_ms / 1000)), w')
    ∧ slept w' = slept w ++ [seconds].
Proof.
  intros Hnf Hlive _ _. unfold two_attempts, mbind, M_bind.
  rewrite acquire_lock_nonblocking_run, Hlive by exact Hnf.
  unfold time_sleep at 1.
  rewrite acquire_lock_nonblocking_run
    by (cbn [faults marked]; apply no_fault_tail, Hnf).
  unfold live at 1; cbn [kv clock marked].
  rewrite lookup_insert_eq. unfold Rgeb.
  destruct (Rlt_dec (clock w + seconds)
                    (clock w + IZR timeout_ms / 1000)) as [Hlt|Hge];
    destruct (Rle_dec (IZR timeout_ms / 1000) seconds) as [Hle|Hnle];
    try (exfalso; lra);
    eexists; (split; [reflexivity|]); reflexivity.
Qed.

Lemma lock_excludes_until_expiry_witness :
  ∃ w',
    two_attempts "r" 5000 5 empty_store
    = Some (Return (true, Rgeb 5 (IZR 5000 / 1000)), w')
    ∧ slept w' = slept empty_store ++ [5].
Proof.
  apply (lock_excludes_until_expiry "r" 5000 5 empty_store).
  - constructor.
  - reflexivity.
  - lia.
  - lra.
Defined.

(** X4. [release_lock] does not check who holds the lock. On a store that
    answers it returns [True] exactly when a live marker was set for the
    resource, whoever set it, and removes the marker: a non-blocking
    [acquire_lock] that follows is granted. *)
Theorem release_lock_any_holder (resource_id : string) (w : world) :
  no_fault (faults w) →
  release_lock resource_id w
  = Some (Return (bool_decide
                    (is_Some (live w (_make_lock_key resource_id)))),
          removed (_make_lock_key resource_id) w)
  ∧ ∀ (fuel : nat) (timeout_ms : Z) (blocking_timeout : R),
      acquire_lock fuel resource_id timeout_ms false blocking_timeout
        (removed (_make_lock_key resource_id) w)
      = Some (Return true,
              marked (_make_lock_key resource_id) timeout_ms
                (removed (_make_lock_key resource_id) w)).
Proof.
  intros Hnf. split; [apply release_lock_run, Hnf|].
  intros fuel timeout_ms blocking_timeout.
  rewrite acquire_lock_nonblocking_run, live_removed
    by (cbn [faults removed]; apply no_fault_tail, Hnf).
  reflexivity.
Qed.

Lemma release_lock_any_holder_witness :
  release_lock "r" held_by_other
  = Some (Return (bool_decide
                    (is_Some (live held_by_other (_make_lock_key "r")))),
          removed (_make_lock_key "r") held_by_other)
  ∧ ∀ (fuel : nat) (timeout_ms : Z) (blocking_timeout : R),
      acquire_lock fuel "r" timeout_ms false blocking_timeout
        (removed (_make_lock_key "r") held_by_other)
      = Some (Return true,
              marked (_make_lock_key "r") timeout_ms
                (removed (_make_lock_key "r") held_by_other)).
Proof.
  apply (release_lock_any_holder "r" held_by_other). constructor.
Defined.

(** X5. The context manager releases the lock on both ways out of its
    block. When the lock is free and the store answers, the block runs
    with the marker set; whether the block returns or raises, the marker
    is deleted afterwards (whoever holds it by then) and the block's own
    outcome is the outcome of the [with] statement. If the release meets
    a store fault, [BlackboardError] replaces the block's outcome. *)
Theorem with_lock_releases_on_exit {A : Type} (fuel : nat)
    (resource_id : string) (timeout_ms : Z) (blocking : bool)
    (blocking_timeout : R) (body : M A) (w w1 : world) (r : result A) :
  (1 <= fuel)%nat → no_fault (faults w) →
  live w (_make_lock_key resource_id) = None →
  body (marked (_make_lock_key resource_id) timeout_ms w) = Some (r, w1) →
  (no_fault (faults w1) →
   with_lock fuel resource_id timeout_ms blocking blocking_timeout body w
   = Some (r, removed (_make_lock_key resource_id) w1))
  ∧ (∀ (f : fault) (rest : list (option fault)),
       faults w1 = Some f :: rest →
       with_lock fuel resource_id timeout_ms blocking blocking_timeout body w
       = Some (Raise BlackboardError, refused rest w1)).
Proof.
  intros Hfuel Hnf Hlive Hbody.
  assert (Hacq : acquire_lock fuel resource_id timeout_ms blocking
                   blocking_timeout w
                 = Some (Return true,
                         marked (_make_lock_key resource_id) timeout_ms w)).
  { destruct blocking.
    - destruct fuel as [|fuel]; [lia|].
      apply acquire_lock_blocking_free; assumption.
    - rewrite acquire_lock_nonblocking_run, Hlive by exact Hnf.
      reflexivity. }
  split; [intros Hnf1 | intros f rest Hf];
    unfold with_lock, mbind at 1, M_bind at 1; rewrite Hacq; cbn [negb];
    unfold try_finally; rewrite Hbody; unfold mbind, M_bind.
  - rewrite release_lock_run by exact Hnf1. reflexivity.
  - rewrite (release_lock_fault_not_retried _ _ _ _ Hf). reflexivity.
Qed.

Lemma with_lock_releases_on_exit_witness :
  with_lock 1 "r" 5000 true 10 (raise ValueError) empty_store
  = Some (@Raise () ValueError,
          removed (_make_lock_key "r")
            (marked (_make_lock_key "r") 5000 empty_store)).
Proof.
  apply (proj1 (with_lock_releases_on_exit 1 "r" 5000 true 10
                  (raise ValueError) empty_store
                  (marked (_make_lock_key "r") 5000 empty_store)
                  (Raise ValueError)
                  (le_n 1) (Forall_nil_2 _) eq_refl eq_refl)).
  constructor.
Defined.

(** X6. A lock that is not granted keeps the block from running. With a
    live marker set and a store that answers, the non-blocking context
    manager raises [LockAcquisitionError] after its one conditional put,
    and nothing but that command has happened: no key is changed,
    whatever the block would have done. *)
Theorem with_lock_refused_skips_body {A : Type} (fuel : nat)
    (resource_id holder : string) (timeout_ms : Z) (blocking_timeout : R)
    (body : M A) (w : world) :
  no_fault (faults w) →
  live w (_make_lock_key resource_id) = Some holder →
  with_lock fuel resource_id timeout_ms false blocking_timeout body w
  = Some (Raise LockAcquisitionError, answered w).
Proof.
  intros Hnf Hlive. unfold with_lock, mbind, M_bind.
  rewrite acquire_lock_nonblocking_run, Hlive by exact Hnf. reflexivity.
Qed.

Lemma with_lock_refused_skips_body_witness :
  with_lock 0 "r" 5000 false 10 (redis_delete "bb:lock:r") held_by_other
  = Some (Raise LockAcquisitionError, answered held_by_other).
Proof.
  apply (with_lock_refused_skips_body 0 "r" "1" 5000 10
           (redis_delete "bb:lock:r") held_by_other).
  - constructor.
  - exact held_by_other_live.
Defined.

End LockProtocol.

Section ScoreBounds.

Lemma exp_decay_range (x : R) : 0 <= x → 0 < exp (- x) <= 1.
Proof.
  intros Hx. split; [apply exp_pos|].
  destruct (Req_dec_T x 0) as [->|Hne].
  - rewrite Ropp_0, exp_0. lra.
  - rewrite <- exp_0. left. apply exp_increasing. lra.
Qed.

Lemma days_nonneg (d : timedelta) : (0 <= d)%Z → 0 <= IZR (days d).
Proof.
  intros Hd. apply IZR_le. unfold days. apply Z.div_pos; lia.
Qed.

(** X8. [calculate_utility_score] keeps to its range on sound statistics:
    for a use count that is not negative and fits a 64-bit integer (the
    range of the column it is read from), a success rate in [0, 1] and a
    last use no later than now, with the default normalisation (100
    uses), it returns a utility in [0, 1]. (Both ends are reached in
    binary64: 1.0 by a pattern used 100 times, always with success, on
    the day of its last use, and 0.0 by a pattern never used whose last
    use is so far back that the recency has underflowed.) *)
Theorem utility_score_bounds (now last_used : datetime) (times_used : Z)
    (success_rate : R) :
  (0 <= times_used < 2 ^ 63)%Z → 0 <= success_rate <= 1 →
  (last_used <= now)%Z →
  ∃ utility,
    calculate_utility_score default_config now times_used success_rate
      last_used None = Return utility
    ∧ 0 <= utility <= 1.
Proof.
  intros Htimes Hrate Hlast.
  unfold calculate_utility_score; simpl.
  eexists. split; [reflexivity|].
  assert (Hd : 0 <= 0.01 * IZR (days (now - last_used))).
  { assert (0 <= IZR (days (now - last_used)))
      by (apply days_nonneg; lia). lra. }
  apply exp_decay_range in Hd.
  replace (- (0.01) * IZR (days (now - last_used)))
    with (- (0.01 * IZR (days (now - last_used)))) by lra.
  assert (Hu : 0 <= Rmin (IZR times_used / 100) 1.0 <= 1).
  { assert (0 <= IZR times_used) by (apply IZR_le; lia). minmax. }
  lra.
Qed.

Lemma utility_score_bounds_witness :
  ∃ utility,
    calculate_utility_score default_config 86400000000 250 1 0 None
    = Return utility
    ∧ 0 <= utility <= 1.
Proof.
  apply (utility_score_bounds 86400000000 0 250 1).
  - lia.
  - lra.
  - lia.
Defined.

End ScoreBounds.

Section ClusterInvariants.

#[local] Set Warnings "-clear-no-such-hyp".

Lemma elem_of_map {A B : Type} (f : A → B) (l : list A) (y : B) :
  y ∈ map f l ↔ ∃ x, f x = y ∧ x ∈ l.
Proof.
  rewrite list_elem_of_In, in_map_iff.
  split; intros (x & Hx & Hin); exists x; (split; [exact Hx|]);
    apply list_elem_of_In, Hin.
Qed.

Lemma elem_of_concat {A : Type} (x : A) (ls : list (list A)) :
  x ∈ concat ls ↔ ∃ l, l ∈ ls ∧ x ∈ l.
Proof.
  rewrite list_elem_of_In, in_concat.
  split; intros (l & Hl & Hx); exists l; split;
    apply list_elem_of_In; assumption.
Qed.

(** Ids that are distinct name their episodes. *)
Lemma NoDup_ids_eq (episodes : list Episode) (a b : Episode) :
  NoDup (map episode_id episodes) → a ∈ episodes → b ∈ episodes →
  episode_id a = episode_id b → a = b.
Proof.
  induction episodes as [|e episodes IH]; intros Hnd Ha Hb Hid.
  - apply elem_of_nil in Ha. destruct Ha.
  - cbn [map] in Hnd. apply NoDup_cons in Hnd as [Hnot Hnd].
    apply elem_of_cons in Ha as [->|Ha]; apply elem_of_cons in Hb as [->|Hb].
    + reflexivity.
    + exfalso. apply Hnot. rewrite Hid. apply elem_of_map. eauto.
    + exfalso. apply Hnot. rewrite <- Hid. apply elem_of_map. eauto.
    + apply IH; assumption.
Qed.

Lemma cosine_raises (a b : list R) (e : exn) :
  _cosine_similarity a b = Raise e → e = ValueError.
Proof.
  unfold _cosine_similarity.
  destruct (negb (length a =? length b)%nat); [congruence|].
  destruct (bool_decide (a = []) || bool_decide (b = [])); [discriminate|].
  match goal with |- context [if ?c then _ else _] => destruct c end;
    discriminate.
Qed.

(** What the inner loop hands back: the cluster it was given, followed
    by the candidates it took, each of them not clustered before and
    similar to the seed; their ids are added to the clustered ids. *)
Lemma add_similar_outcome (cfg : config) (seed : Episode) :
  ∀ (cands cluster : list Episode) (cids : gset string),
    match add_similar cfg seed cands cluster cids with
    | Return (cluster', cids') =>
        ∃ added,
          cluster' = cluster ++ added
          ∧ cids' = list_to_set (map episode_id added) ∪ cids
          ∧ NoDup (map episode_id added)
          ∧ Forall (fun e => e ∈ cands ∧ (episode_id e ∉ cids)
                             ∧ similar_to cfg seed e) added
          ∧ (length cluster'
             <= Nat.max (length cluster) (max_cluster_size cfg))%nat
    | Raise e => e = ValueError
    end.
Proof.
  induction cands as [|c rest IH]; intros cluster cids; cbn [add_similar].
  - exists []. rewrite app_nil_r. cbn [map].
    split; [reflexivity|]. split; [set_solver|].
    split; [constructor|]. split; [constructor | lia].
  - destruct (bool_decide (episode_id c ∈ cids)) eqn:Hin.
    + specialize (IH cluster cids).
      destruct (add_similar cfg seed rest cluster cids) as [[cl ids']|e];
        [|exact IH].
      destruct IH as (added & -> & -> & Hnd & Hall & Hlen).
      exists added. repeat split; try assumption.
      eapply Forall_impl; [exact Hall|].
      intros e (He & Hnot & Hsim). split; [|auto].
      apply elem_of_cons. auto.
    + apply bool_decide_eq_false in Hin.
      destruct (max_cluster_size cfg <=? length cluster)%nat eqn:Hfull.
      * exists []. rewrite app_nil_r. cbn [map].
        split; [reflexivity|]. split; [set_solver|].
        split; [constructor|]. split; [constructor | lia].
      * apply Nat.leb_gt in Hfull.
        destruct (_cosine_similarity (embedding seed) (embedding c))
          as [s|e] eqn:Hcos;
          [rewrite result_bind_Return
          |rewrite result_bind_Raise; apply (cosine_raises _ _ _ Hcos)].
        destruct (Rgeb s (clustering_threshold cfg)) eqn:Hs.
        -- specialize (IH (cluster ++ [c]) ({[episode_id c]} ∪ cids)).
           destruct (add_similar cfg seed rest (cluster ++ [c])
                       ({[episode_id c]} ∪ cids)) as [[cl ids']|e];
             [|exact IH].
           destruct IH as (added & -> & -> & Hnd & Hall & Hlen).
           exists (c :: added). rewrite <- app_assoc. cbn [map app].
           split; [reflexivity|]. split; [set_solver|].
           split; [|split].
           ++ apply NoDup_cons. split; [|exact Hnd].
              intros Hc. apply elem_of_map in Hc as (x & Hx & Hxin).
              rewrite Forall_forall in Hall.
              destruct (Hall x Hxin) as (_ & Hnot & _).
              apply Hnot. rewrite Hx. set_solver.
           ++ constructor.
              ** split; [apply elem_of_cons; auto|]. split; [exact Hin|].
                 exists s. split; [exact Hcos|].
                 unfold Rgeb in Hs.
                 destruct (Rle_dec (clustering_threshold cfg) s);
                   [assumption | discriminate].
              ** eapply Forall_impl; [exact Hall|].
                 intros e (He & Hnot & Hsim).
                 split; [apply elem_of_cons; auto|]. split; [set_solver|].
                 exact Hsim.
           ++ rewrite !length_app in *. cbn [length] in *. lia.
        -- specialize (IH cluster cids).
           destruct (add_similar cfg seed rest cluster cids)
             as [[cl ids']|e]; [|exact IH].
           destruct IH as (added & -> & -> & Hnd & Hall & Hlen).
           exists added. repeat split; try assumption.
           eapply Forall_impl; [exact Hall|].
           intros e (He & Hnot & Hsim). split; [|auto].
           apply elem_of_cons. auto.
Qed.

Lemma seed_is_important_cons (cfg : config) (seed : Episode)
    (joined : list Episode) :
  seed_is_important cfg (seed :: joined)
  = Return (match importance seed with
            | None => false
            | Some i => truthy i && Rgeb i (importance_threshold_high cfg)
            end).
Proof. unfold seed_is_important. destruct (importance seed); reflexivity. Qed.

Lemma concat_snoc {A : Type} (ls : list (list A)) (l : list A) :
  concat (ls ++ [l]) = concat ls ++ l.
Proof. rewrite concat_app. cbn [concat]. rewrite app_nil_r. reflexivity. Qed.

(** The outer loop keeps the clusters well formed and the ids of their
    members distinct, and raises nothing but [ValueError]. *)
Lemma cluster_loop_outcome (cfg : config) (episodes : list Episode) :
  ∀ (seeds : list Episode) (clusters : list (list Episode))
    (cids : gset string),
    (∀ s, s ∈ seeds → s ∈ episodes) →
    NoDup (map episode_id (concat clusters)) →
    (∀ id, id ∈ map episode_id (concat clusters) → id ∈ cids) →
    Forall (seeded_cluster cfg episodes) clusters →
    match cluster_loop cfg episodes seeds clusters cids with
    | Return clusters' =>
        NoDup (map episode_id (concat clusters'))
        ∧ Forall (seeded_cluster cfg episodes) clusters'
    | Raise e => e = ValueError
    end.
Proof.
  induction seeds as [|seed rest IH]; intros clusters cids Hseeds Hnd Hsub Hall;
    cbn [cluster_loop]; [split; assumption|].
  assert (Hrest : ∀ s, s ∈ rest → s ∈ episodes)
    by (intros s Hs; apply Hseeds, elem_of_cons; auto).
  destruct (bool_decide (episode_id seed ∈ cids)) eqn:Hin;
    [apply IH; assumption|].
  apply bool_decide_eq_false in Hin.
  pose proof (add_similar_outcome cfg seed episodes [seed]
                ({[episode_id seed]} ∪ cids)) as Hadd.
  destruct (add_similar cfg seed episodes [seed]
              ({[episode_id seed]} ∪ cids)) as [[cluster cids']|e];
    [rewrite result_bind_Return | rewrite result_bind_Raise; exact Hadd].
  destruct Hadd as (added & -> & -> & Hnda & Halla & Hlen).
  cbn [app length] in *. rewrite Forall_forall in Halla.
  assert (Hsub' : ∀ id, id ∈ map episode_id (concat clusters) →
            id ∈ list_to_set (map episode_id added)
                 ∪ ({[episode_id seed]} ∪ cids))
    by (intros id Hid; specialize (Hsub id Hid); set_solver).
  assert (Hext : NoDup (map episode_id
                          (concat (clusters ++ [seed :: added])))
                 ∧ (∀ id, id ∈ map episode_id
                                 (concat (clusters ++ [seed :: added])) →
                      id ∈ list_to_set (map episode_id added)
                           ∪ ({[episode_id seed]} ∪ cids))
                 ∧ Forall (seeded_cluster cfg episodes)
                          (clusters ++ [seed :: added])).
  { rewrite concat_snoc, map_app. cbn [map]. split; [|split].
    - apply NoDup_app. split; [exact Hnd|]. split.
      + intros id Hid Hnew. specialize (Hsub id Hid).
        apply elem_of_cons in Hnew as [->|Hnew]; [contradiction|].
        apply elem_of_map in Hnew as (x & <- & Hx).
        destruct (Halla x Hx) as (_ & Hnot & _). set_solver.
      + apply NoDup_cons. split; [|exact Hnda].
        intros Hs. apply elem_of_map in Hs as (x & Hid & Hx).
        destruct (Halla x Hx) as (_ & Hnot & _). set_solver.
    - intros id Hid. apply elem_of_app in Hid as [Hid|Hid];
        [apply Hsub', Hid|].
      apply elem_of_cons in Hid as [->|Hid]; [set_solver|].
      apply elem_of_union_l, elem_of_list_to_set, Hid.
    - apply Forall_app. split; [exact Hall|]. constructor; [|constructor].
      exists seed, added. split; [reflexivity|].
      split; [apply Hseeds, elem_of_cons; auto|]. split.
      + apply Forall_forall. intros x Hx.
        destruct (Halla x Hx) as (Hin' & _ & Hsim). auto.
      + cbn [length]. lia. }
  destruct Hext as (Hnd' & Hsub'' & Hall').
  destruct (min_cluster_size cfg <=? _)%nat; [apply IH; assumption|].
  rewrite seed_is_important_cons, result_bind_Return.
  match goal with |- context [if ?c then _ else _] => destruct c end;
    apply IH; assumption.
Qed.

(** X9. What [_cluster_episodes] hands back, whatever the configuration:
    every cluster is a seed taken from the episodes followed by episodes
    whose similarity to the seed reaches the threshold, its size is at
    most [max_cluster_size] (or 1, for a smaller limit), and no episode
    id occurs twice among the members of all clusters. The only exception
    the call can raise is the [ValueError] of a dimension mismatch; the
    [cluster[0]] of the importance test never fails. *)
Theorem cluster_episodes_structure (cfg : config) (episodes : list Episode) :
  match _cluster_episodes cfg episodes with
  | Return clusters =>
      NoDup (map episode_id (concat clusters))
      ∧ Forall (seeded_cluster cfg episodes) clusters
  | Raise e => e = ValueError
  end.
Proof.
  unfold _cluster_episodes.
  destruct (bool_decide (episodes = []));
    [split; constructor|].
  apply cluster_loop_outcome.
  - auto.
  - constructor.
  - intros id Hid. apply elem_of_nil in Hid. destruct Hid.
  - constructor.
Qed.

Lemma add_similar_total (cfg : config) (seed : Episode) (n : nat) :
  length (embedding seed) = n →
  ∀ (cands cluster : list Episode) (cids : gset string),
    Forall (fun e => length (embedding e) = n) cands →
    ∃ r, add_similar cfg seed cands cluster cids = Return r.
Proof.
  intros Hseed. induction cands as [|c rest IH]; intros cluster cids Hdim;
    cbn [add_similar]; [eauto|].
  apply Forall_cons in Hdim as [Hc Hrest].
  destruct (bool_decide (episode_id c ∈ cids)); [apply IH, Hrest|].
  destruct (max_cluster_size cfg <=? length cluster)%nat; [eauto|].
  destruct (cosine_total (embedding seed) (embedding c)) as [s Hs];
    [congruence|].
  rewrite Hs, result_bind_Return.
  destruct (Rgeb s (clustering_threshold cfg)); apply IH, Hrest.
Qed.

Lemma cluster_loop_total (cfg : config) (episodes : list Episode) (n : nat) :
  Forall (fun e => length (embedding e) = n) episodes →
  ∀ (seeds : list Episode) (clusters : list (list Episode))
    (cids : gset string),
    Forall (fun e => length (embedding e) = n) seeds →
    ∃ r, cluster_loop cfg episodes seeds clusters cids = Return r.
Proof.
  intros Hdim. induction seeds as [|seed rest IH]; intros clusters cids Hseeds;
    cbn [cluster_loop]; [eauto|].
  apply Forall_cons in Hseeds as [Hseed Hrest].
  destruct (bool_decide (episode_id seed ∈ cids)); [apply IH, Hrest|].
  pose proof (add_similar_outcome cfg seed episodes [seed]
                ({[episode_id seed]} ∪ cids)) as Hout.
  destruct (add_similar_total cfg seed _ Hseed episodes [seed]
              ({[episode_id seed]} ∪ cids) Hdim) as [[cluster cids'] Hr].
  rewrite Hr in Hout. rewrite Hr, result_bind_Return.
  destruct Hout as (added & -> & _). cbn [app].
  destruct (min_cluster_size cfg <=? _)%nat; [apply IH, Hrest|].
  rewrite seed_is_important_cons, result_bind_Return.
  match goal with |- context [if ?c then _ else _] => destruct c end;
    apply IH, Hrest.
Qed.

(** X10. [_cluster_episodes] returns on embeddings of one dimension:
    when all episodes carry embeddings of the same length, no similarity
    raises and the call hands back its clusters. *)
Theorem cluster_episodes_same_dimension (cfg : config)
    (episodes : list Episode) (n : nat) :
  Forall (fun e => length (embedding e) = n) episodes →
  ∃ clusters, _cluster_episodes cfg episodes = Return clusters.
Proof.
  intros Hdim. unfold _cluster_episodes.
  destruct (bool_decide (episodes = [])); [eauto|].
  apply (cluster_loop_total cfg episodes n Hdim), Hdim.
Qed.

Lemma cluster_episodes_same_dimension_witness :
  ∃ clusters,
    _cluster_episodes default_config (run_R (Some 0.9)) = Return clusters.
Proof.
  apply (cluster_episodes_same_dimension default_config (run_R (Some 0.9))
           2).
  repeat constructor.
Defined.

Lemma unimportant_seed (seed : Episode) :
  match importance seed with
  | None => false
  | Some i => truthy i && Rgeb i (importance_threshold_high default_config)
  end = false →
  unimportant seed.
Proof.
  intros H i Hi. rewrite Hi in H. cbn [importance_threshold_high
    default_config] in H.
  unfold truthy, Rgeb in H.
  destruct (Req_dec_T i 0) as [->|_]; [lra|].
  destruct (Rle_dec 0.7 i); [discriminate | lra].
Qed.

(** With the default configuration the outer loop drops a seed only when
    it is alone in its cluster and unimportant: every id it has marked
    as clustered is the id of a member of a kept cluster or of a dropped,
    unimportant seed. *)
Lemma cluster_loop_keeps (episodes : list Episode) :
  ∀ (seeds : list Episode) (clusters clusters' : list (list Episode))
    (cids : gset string),
    (∀ s, s ∈ seeds → s ∈ episodes) →
    (∀ id, id ∈ cids →
       id ∈ map episode_id (concat clusters)
       ∨ ∃ e, e ∈ episodes ∧ episode_id e = id ∧ unimportant e) →
    cluster_loop default_config episodes seeds clusters cids
    = Return clusters' →
    ∀ id, id ∈ cids ∨ id ∈ map episode_id seeds →
      id ∈ map episode_id (concat clusters')
      ∨ ∃ e, e ∈ episodes ∧ episode_id e = id ∧ unimportant e.
Proof.
  induction seeds as [|seed rest IH];
    intros clusters clusters' cids Hseeds Hinv Hrun id Hid;
    cbn [cluster_loop] in Hrun.
  - injection Hrun as <-. destruct Hid as [Hid|Hid]; [apply Hinv, Hid|].
    apply elem_of_nil in Hid. destruct Hid.
  - assert (Hrest : ∀ s, s ∈ rest → s ∈ episodes)
      by (intros s Hs; apply Hseeds, elem_of_cons; auto).
    cbn [map] in Hid. rewrite elem_of_cons in Hid.
    destruct (bool_decide (episode_id seed ∈ cids)) eqn:Hin.
    + apply bool_decide_eq_true in Hin.
      apply (IH _ _ _ Hrest Hinv Hrun).
      destruct Hid as [Hid|[->|Hid]]; auto.
    + pose proof (add_similar_outcome default_config seed episodes [seed]
                    ({[episode_id seed]} ∪ cids)) as Hadd.
      destruct (add_similar default_config seed episodes [seed]
                  ({[episode_id seed]} ∪ cids)) as [[cluster cids']|e];
        [rewrite result_bind_Return in Hrun
        |rewrite result_bind_Raise in Hrun; discriminate].
      destruct Hadd as (added & -> & -> & _).
      cbn [app length min_cluster_size default_config] in Hrun.
      assert (Hid' : id ∈ list_to_set (map episode_id added)
                          ∪ ({[episode_id seed]} ∪ cids)
                     ∨ id ∈ map episode_id rest)
        by (destruct Hid as [Hid|[->|Hid]]; [left|left|right];
            set_solver).
      assert (Hkept : ∀ id,
                id ∈ list_to_set (map episode_id added)
                     ∪ ({[episode_id seed]} ∪ cids) →
                id ∈ map episode_id (concat (clusters ++ [seed :: added]))
                ∨ ∃ e, e ∈ episodes ∧ episode_id e = id ∧ unimportant e).
      { intros id0 H0. rewrite concat_snoc, map_app. cbn [map].
        apply elem_of_union in H0 as [H0|H0].
        - left. apply elem_of_app. right. apply elem_of_cons. right.
          apply elem_of_list_to_set in H0. exact H0.
        - apply elem_of_union in H0 as [H0|H0].
          + apply elem_of_singleton in H0. subst id0.
            left. apply elem_of_app. right. apply elem_of_cons. auto.
          + destruct (Hinv id0 H0) as [Hl|Hr]; [|auto].
            left. apply elem_of_app. auto. }
      destruct added as [|second added].
      * cbn [length Nat.leb] in Hrun.
        rewrite seed_is_important_cons, result_bind_Return in Hrun.
        match type of Hrun with
        | context [if ?c then _ else _] => destruct c eqn:Hkeep
        end.
        -- apply (IH _ _ _ Hrest Hkept Hrun), Hid'.
        -- apply unimportant_seed in Hkeep.
           apply (IH clusters clusters'
                     (list_to_set (map episode_id [])
                      ∪ ({[episode_id seed]} ∪ cids)));
             [exact Hrest | | exact Hrun | exact Hid'].
           intros id0 H0. cbn [map list_to_set] in H0.
           apply elem_of_union in H0 as [H0|H0]; [set_solver|].
           apply elem_of_union in H0 as [H0|H0]; [|apply Hinv, H0].
           apply elem_of_singleton in H0. subst id0. right.
           exists seed. split; [apply Hseeds, elem_of_cons; auto|]. auto.
      * cbn [length Nat.leb] in Hrun.
        apply (IH _ _ _ Hrest Hkept Hrun), Hid'.
Qed.

(** With the default configuration and distinct ids, an episode is a
    member of a returned cluster or is unimportant. *)
Lemma clustered_or_unimportant (episodes : list Episode)
    (clusters : list (list Episode)) (ep : Episode) :
  NoDup (map episode_id episodes) →
  _cluster_episodes default_config episodes = Return clusters →
  ep ∈ episodes →
  (∃ cluster, cluster ∈ clusters ∧ ep ∈ cluster) ∨ unimportant ep.
Proof.
  intros Hnd Hrun Hep. unfold _cluster_episodes in Hrun.
  destruct (bool_decide (episodes = [])) eqn:Hnil.
  { apply bool_decide_eq_true in Hnil. subst episodes.
    apply elem_of_nil in Hep. destruct Hep. }
  pose proof (cluster_loop_outcome default_config episodes episodes [] ∅)
    as Hshape.
  rewrite Hrun in Hshape.
  destruct Hshape as [_ Hshape];
    [auto | constructor
    | intros id Hid; apply elem_of_nil in Hid; destruct Hid
    | constructor |].
  destruct (cluster_loop_keeps episodes episodes [] clusters ∅
              ltac:(auto) ltac:(set_solver) Hrun (episode_id ep))
    as [Hin|(e & He & Hid & Hun)].
  - right. apply elem_of_map. eauto.
  - left. apply elem_of_map in Hin as (x & Hid & Hx).
    apply elem_of_concat in Hx as (cluster & Hcluster & Hx).
    exists cluster. split; [exact Hcluster|].
    rewrite Forall_forall in Hshape.
    destruct (Hshape cluster Hcluster)
      as (seed & joined & -> & Hseed & Hjoined & _).
    assert (Hxin : x ∈ episodes).
    { apply elem_of_cons in Hx as [->|Hx]; [exact Hseed|].
      rewrite Forall_forall in Hjoined. apply (Hjoined x Hx). }
    rewrite <- (NoDup_ids_eq episodes x ep Hnd Hxin Hep Hid). exact Hx.
  - right.
    rewrite (NoDup_ids_eq episodes e ep Hnd He Hep Hid) in Hun. exact Hun.
Qed.

(** X11. Clustering never drops an important episode. With the default
    configuration and episode ids that are distinct, an episode whose
    importance is at least 0.7 is a member of one of the clusters
    [_cluster_episodes] returns: only a seed that is left alone in its
    cluster and whose importance is below 0.7, zero or unset is
    discarded. *)
Theorem important_episodes_are_clustered (episodes : list Episode)
    (clusters : list (list Episode)) (ep : Episode) (i : R) :
  NoDup (map episode_id episodes) →
  _cluster_episodes default_config episodes = Return clusters →
  ep ∈ episodes → importance ep = Some i → 0.7 <= i →
  ∃ cluster, cluster ∈ clusters ∧ ep ∈ cluster.
Proof.
  intros Hnd Hrun Hep Himp Hi.
  destruct (clustered_or_unimportant episodes clusters ep Hnd Hrun Hep)
    as [Hin|Hun]; [exact Hin|].
  specialize (Hun i Himp). lra.
Qed.

Lemma important_episodes_are_clustered_witness :
  ∃ cluster,
    cluster ∈ [[episode "e1" 1 [1; 0] None; episode "e2" 2 [1; 0] None];
               [episode "e3" 3 [0; 1] (Some 0.9)]]
    ∧ episode "e3" 3 [0; 1] (Some 0.9) ∈ cluster.
Proof.
  apply (important_episodes_are_clustered (run_R (Some 0.9)) _
           (episode "e3" 3 [0; 1] (Some 0.9)) 0.9).
  - cbn [run_R map episode episode_id]. repeat constructor; set_solver.
  - exact (proj2 cluster_episodes_scenario).
  - unfold run_R. set_solver.
  - reflexivity.
  - lra.
Defined.

Lemma one_high_indicator_scores_high (content : string) :
  (1 <= high_count content)%nat → 0.7 <= _calculate_importance content.
Proof.
  intros Hh. rewrite importance_is_spec_score.
  unfold spec_score, spec_base.
  assert (Hm : (Nat.min 3 (high_count content) = 1
                ∨ Nat.min 3 (high_count content) = 2
                ∨ Nat.min 3 (high_count content) = 3)%nat) by lia.
  destruct ((String.length content <? 50)%nat
            || (500 <? String.length content)%nat);
    destruct Hm as [-> |[-> | ->]]; simpl; minmax.
Qed.

(** X12. The words that mark a failure are high-importance words: an
    episode whose content, compared without regard to case, contains
    "error", "exception", "failed" or "failure" is a failure episode for
    [_is_failure_episode], and [_calculate_importance] scores its content
    at or above the threshold 0.7 of the default configuration, in
    binary64 as in exact arithmetic. (In binary64 the least such score is
    0.7999999999999999, for one such word in a content of 50 to 500
    characters.) *)
Theorem failure_words_score_high (ep : Episode) (word : string) :
  word ∈ ["error"; "exception"; "failed"; "failure"] →
  contains word (lower (content ep)) = true →
  _is_failure_episode ep = true
  ∧ (0.7 <=? Binary64._calculate_importance (content ep))%float = true
  ∧ (0x1.9999999999999p-1
     <=? Binary64._calculate_importance (content ep))%float = true
  ∧ importance_threshold_high default_config
    <= _calculate_importance (content ep).
Proof.
  intros Hword Hin.
  assert (Hhigh : (1 <= high_count (content ep))%nat).
  { apply (count_matches_pos _ _ word); [|exact Hin].
    unfold high_indicators. apply list_elem_of_In. set_solver. }
  split; [|split; [|split]].
  - unfold _is_failure_episode. apply existsb_exists. exists word.
    split; [|exact Hin]. unfold failure_indicators.
    apply list_elem_of_In. set_solver.
  - apply importance_binary64_high, Hhigh.
  - apply importance_binary64_high, Hhigh.
  - apply one_high_indicator_scores_high, Hhigh.
Qed.

Lemma failure_words_score_high_witness :
  _is_failure_episode (build_failed None) = true
  ∧ (0.7
     <=? Binary64._calculate_importance (content (build_failed None)))%float
    = true
  ∧ (0x1.9999999999999p-1
     <=? Binary64._calculate_importance (content (build_failed None)))%float
    = true
  ∧ importance_threshold_high default_config
    <= _calculate_importance (content (build_failed None)).
Proof.
  apply (failure_words_score_high (build_failed None) "failed").
  - set_solver.
  - reflexivity.
Defined.

Lemma calculate_importance_scores_ids (episodes : list Episode) :
  map episode_id (calculate_importance_scores episodes)
  = map episode_id episodes.
Proof.
  unfold calculate_importance_scores. rewrite map_map. apply map_ext.
  intros e. destruct (importance e); reflexivity.
Qed.

(** X13. Steps 2 and 3 of [consolidate] never lose a failure record.
    When the episode ids are distinct, an episode with no importance of
    its own whose content contains "error", "exception", "failed" or
    "failure" is scored by step 2 and is then a member of one of the
    clusters step 3 returns, even when no other episode is similar to
    it: its score passes the test [importance >= 0.7] that keeps a lone
    seed, which comes out the same in binary64
    ([importance_keep_test_agrees]). *)
Theorem failure_episodes_are_clustered (episodes : list Episode)
    (clusters : list (list Episode)) (ep : Episode) (word : string) :
  NoDup (map episode_id episodes) →
  ep ∈ episodes → importance ep = None →
  word ∈ ["error"; "exception"; "failed"; "failure"] →
  contains word (lower (content ep)) = true →
  _cluster_episodes default_config (calculate_importance_scores episodes)
  = Return clusters →
  ∃ cluster scored,
    cluster ∈ clusters ∧ scored ∈ cluster
    ∧ episode_id scored = episode_id ep
    ∧ content scored = content ep
    ∧ importance scored = Some (_calculate_importance (content ep)).
Proof.
  intros Hnd Hep Hnone Hword Hin Hrun.
  assert (Hhigh : 0.7 <= _calculate_importance (content ep)).
  { apply one_high_indicator_scores_high.
    apply (count_matches_pos _ _ word); [|exact Hin].
    unfold high_indicators. apply list_elem_of_In. set_solver. }
  set (scored := {| episode_id := episode_id ep;
                    pipeline_run_id := pipeline_run_id ep;
                    step_number := step_number ep;
                    role := role ep;
                    content := content ep;
                    embedding := embedding ep;
                    created_at := created_at ep;
                    importance := Some (_calculate_importance (content ep));
                    last_accessed := last_accessed ep |}).
  assert (Hscored : scored ∈ calculate_importance_scores episodes).
  { unfold calculate_importance_scores. apply elem_of_map. exists ep.
    rewrite Hnone. auto. }
  rewrite <- calculate_importance_scores_ids in Hnd.
  destruct (clustered_or_unimportant _ clusters scored Hnd Hrun Hscored)
    as [(cluster & Hcluster & Hmember)|Hun].
  - exists cluster, scored. repeat split; assumption.
  - specialize (Hun _ eq_refl). lra.
Qed.

Lemma build_failed_clustered :
  _cluster_episodes default_config
    (calculate_importance_scores [build_failed None])
  = Return [[build_failed
               (Some (_calculate_importance "Build FAILED in step 3"))]].
Proof.
  assert (Hhigh : 0.7 <= _calculate_importance "Build FAILED in step 3").
  { apply one_high_indicator_scores_high.
    apply (count_matches_pos _ _ "failed"); [|reflexivity].
    unfold high_indicators. apply list_elem_of_In. set_solver. }
  unfold _cluster_episodes, calculate_importance_scores.
  cbn [map importance build_failed content episode_id pipeline_run_id
       step_number role embedding created_at last_accessed].
  fold (build_failed (Some (_calculate_importance "Build FAILED in step 3"))).
  rewrite bool_decide_eq_false_2 by discriminate.
  erewrite cluster_loop_seed;
    [|set_solver
     |rewrite add_similar_clustered by set_solver; reflexivity].
  cbn [length min_cluster_size default_config Nat.leb].
  rewrite seed_is_important_cons, result_bind_Return.
  cbn [importance build_failed importance_threshold_high default_config].
  unfold truthy, Rgeb.
  destruct (Req_dec_T (_calculate_importance "Build FAILED in step 3") 0);
    [lra|].
  destruct (Rle_dec 0.7 (_calculate_importance "Build FAILED in step 3"));
    [reflexivity | lra].
Qed.

Lemma failure_episodes_are_clustered_witness :
  ∃ cluster scored,
    cluster
    ∈ [[build_failed
          (Some (_calculate_importance "Build FAILED in step 3"))]]
    ∧ scored ∈ cluster
    ∧ episode_id scored = episode_id (build_failed None)
    ∧ content scored = content (build_failed None)
    ∧ importance scored
      = Some (_calculate_importance (content (build_failed None))).
Proof.
  apply (failure_episodes_are_clustered [build_failed None] _
           (build_failed None) "failed").
  - repeat constructor. set_solver.
  - set_solver.
  - reflexivity.
  - set_solver.
  - reflexivity.
  - exact build_failed_clustered.
Defined.

End ClusterInvariants.

Section UpsertRuns.






Lemma after_update_ids (now : datetime) (r : Relation.t)
    (rows : list relation_row) :
  map relation_id (after_update now r rows) = map relation_id rows.
Proof.
  unfold after_update. destruct (List.find (is_active_for r) rows);
    [apply set_valid_to_ids | reflexivity].
Qed.

(** A call removes no record and changes no key; it adds at most one
    record, and exactly one when it returns [True]. *)
Lemma upsert_relation_grows (raises : option statement) (now : datetime)
    (r : Relation.t) (rows : list relation_row) :
  ∃ added,
    map relation_id (_upsert_relation raises now r rows).2
    = map relation_id rows ++ added
    ∧ (length (succeeded [(_upsert_relation raises now r rows).1])
       <= length added <= 1)%nat.
Proof.
  destruct (upsert_relation_cases raises now r rows)
    as [->|[->|(metadata & _ & ->)]]; cbn [fst snd succeeded].
  - exists []. rewrite app_nil_r. split; [reflexivity | simpl; lia].
  - exists []. rewrite app_nil_r, after_update_ids.
    split; [reflexivity | simpl; lia].
  - eexists [_]. rewrite map_app, after_update_ids.
    split; [reflexivity|].
    destruct (negb _); simpl; lia.
Qed.

Lemma upsert_relations_run
    (calls : list (option statement * datetime * Relation.t)) :
  ∀ (returned : list bool) (rows : list relation_row),
    NoDup (map relation_id rows) → at_most_one_active rows →
    let run :=
      foldl (fun acc call =>
               (acc.1
                ++ [(_upsert_relation call.1.1 call.1.2 call.2 acc.2).1],
                (_upsert_relation call.1.1 call.1.2 call.2 acc.2).2))
            (returned, rows) calls in
    NoDup (map relation_id run.2)
    ∧ at_most_one_active run.2
    ∧ ∃ flags added,
        run.1 = returned ++ flags
        ∧ length flags = length calls
        ∧ map relation_id run.2 = map relation_id rows ++ added
        ∧ (length (succeeded flags) <= length added <= length calls)%nat.
Proof.
  induction calls as [|[[raises now] r] calls IH];
    intros returned rows Hnd Hone; cbv zeta; cbn [foldl fst snd].
  - split; [exact Hnd|]. split; [exact Hone|].
    exists [], []. rewrite !app_nil_r. simpl. auto.
  - destruct (upsert_relation_invariant raises now r rows Hnd Hone)
      as [Hnd1 Hone1].
    destruct (IH (returned ++ [(_upsert_relation raises now r rows).1])
                 _ Hnd1 Hone1)
      as (Hnd' & Hone' & flags & added & Hflags & Hlen & Hids & Hcount).
    split; [exact Hnd'|]. split; [exact Hone'|].
    destruct (upsert_relation_grows raises now r rows)
      as (new & Hnew & Hone_more).
    exists ((_upsert_relation raises now r rows).1 :: flags), (new ++ added).
    split; [rewrite Hflags, <- app_assoc; reflexivity|].
    split; [simpl; lia|].
    split; [rewrite Hids, Hnew, <- app_assoc; reflexivity|].
    rewrite length_app. unfold succeeded in *.
    destruct (_upsert_relation raises now r rows).1;
      cbn [List.filter length] in *; lia.
Qed.

(** X15. Over any run of [_upsert_relation] calls, failed ones among
    them, on a table whose keys are distinct and which holds at most one
    active record per triple, both stay true; no record is ever removed
    and no key changes: the keys the table had are the first keys of the
    table after the run, which has at most one more record for every call
    and at least one more for every call that returned [True]. *)
Theorem upsert_relations_keep_history
    (calls : list (option statement * datetime * Relation.t))
    (rows : list relation_row) :
  NoDup (map relation_id rows) → at_most_one_active rows →
  NoDup (map relation_id (upsert_relations calls rows).2)
  ∧ at_most_one_active (upsert_relations calls rows).2
  ∧ length (upsert_relations calls rows).1 = length calls
  ∧ ∃ added,
      map relation_id (upsert_relations calls rows).2
      = map relation_id rows ++ added
      ∧ (length (succeeded (upsert_relations calls rows).1)
         <= length added <= length calls)%nat.
Proof.
  intros Hnd Hone.
  destruct (upsert_relations_run calls [] rows Hnd Hone)
    as (Hnd' & Hone' & flags & added & Hflags & Hlen & Hids & Hcount).
  fold (upsert_relations calls rows) in *.
  split; [exact Hnd'|]. split; [exact Hone'|].
  rewrite Hflags. cbn [app].
  split; [exact Hlen|]. exists added. auto.
Qed.

Lemma upsert_relations_keep_history_witness :
  NoDup (map relation_id
           (upsert_relations [(None, 2000000%Z, depends_on 0.9 None);
                              (None, 3000000%Z, owned_by_object)]
                             one_active).2)
  ∧ at_most_one_active
      (upsert_relations [(None, 2000000%Z, depends_on 0.9 None);
                         (None, 3000000%Z, owned_by_object)] one_active).2
  ∧ length
      (upsert_relations [(None, 2000000%Z, depends_on 0.9 None);
                         (None, 3000000%Z, owned_by_object)] one_active).1
    = length [(@None statement, 2000000%Z, depends_on 0.9 None);
              (None, 3000000%Z, owned_by_object)]
  ∧ ∃ added,
      map relation_id
        (upsert_relations [(None, 2000000%Z, depends_on 0.9 None);
                           (None, 3000000%Z, owned_by_object)]
                          one_active).2
      = map relation_id one_active ++ added
      ∧ (length
           (succeeded
              (upsert_relations [(None, 2000000%Z, depends_on 0.9 None);
                                 (None, 3000000%Z, owned_by_object)]
                                one_active).1)
         <= length added
         <= length [(@None statement, 2000000%Z, depends_on 0.9 None);
                    (None, 3000000%Z, owned_by_object)])%nat.
Proof.
  apply (upsert_relations_keep_history
           [(None, 2000000%Z, depends_on 0.9 None);
            (None, 3000000%Z, owned_by_object)] one_active).
  - repeat constructor. set_solver.
  - intros r. unfold active_rows, one_active. cbn [List.filter].
    destruct (is_active_for r first_record); simpl; lia.
Defined.

(** The run of the witness: the second call, whose metadata cannot be
    rendered, returns [False] after it has closed the record the first
    call inserted, and the triple is left with no active record. *)
Example upsert_relations_failed_call :
  (upsert_relations [(None, 2000000%Z, depends_on 0.9 None);
                     (None, 3000000%Z, owned_by_object)] one_active).1
  = [true; false]
  ∧ active_rows owned_by_object
      (upsert_relations [(None, 2000000%Z, depends_on 0.9 None);
                         (None, 3000000%Z, owned_by_object)] one_active).2
    = [].
Proof. split; reflexivity. Qed.

End UpsertRuns.

Section Relevance.

#[local] Set Warnings "-clear-no-such-hyp".

Lemma list_to_set_empty_nil (l : list string) :
  (list_to_set l : gset string) = ∅ ↔ l = [].
Proof.
  split; [|intros ->; reflexivity].
  destruct l as [|x l]; [reflexivity|]. intros H. exfalso.
  assert (Hx : x ∈ (list_to_set (x :: l) : gset string)) by set_solver.
  rewrite H in Hx. set_solver.
Qed.

Lemma relevance_of_words (content query : string) :
  split (lower query) ≠ [] →
  _calculate_relevance content query
  = Rmin 1.0
      (INR (size ((list_to_set (split (lower content)) : gset string)
                  ∩ list_to_set (split (lower query))))
       / INR (size (list_to_set (split (lower query)) : gset string))).
Proof.
  intros Hwords. unfold _calculate_relevance.
  destruct (String.eqb query "") eqn:Hq.
  - apply String.eqb_eq in Hq. subst query. contradiction Hwords.
    reflexivity.
  - rewrite bool_decide_eq_false_2; [reflexivity|].
    rewrite list_to_set_empty_nil. exact Hwords.
Qed.

Lemma relevance_no_words (content query : string) :
  split (lower query) = [] → _calculate_relevance content query = 0.5.
Proof.
  intros Hwords. unfold _calculate_relevance.
  destruct (String.eqb query ""); [reflexivity|].
  rewrite Hwords, bool_decide_eq_true_2; reflexivity.
Qed.

Lemma calculate_relevance_range (content query : string) :
  0 <= _calculate_relevance content query <= 1.
Proof.
  destruct (split (lower query)) as [|w ws] eqn:Hwords.
  - rewrite relevance_no_words by exact Hwords. lra.
  - rewrite relevance_of_words by (rewrite Hwords; discriminate).
    set (C := (list_to_set (split (lower content)) : gset string)).
    set (Q := (list_to_set (split (lower query)) : gset string)).
    pose proof (pos_INR (size (C ∩ Q))) as Hnn.
    assert (Hpos : 0 < INR (size Q)).
    { apply (lt_INR 0). destruct (size Q) eqn:Hsize; [|lia]. exfalso.
      apply size_empty_iff, leibniz_equiv in Hsize.
      apply list_to_set_empty_nil in Hsize. congruence. }
    assert (0 <= INR (size (C ∩ Q)) / INR (size Q)).
    { apply Rmult_le_pos; [exact Hnn|].
      left. apply Rinv_0_lt_compat, Hpos. }
    minmax.
Qed.

(** X16. [_calculate_relevance] is the share of the query's distinct
    words, compared without regard to case, that occur among the words of
    the content: it lies in [0, 1], and its cap at 1.0 is never needed.
    It is 1 exactly when every word of the query occurs in the content,
    and 0.5 when the query has no word at all (empty or blank). *)
Theorem calculate_relevance_is_word_share (content query : string) :
  let content_words : gset string := list_to_set (split (lower content)) in
  let query_words : gset string := list_to_set (split (lower query)) in
  0 <= _calculate_relevance content query <= 1
  ∧ (split (lower query) = [] → _calculate_relevance content query = 0.5)
  ∧ (split (lower query) ≠ [] →
     _calculate_relevance content query
     = INR (size (content_words ∩ query_words)) / INR (size query_words)
     ∧ (_calculate_relevance content query = 1
        ↔ ∀ word, word ∈ split (lower query) →
                  word ∈ split (lower content))).
Proof.
  cbv zeta.
  set (C := (list_to_set (split (lower content)) : gset string)).
  set (Q := (list_to_set (split (lower query)) : gset string)).
  assert (Hle : (size (C ∩ Q) <= size Q)%nat)
    by (apply subseteq_size; set_solver).
  assert (Hshare : split (lower query) ≠ [] →
            (0 < size Q)%nat
            ∧ _calculate_relevance content query
              = INR (size (C ∩ Q)) / INR (size Q)).
  { intros Hwords.
    assert (Hpos : (0 < size Q)%nat).
    { destruct (size Q) eqn:Hsize; [|lia]. exfalso.
      apply size_empty_iff in Hsize. apply Hwords.
      apply list_to_set_empty_nil. fold Q.
      apply leibniz_equiv, Hsize. }
    split; [exact Hpos|].
    rewrite relevance_of_words by exact Hwords. fold C Q.
    apply le_INR in Hle. apply lt_INR in Hpos. simpl in Hpos.
    assert (INR (size (C ∩ Q)) / INR (size Q) <= 1).
    { apply (Rmult_le_reg_r (INR (size Q))); [exact Hpos|].
      replace (INR (size (C ∩ Q)) / INR (size Q) * INR (size Q))
        with (INR (size (C ∩ Q))) by (field; lra). lra. }
    minmax. }
  split; [|split].
  - apply calculate_relevance_range.
  - apply relevance_no_words.
  - intros Hwords. destruct (Hshare Hwords) as [Hpos Heq].
    split; [exact Heq|]. rewrite Heq.
    pose proof Hpos as HposR. apply lt_INR in HposR. simpl in HposR.
    split.
    + intros Hone word Hword.
      assert (Hsize : INR (size (C ∩ Q)) = INR (size Q)).
      { apply (Rmult_eq_reg_r (/ INR (size Q)));
          [|apply Rinv_neq_0_compat; lra].
        rewrite Rinv_r by lra. exact Hone. }
      apply INR_eq in Hsize.
      assert (Hsub : C ∩ Q = Q)
        by (apply set_subseteq_size_eq; [set_solver | lia]).
      assert (HwQ : word ∈ Q) by (apply elem_of_list_to_set, Hword).
      rewrite <- Hsub in HwQ. apply elem_of_intersection in HwQ as [HwC _].
      apply elem_of_list_to_set in HwC. exact HwC.
    + intros Hall.
      assert (Hsub : C ∩ Q = Q).
      { apply set_eq. intros word. rewrite elem_of_intersection.
        split; [tauto|]. intros HwQ. split; [|exact HwQ].
        apply elem_of_list_to_set, Hall.
        apply elem_of_list_to_set in HwQ. exact HwQ. }
      rewrite Hsub. field. lra.
Qed.

Lemma calculate_relevance_is_word_share_witness :
  _calculate_relevance "Fix the login bug" "  " = 0.5
  ∧ (_calculate_relevance "Fix the login bug" "LOGIN fix" = 1
     ↔ ∀ word, word ∈ split (lower "LOGIN fix") →
               word ∈ split (lower "Fix the login bug")).
Proof.
  split.
  - apply (proj1 (proj2 (calculate_relevance_is_word_share
                           "Fix the login bug" "  "))).
    reflexivity.
  - apply (proj2 (proj2 (calculate_relevance_is_word_share
                           "Fix the login bug" "LOGIN fix"))).
    discriminate.
Defined.

End Relevance.

Section Retrieval.

Lemma insert_by_score_perm (x : RetrievalResult)
    (placed : list RetrievalResult) :
  insert_by_score x placed ≡ₚ x :: placed.
Proof.
  induction placed as [|y rest IH]; cbn [insert_by_score]; [reflexivity|].
  destruct (Rlt_dec (score y) (score x)); [reflexivity|].
  rewrite IH. apply Permutation_swap.
Qed.

Lemma insert_by_score_sorted (x : RetrievalResult)
    (placed : list RetrievalResult) :
  StronglySorted by_score placed →
  StronglySorted by_score (insert_by_score x placed).
Proof.
  induction 1 as [|y rest Hsorted IH Hy]; cbn [insert_by_score].
  - repeat constructor.
  - destruct (Rlt_dec (score y) (score x)) as [Hlt|Hge].
    + constructor; [constructor; assumption|].
      constructor; [unfold by_score; lra|].
      eapply Forall_impl; [exact Hy|].
      unfold by_score. intros z Hz. lra.
    + constructor; [exact IH|].
      rewrite insert_by_score_perm.
      constructor; [unfold by_score; lra | exact Hy].
Qed.

Lemma sort_from_perm (results placed : list RetrievalResult) :
  foldl (fun placed x => insert_by_score x placed) placed results
  ≡ₚ placed ++ results.
Proof.
  revert placed. induction results as [|x results IH]; intros placed;
    cbn [foldl]; [rewrite app_nil_r; reflexivity|].
  rewrite IH, insert_by_score_perm.
  rewrite (Permutation_middle placed results x). reflexivity.
Qed.

Lemma sort_from_sorted (results placed : list RetrievalResult) :
  StronglySorted by_score placed →
  StronglySorted by_score
    (foldl (fun placed x => insert_by_score x placed) placed results).
Proof.
  revert placed. induction results as [|x results IH]; intros placed Hsorted;
    cbn [foldl]; [exact Hsorted|].
  apply IH, insert_by_score_sorted, Hsorted.
Qed.

Lemma sort_by_score_perm (results : list RetrievalResult) :
  sort_by_score results ≡ₚ results.
Proof. unfold sort_by_score. rewrite sort_from_perm. reflexivity. Qed.

Lemma sort_by_score_sorted (results : list RetrievalResult) :
  StronglySorted by_score (sort_by_score results).
Proof. apply sort_from_sorted. constructor. Qed.

Lemma slice_to_take {A : Type} (limit : Z) (l : list A) :
  ∃ n, slice_to limit l = take n l
       ∧ ((0 <= limit)%Z → n = Z.to_nat limit).
Proof.
  unfold slice_to. destruct (0 <=? limit)%Z eqn:Hlimit.
  - eexists. split; [reflexivity|]. reflexivity.
  - eexists. split; [reflexivity|]. apply Z.leb_gt in Hlimit. lia.
Qed.

(** X17. [retrieve] returns the best-scored of the rows its query
    selects: its results, followed by the selected rows it leaves out,
    are all the selected rows, each scored
    [0.5 relevance + 0.3 importance + 0.2 recency], in an order of
    descending score. With a limit that is not negative it returns
    [limit] results, or all of them when there are fewer. *)
Theorem retrieve_ranks_by_score (now : datetime) (now_text query : string)
    (node_type : option string) (limit : Z) (include_invalid : bool)
    (db : list nodes.row) :
  ∃ dropped,
    retrieve now now_text query node_type limit include_invalid db ++ dropped
    ≡ₚ map (scored now query)
           (selected now_text node_type include_invalid db)
    ∧ StronglySorted by_score
        (retrieve now now_text query node_type limit include_invalid db
         ++ dropped)
    ∧ ((0 <= limit)%Z →
       length (retrieve now now_text query node_type limit include_invalid
                 db)
       = Nat.min (Z.to_nat limit)
                 (length (selected now_text node_type include_invalid db))).
Proof.
  unfold retrieve. fold (selected now_text node_type include_invalid db).
  set (results := map (scored now query)
                      (selected now_text node_type include_invalid db)).
  destruct (slice_to_take limit (sort_by_score results)) as (n & -> & Hn).
  exists (drop n (sort_by_score results)). rewrite take_drop.
  split; [apply sort_by_score_perm|].
  split; [apply sort_by_score_sorted|].
  intros Hlimit. rewrite length_take, (Hn Hlimit).
  rewrite (Permutation_length (sort_by_score_perm results)).
  unfold results. rewrite length_map. reflexivity.
Qed.

Lemma retrieve_ranks_by_score_witness :
  length (retrieve 0 "2025-12-31 23:00:00" "login" None 1 false notes)
  = 1%nat.
Proof.
  destruct (retrieve_ranks_by_score 0 "2025-12-31 23:00:00" "login" None 1
              false notes) as (dropped & _ & _ & Hlen).
  rewrite Hlen; [reflexivity | lia].
Defined.

Lemma retrieve_elem (now : datetime) (now_text query : string)
    (node_type : option string) (limit : Z) (include_invalid : bool)
    (db : list nodes.row) (r : RetrievalResult) :
  r ∈ retrieve now now_text query node_type limit include_invalid db →
  ∃ row,
    row ∈ db ∧ r = scored now query row
    ∧ selects node_type (nodes.node_type row) = true
    ∧ (include_invalid || is_valid now_text row) = true.
Proof.
  unfold retrieve. intros Hr.
  destruct (slice_to_take limit
              (sort_by_score
                 (map (scored now query)
                    (List.filter
                       (fun row =>
                          selects node_type (nodes.node_type row)
                          && (include_invalid || is_valid now_text row))
                       db)))) as (n & Hslice & _).
  rewrite Hslice in Hr. apply elem_of_take in Hr as (i & Hr & _).
  apply list_elem_of_lookup_2 in Hr.
  rewrite sort_by_score_perm in Hr.
  apply list_elem_of_In, in_map_iff in Hr as (row & <- & Hrow).
  apply List.filter_In in Hrow as [Hrow Hsel].
  apply andb_prop in Hsel as [Htype Hvalid].
  exists row. split; [apply list_elem_of_In, Hrow|]. auto.
Qed.

Lemma invalidate_node_marks (now_text node_id : string)
    (db : list nodes.row) (row : nodes.row) :
  row ∈ invalidate_node now_text node_id db → nodes.id row = node_id →
  nodes.valid_until row = Some now_text.
Proof.
  unfold invalidate_node. intros Hrow Hid.
  apply list_elem_of_In, in_map_iff in Hrow as (row0 & <- & _).
  destruct (String.eqb (nodes.id row0) node_id) eqn:E; [reflexivity|].
  apply String.eqb_neq in E. contradiction.
Qed.

Lemma find_map_id (f : nodes.row → nodes.row) (node_id : string)
    (db : list nodes.row) (row : nodes.row) :
  (∀ r, nodes.id (f r) = nodes.id r) →
  List.find (has_id node_id) db = Some row →
  List.find (has_id node_id) (map f db) = Some (f row).
Proof.
  intros Hf. induction db as [|r db IH]; cbn [List.find map];
    [discriminate|].
  unfold has_id at 1 3. rewrite Hf.
  destruct (String.eqb (nodes.id r) node_id); [congruence | exact IH].
Qed.

(** X18. Invalidation hides a node from [retrieve] at once and for good,
    but not from [get_node]. After [invalidate_node], a [retrieve] that
    does not ask for invalid nodes, made at a database time whose text
    is not before the text of the invalidation time, returns no result
    for that id; [get_node] pays no attention to validity and still
    returns the node, with the invalidation time as its [valid_until]. *)
Theorem invalidated_node_is_hidden (now : datetime)
    (now_text later_text query node_id : string)
    (node_type : option string) (limit : Z) (db : list nodes.row) :
  String.ltb later_text now_text = false →
  (∀ r,
     r ∈ retrieve now later_text query node_type limit false
           (invalidate_node now_text node_id db) →
     nodes.id (node r) ≠ node_id)
  ∧ (∀ row,
       List.find (has_id node_id) db = Some row →
       ∃ row',
         (get_node now node_id (invalidate_node now_text node_id db)).1
         = Some row'
         ∧ nodes.id row' = node_id
         ∧ nodes.content row' = nodes.content row
         ∧ nodes.valid_until row' = Some now_text).
Proof.
  intros Hlater. split.
  - intros r Hr Hid.
    apply retrieve_elem in Hr as (row & Hrow & -> & _ & Hvalid).
    cbn [node scored orb] in *.
    unfold is_valid in Hvalid.
    rewrite (invalidate_node_marks _ _ _ _ Hrow Hid) in Hvalid.
    congruence.
  - intros row Hfind. unfold get_node. cbn [fst].
    change (List.find (fun r => String.eqb (nodes.id r) node_id))
      with (List.find (has_id node_id)).
    unfold touch, invalidate_node. rewrite map_map.
    erewrite find_map_id; [| |exact Hfind].
    + pose proof (List.find_some _ _ Hfind) as [_ Hid].
      unfold has_id in Hid. rewrite Hid. cbn [nodes.id]. rewrite Hid.
      eexists. split; [reflexivity|]. cbn.
      apply String.eqb_eq in Hid. auto.
    + intros r. destruct (String.eqb (nodes.id r) node_id) eqn:E;
        cbn [nodes.id]; rewrite ?E; reflexivity.
Qed.

Lemma invalidated_node_is_hidden_witness :
  (∀ r,
     r ∈ retrieve 0 "2025-06-01 12:00:05" "login" None 10 false
           (invalidate_node "2025-06-01 12:00:00" "n1" notes) →
     nodes.id (node r) ≠ "n1")
  ∧ (∀ row,
       List.find (has_id "n1") notes = Some row →
       ∃ row',
         (get_node 0 "n1" (invalidate_node "2025-06-01 12:00:00" "n1" notes)).1
         = Some row'
         ∧ nodes.id row' = "n1"
         ∧ nodes.content row' = nodes.content row
         ∧ nodes.valid_until row' = Some "2025-06-01 12:00:00").
Proof.
  apply (invalidated_node_is_hidden 0 "2025-06-01 12:00:00"
           "2025-06-01 12:00:05" "login" "n1" None 10 notes).
  reflexivity.
Defined.

Lemma touch_others (now : datetime) (node_id : string)
    (others : list nodes.row) :
  Forall (fun r => has_id node_id r = false) others →
  touch now node_id others = others.
Proof.
  unfold touch. induction 1 as [|r others Hr _ IH]; [reflexivity|].
  cbn [map]. unfold has_id in Hr. rewrite Hr, IH. reflexivity.
Qed.

Lemma find_others (node_id : string) (others : list nodes.row)
    (row : nodes.row) :
  Forall (fun r => has_id node_id r = false) others →
  has_id node_id row = true →
  List.find (has_id node_id) (others ++ [row]) = Some row.
Proof.
  intros Hothers Hrow. induction Hothers as [|r others Hr _ IH].
  - cbn. rewrite Hrow. reflexivity.
  - cbn [app List.find]. rewrite Hr. exact IH.
Qed.

Lemma get_node_last (now : datetime) (node_id : string)
    (others : list nodes.row) (row : nodes.row) :
  Forall (fun r => has_id node_id r = false) others →
  has_id node_id row = true →
  get_node now node_id (others ++ [row])
  = (Some (accessed now row), others ++ [accessed now row]).
Proof.
  intros Hothers Hrow. unfold get_node.
  change (List.find (fun r => String.eqb (nodes.id r) node_id))
    with (List.find (has_id node_id)).
  assert (Htouch : touch now node_id (others ++ [row])
                   = others ++ [accessed now row]).
  { unfold touch. rewrite map_app. fold (touch now node_id others).
    rewrite touch_others by exact Hothers. cbn [map].
    unfold has_id in Hrow. rewrite Hrow. reflexivity. }
  rewrite Htouch, find_others; [reflexivity | exact Hothers | exact Hrow].
Qed.

Lemma get_node_run_last (times : list datetime) (node_id : string)
    (others : list nodes.row) :
  Forall (fun r => has_id node_id r = false) others →
  ∀ (row : nodes.row) (o : option nodes.row),
    has_id node_id row = true →
    ∃ row',
      (foldl (fun acc now => get_node now node_id acc.2)
             (o, others ++ [row]) times).2 = others ++ [row']
      ∧ has_id node_id row' = true
      ∧ nodes.access_count row'
        = (nodes.access_count row + Z.of_nat (length times))%Z
      ∧ nodes.created_at row' = nodes.created_at row
      ∧ nodes.content row' = nodes.content row
      ∧ nodes.importance row' = nodes.importance row.
Proof.
  intros Hothers. induction times as [|now times IH]; intros row o Hrow.
  - exists row. cbn [foldl snd length]. rewrite Z.add_0_r.
    repeat split; auto.
  - cbn [foldl snd]. rewrite get_node_last by assumption.
    destruct (IH (accessed now row) (Some (accessed now row)) Hrow)
      as (row' & Hrun & Hid & Hcount & Hcreated & Hcontent & Himp).
    exists row'. split; [exact Hrun|]. split; [exact Hid|].
    cbn [accessed nodes.access_count nodes.created_at nodes.content
         nodes.importance length] in *.
    split; [lia|]. repeat split; auto.
Qed.

(** X19. [get_node] counts accesses, and [create_node] starts the count
    afresh. After a [create_node], whatever the table held before (an
    earlier version of the node with accesses of its own included), the
    n-th [get_node] on the returned id returns the node with
    [access_count = n] and the time of that call as [last_accessed]: the
    count it returns includes the call itself. *)
Theorem get_node_counts_accesses (sha256_hexdigest : string → string)
    (now0 : datetime) (node_type content : string)
    (metadata : option (list (string * string))) (importance : R)
    (valid_from valid_until : option string) (db : list nodes.row)
    (times : list datetime) (last : datetime) :
  let created := create_node sha256_hexdigest now0 node_type content
                   metadata importance valid_from valid_until db in
  ∃ row,
    (get_node_run (times ++ [last]) created.1 created.2).1 = Some row
    ∧ nodes.id row = created.1
    ∧ nodes.access_count row = Z.of_nat (length times + 1)
    ∧ nodes.last_accessed row = last
    ∧ nodes.created_at row = now0
    ∧ nodes.content row = content
    ∧ nodes.importance row = importance.
Proof.
  cbv zeta. unfold create_node, insert_or_replace. cbn [fst snd nodes.id].
  set (node_id := String.substring 0 16
                    (sha256_hexdigest (node_type +:+ ":" +:+ content))).
  set (others := List.filter
                   (fun row => negb (String.eqb (nodes.id row) node_id)) db).
  assert (Hothers : Forall (fun r => has_id node_id r = false) others).
  { apply Forall_forall. intros r Hr.
    apply list_elem_of_In, List.filter_In in Hr as [_ Hr].
    apply negb_true_iff in Hr. exact Hr. }
  unfold get_node_run. rewrite foldl_app. cbn [foldl].
  match goal with
  | |- context [others ++ [?new]] =>
      destruct (get_node_run_last times node_id others Hothers new None)
        as (row' & Hrun & Hid & Hcount & Hcreated & Hcontent & Himp);
        [unfold has_id; cbn [nodes.id]; apply String.eqb_refl|]
  end.
  rewrite Hrun, get_node_last by assumption. cbn [fst].
  exists (accessed last row').
  cbn [accessed nodes.id nodes.access_count nodes.last_accessed
       nodes.created_at nodes.content nodes.importance] in *.
  split; [reflexivity|].
  split; [apply String.eqb_eq, Hid|].
  split; [lia|]. repeat split; auto.
Qed.

(** X29. On a table whose importances lie in [0, 1] and whose rows were
    last accessed no later than now, every result of [retrieve] carries
    a relevance in [0, 1], a recency in [0, 1] and the score
    [0.5 relevance + 0.3 importance + 0.2 recency], which lies in
    [0, 1]. (The lower ends are reached in binary64: the recency of a row
    last accessed 1000 hours before has underflowed to 0.0, and the score
    of such a row is 0.0 when its importance is 0 and it matches no word
    of the query.) *)
Theorem retrieve_scores_in_range (now : datetime) (now_text query : string)
    (node_type : option string) (limit : Z) (include_invalid : bool)
    (db : list nodes.row) :
  Forall (fun row => 0 <= nodes.importance row <= 1
                     ∧ (nodes.last_accessed row <= now)%Z) db →
  Forall (fun r => 0 <= relevance r <= 1
                   ∧ 0 <= recency r <= 1
                   ∧ score r = 0.5 * relevance r
                               + 0.3 * nodes.importance (node r)
                               + 0.2 * recency r
                   ∧ 0 <= score r <= 1)
         (retrieve now now_text query node_type limit include_invalid db).
Proof.
  intros Hdb. apply Forall_forall. intros r Hr.
  apply retrieve_elem in Hr as (row & Hrow & -> & _).
  rewrite Forall_forall in Hdb. destruct (Hdb row Hrow) as [Himp Hlast].
  cbn [scored relevance recency score node].
  pose proof (calculate_relevance_range (nodes.content row) query) as Hrel.
  assert (Hrec : 0 < _calculate_recency now
                       (Timestamp (nodes.last_accessed row)) <= 1).
  { unfold _calculate_recency, total_seconds.
    assert (Hh : 0 <= 0.995 * (IZR (now - nodes.last_accessed row)
                               / 1000000 / 3600)).
    { assert (0 <= IZR (now - nodes.last_accessed row))
        by (apply IZR_le; lia). lra. }
    apply exp_decay_range in Hh.
    replace (-0.995 * (IZR (now - nodes.last_accessed row) / 1000000 / 3600))
      with (- (0.995 * (IZR (now - nodes.last_accessed row)
                        / 1000000 / 3600))) by lra.
    exact Hh. }
  split; [exact Hrel|]. split; [lra|]. split; [reflexivity|]. lra.
Qed.

Lemma retrieve_scores_in_range_witness :
  Forall (fun r => 0 <= relevance r <= 1
                   ∧ 0 <= recency r <= 1
                   ∧ score r = 0.5 * relevance r
                               + 0.3 * nodes.importance (node r)
                               + 0.2 * recency r
                   ∧ 0 <= score r <= 1)
         (retrieve 3600000000 "2025-06-01 12:00:00" "login" None 10 false
            notes).
Proof.
  apply (retrieve_scores_in_range 3600000000 "2025-06-01 12:00:00" "login"
           None 10 false notes).
  repeat constructor; simpl; lra || lia.
Defined.

Lemma filter_none {A : Type} (f : A → bool) (l : list A) :
  (∀ x, x ∈ l → f x = false) → List.filter f l = [].
Proof.
  induction l as [|y l IH]; intros Hall; [reflexivity|]. cbn [List.filter].
  rewrite (Hall y) by (apply elem_of_cons; auto).
  apply IH. intros x Hx. apply Hall, elem_of_cons. auto.
Qed.

Lemma insert_by_score_ties (s : R) (x : RetrievalResult)
    (placed : list RetrievalResult) :
  StronglySorted by_score placed →
  List.filter (fun r => Reqb (score r) s) (insert_by_score x placed)
  = List.filter (fun r => Reqb (score r) s) placed
    ++ (if Reqb (score x) s then [x] else []).
Proof.
  induction 1 as [|y rest Hsorted IH Hy]; cbn [insert_by_score].
  - cbn [List.filter]. destruct (Reqb (score x) s); reflexivity.
  - destruct (Rlt_dec (score y) (score x)) as [Hlt|Hge].
    + cbn [List.filter]. destruct (Reqb (score x) s) eqn:Hx;
        [|rewrite app_nil_r; reflexivity].
      unfold Reqb in Hx.
      destruct (Req_dec_T (score x) s) as [Hxs|]; [|discriminate].
      assert (Hnone : List.filter (fun r => Reqb (score r) s) (y :: rest)
                      = []).
      { apply filter_none. intros z Hz. unfold Reqb.
        destruct (Req_dec_T (score z) s) as [Hzs|]; [|reflexivity].
        exfalso. apply elem_of_cons in Hz as [->|Hz]; [lra|].
        rewrite Forall_forall in Hy.
        apply Hy in Hz. unfold by_score in Hz. lra. }
      cbn [List.filter] in Hnone. rewrite Hnone. reflexivity.
    + cbn [List.filter]. rewrite IH.
      destruct (Reqb (score y) s); reflexivity.
Qed.

Lemma sort_from_ties (s : R) (results placed : list RetrievalResult) :
  StronglySorted by_score placed →
  List.filter (fun r => Reqb (score r) s)
    (foldl (fun placed x => insert_by_score x placed) placed results)
  = List.filter (fun r => Reqb (score r) s) placed
    ++ List.filter (fun r => Reqb (score r) s) results.
Proof.
  revert placed. induction results as [|x results IH]; intros placed Hsorted;
    cbn [foldl]; [cbn [List.filter]; rewrite app_nil_r; reflexivity|].
  rewrite IH by (apply insert_by_score_sorted, Hsorted).
  rewrite insert_by_score_ties by exact Hsorted.
  rewrite <- app_assoc. f_equal. cbn [List.filter].
  destruct (Reqb (score x) s); reflexivity.
Qed.

(** X30. [retrieve] breaks ties by the order of the table. For every
    score, the results with that score are the first rows of the table
    that are selected and have that score, in the order of the table:
    the sort is stable, and the limit cuts the sorted list at its end. *)
Theorem retrieve_ties_keep_table_order (now : datetime)
    (now_text query : string) (node_type : option string) (limit : Z)
    (include_invalid : bool) (db : list nodes.row) (s : R) :
  List.filter (fun r => Reqb (score r) s)
    (retrieve now now_text query node_type limit include_invalid db)
  `prefix_of`
  List.filter (fun r => Reqb (score r) s)
    (map (scored now query)
       (selected now_text node_type include_invalid db)).
Proof.
  unfold retrieve. fold (selected now_text node_type include_invalid db).
  set (results := map (scored now query)
                      (selected now_text node_type include_invalid db)).
  destruct (slice_to_take limit (sort_by_score results)) as (n & -> & _).
  exists (List.filter (fun r => Reqb (score r) s)
            (drop n (sort_by_score results))).
  rewrite <- List.filter_app, take_drop.
  unfold sort_by_score. rewrite sort_from_ties by constructor.
  reflexivity.
Qed.

End Retrieval.

Section Edges.

Lemma get_relations_out (node_id : string) (relation_type : option string)
    (db : list edges.row) :
  get_relations node_id "out" relation_type db
  = map to_edge
      (List.filter (relation_query edges.source_id node_id relation_type)
                   db).
Proof. reflexivity. Qed.

(** X20. [create_edge] never supersedes. It appends an edge that is
    active under a key not in use and closes no edge: the outgoing edges
    [get_relations] returns for the source afterwards are those it
    returned before, followed by the new edge, also when an active edge
    of the same source, target and relation type was there already. *)
Theorem create_edge_never_supersedes (now : datetime)
    (source target relation : string) (weight : R)
    (metadata : option (list (string * string))) (db : list edges.row) :
  let created := create_edge now source target relation weight metadata db in
  (created.1 ∉ map edges.id db)
  ∧ get_relations source "out" None created.2
    = get_relations source "out" None db
      ++ [ {| source_id := source;
              target_id := target;
              relation_type := relation;
              weight := weight;
              metadata := default [] metadata;
              valid_from := now;
              valid_until := None |} ].
Proof.
  cbv zeta. unfold create_edge. cbn [fst snd]. split.
  - intros Hin. apply le_max_ids in Hin. lia.
  - rewrite !get_relations_out, List.filter_app, map_app. f_equal.
    cbn [List.filter]. unfold relation_query at 1.
    cbn [edges.source_id edges.valid_until edges.relation_type selects].
    rewrite String.eqb_refl, bool_decide_eq_true_2 by reflexivity.
    reflexivity.
Qed.

Lemma relation_query_closed (endpoint : edges.row → string)
    (node_id : string) (relation_type : option string)
    (row : edges.row) (closed : datetime) :
  edges.valid_until row = Some closed →
  relation_query endpoint node_id relation_type row = false.
Proof.
  intros Hclosed. unfold relation_query.
  rewrite (bool_decide_eq_false_2 (edges.valid_until row = None))
    by congruence.
  rewrite andb_false_r. reflexivity.
Qed.

Lemma relation_query_active (endpoint : edges.row → string)
    (node_id : string) (relation_type : option string) (row : edges.row) :
  relation_query endpoint node_id relation_type row = true →
  bool_decide (edges.valid_until row = None) = true.
Proof.
  unfold relation_query. intros H.
  apply andb_prop in H as [H _]. apply andb_prop in H as [_ H]. exact H.
Qed.

Lemma invalidate_edge_query (endpoint : edges.row → string)
    (now : datetime) (source target relation node_id : string)
    (relation_type : option string) (db : list edges.row) :
  map to_edge
    (List.filter (relation_query endpoint node_id relation_type)
       (invalidate_edge now source target relation db))
  = List.filter (fun e => negb (of_triple source target relation e))
      (map to_edge
         (List.filter (relation_query endpoint node_id relation_type) db)).
Proof.
  unfold invalidate_edge.
  induction db as [|row db IH]; [reflexivity|]. cbn [map List.filter].
  destruct (String.eqb (edges.source_id row) source
            && String.eqb (edges.target_id row) target
            && String.eqb (edges.relation_type row) relation) eqn:Htriple;
    cbn [andb].
  - destruct (bool_decide (edges.valid_until row = None)) eqn:Hactive.
    + rewrite (relation_query_closed _ _ _ _ now) by reflexivity.
      destruct (relation_query endpoint node_id relation_type row);
        [|exact IH].
      cbn [map List.filter]. unfold of_triple at 1.
      cbn [to_edge source_id target_id MemoryLite.relation_type].
      rewrite Htriple. exact IH.
    + destruct (relation_query endpoint node_id relation_type row) eqn:Hq;
        [|exact IH].
      apply relation_query_active in Hq. congruence.
  - destruct (relation_query endpoint node_id relation_type row);
      [|exact IH].
    cbn [map List.filter]. unfold of_triple at 1.
    cbn [to_edge source_id target_id MemoryLite.relation_type].
    rewrite Htriple. cbn [negb]. rewrite IH. reflexivity.
Qed.

(** X21. [invalidate_edge] hides every edge of its triple and no other.
    Whatever node, direction and relation type are asked for,
    [get_relations] after an [invalidate_edge] returns what it returned
    before without the edges of the invalidated source, target and
    relation type, in the same order. *)
Theorem invalidate_edge_hides_triple (now : datetime)
    (source target relation node_id direction : string)
    (relation_type : option string) (db : list edges.row) :
  get_relations node_id direction relation_type
    (invalidate_edge now source target relation db)
  = List.filter (fun e => negb (of_triple source target relation e))
      (get_relations node_id direction relation_type db).
Proof.
  unfold get_relations.
  destruct (String.eqb direction "out" || String.eqb direction "both");
    destruct (String.eqb direction "in" || String.eqb direction "both");
    cbn [app]; rewrite ?List.filter_app, ?invalidate_edge_query;
    reflexivity.
Qed.

End Edges.

Section PatternRuns.

Lemma calculate_recency_pos (now : datetime) (last : timestamp_text) :
  0 < _calculate_recency now last.
Proof.
  unfold _calculate_recency. destruct last; try lra. apply exp_pos.
Qed.

Lemma successes_cons (now : datetime) (success : bool)
    (rest : list (datetime * bool)) :
  successes ((now, success) :: rest)
  = ((if success then 1 else 0) + successes rest)%nat.
Proof. unfold successes. cbn. destruct success; reflexivity. Qed.

(** The update of a known pattern keeps the running count and rate. *)
Lemma record_outcomes_known (pattern_id name category description : string) :
  ∀ (outcomes : list (datetime * bool)) (db : gmap string patterns.row)
    (row : patterns.row) (n s : nat),
    db !! pattern_id = Some row →
    (1 <= n)%nat → (s <= n)%nat →
    patterns.times_used row = Z.of_nat n →
    patterns.success_rate row = INR s / INR n →
    0 < patterns.utility_score row <= 1 →
    ((25 <= n)%nat → (2 <= n)%nat → patterns.utility_score row = 1) →
    ∃ db' row',
      record_outcomes pattern_id name category description outcomes db
      = Return db'
      ∧ db' !! pattern_id = Some row'
      ∧ patterns.times_used row' = Z.of_nat (n + length outcomes)
      ∧ patterns.success_rate row'
        = INR (s + successes outcomes) / INR (n + length outcomes)
      ∧ 0 < patterns.utility_score row' <= 1
      ∧ ((25 <= n + length outcomes)%nat → (2 <= n + length outcomes)%nat →
         patterns.utility_score row' = 1).
Proof.
  induction outcomes as [|[now success] rest IH];
    intros db row n s Hrow Hn Hs Htimes Hrate Hutil Hsat.
  - exists db, row. cbn [record_outcomes length].
    unfold successes; cbn [List.filter length]. rewrite !Nat.add_0_r.
    split; [reflexivity|]. split; [exact Hrow|]. split; [exact Htimes|].
    split; [exact Hrate|]. split; [exact Hutil | exact Hsat].
  - cbn [record_outcomes]. unfold record_pattern. rewrite Hrow.
    rewrite Htimes.
    assert (Hnz : (Z.of_nat n + 1 =? 0)%Z = false) by (apply Z.eqb_neq; lia).
    rewrite Hnz, result_bind_Return.
    set (new_rate := (patterns.success_rate row * IZR (Z.of_nat n)
                      + (if success then 1 else 0)) / IZR (Z.of_nat n + 1)).
    set (utility := Rmin 1.0
                      ((IZR (Z.of_nat n + 1) * 0.4 + new_rate * 0.3
                        + _calculate_recency now (patterns.last_used row)
                          * 0.3) / 10)).
    assert (HnR : 1 <= INR n) by (apply (le_INR 1); exact Hn).
    assert (HsR : 0 <= INR s <= INR n)
      by (split; [apply pos_INR | apply le_INR; exact Hs]).
    assert (Hsucc : IZR (Z.of_nat n + 1) = INR (S n))
      by (rewrite INR_IZR_INZ; f_equal; lia).
    assert (HSn : INR (S n) = INR n + 1) by apply S_INR.
    assert (Hnew : new_rate
                   = INR (s + (if success then 1 else 0)) / INR (S n)).
    { unfold new_rate. rewrite Hrate, Hsucc, <- INR_IZR_INZ, plus_INR, HSn.
      destruct success; [change (INR 1) with 1 | change (INR 0) with 0];
        field; lra. }
    assert (Hnew_range : 0 <= new_rate <= 1).
    { rewrite Hnew, plus_INR, HSn.
      assert (0 <= INR (if success then 1%nat else 0%nat) <= 1)
        by (destruct success; simpl; lra).
      split.
      - apply Rmult_le_pos; [lra|]. left. apply Rinv_0_lt_compat. lra.
      - apply (Rmult_le_reg_r (INR n + 1)); [lra|].
        unfold Rdiv. rewrite Rmult_assoc, Rinv_l by lra. lra. }
    pose proof (calculate_recency_pos now (patterns.last_used row)) as Hrec.
    assert (Hutility : 0 < utility <= 1).
    { unfold utility. rewrite Hsucc, HSn. minmax. }
    assert (Hsaturated : (25 <= S n)%nat → utility = 1).
    { intros H25. apply le_INR in H25. simpl (INR 25) in H25.
      unfold utility. rewrite Hsucc.
      assert (1 <= (INR (S n) * 0.4 + new_rate * 0.3
                    + _calculate_recency now (patterns.last_used row) * 0.3)
                   / 10) by lra.
      minmax. }
    match goal with
    | |- context [record_outcomes _ _ _ _ rest ?db1] =>
        destruct (IH db1 _ (S n) (s + if success then 1 else 0)%nat
                    (lookup_insert_eq _ _ _))
          as (db' & row' & Hrun & Hrow' & Htimes' & Hrate' & Hutil' & Hsat')
    end.
    + lia.
    + destruct success; lia.
    + cbn [patterns.times_used]. lia.
    + cbn [patterns.success_rate]. exact Hnew.
    + cbn [patterns.utility_score]. exact Hutility.
    + intros H25 _. cbn [patterns.utility_score]. apply Hsaturated, H25.
    + exists db', row'. split; [exact Hrun|]. split; [exact Hrow'|].
      rewrite successes_cons. cbn [length].
      replace (n + S (length rest))%nat with (S n + length rest)%nat by lia.
      replace (s + ((if success then 1 else 0) + successes rest))%nat
        with (s + (if success then 1 else 0) + successes rest)%nat by lia.
      split; [exact Htimes'|]. split; [exact Hrate'|].
      split; [exact Hutil' | exact Hsat'].
Qed.

(** X22. The pattern store keeps a running success rate, and its utility
    saturates. After a run of [record_pattern] calls on a pattern id that
    was not stored, the pattern's [times_used] is the number of calls and
    its [success_rate] the share of successes among them; no step divides
    by zero. The stored utility lies in (0, 1], and from the 25th
    recording on it is 1, whatever the outcomes were. *)
Theorem record_pattern_running_rate
    (pattern_id name category description : string)
    (outcomes : list (datetime * bool)) (db : gmap string patterns.row) :
  db !! pattern_id = None → outcomes ≠ [] →
  ∃ db' row,
    record_outcomes pattern_id name category description outcomes db
    = Return db'
    ∧ db' !! pattern_id = Some row
    ∧ patterns.times_used row = Z.of_nat (length outcomes)
    ∧ patterns.success_rate row
      = INR (successes outcomes) / INR (length outcomes)
    ∧ 0 < patterns.utility_score row <= 1
    ∧ ((25 <= length outcomes)%nat → patterns.utility_score row = 1).
Proof.
  intros Hnew Hne. destruct outcomes as [|[now success] rest]; [congruence|].
  cbn [record_outcomes]. unfold record_pattern. rewrite Hnew.
  rewrite result_bind_Return.
  match goal with
  | |- context [record_outcomes _ _ _ _ rest ?db1] =>
      destruct (record_outcomes_known pattern_id name category description
                  rest db1 _ 1%nat (if success then 1 else 0)%nat
                  (lookup_insert_eq _ _ _))
        as (db' & row' & Hrun & Hrow' & Htimes' & Hrate' & Hutil' & Hsat')
  end.
  - lia.
  - destruct success; lia.
  - reflexivity.
  - cbn [patterns.success_rate]. destruct success; simpl; lra.
  - cbn [patterns.utility_score]. lra.
  - intros _ H2. lia.
  - exists db', row'. split; [exact Hrun|]. split; [exact Hrow'|].
    rewrite successes_cons. cbn [length].
    change (S (length rest)) with (1 + length rest)%nat.
    split; [exact Htimes'|]. split; [exact Hrate'|].
    split; [exact Hutil'|]. intros H25. apply Hsat'; lia.
Qed.

Lemma record_pattern_running_rate_witness :
  ∃ db' row,
    record_outcomes "deploy-failure" "deploy (failure)" "deploy"
      "Consolidated from 3 episodes" [(0%Z, false); (1%Z, true)] ∅
    = Return db'
    ∧ db' !! "deploy-failure" = Some row
    ∧ patterns.times_used row = Z.of_nat 2
    ∧ patterns.success_rate row
      = INR (successes [(0%Z, false); (1%Z, true)]) / INR 2
    ∧ 0 < patterns.utility_score row <= 1
    ∧ ((25 <= 2)%nat → patterns.utility_score row = 1).
Proof.
  apply (record_pattern_running_rate "deploy-failure" "deploy (failure)"
           "deploy" "Consolidated from 3 episodes"
           [(0%Z, false); (1%Z, true)] ∅).
  - reflexivity.
  - discriminate.
Defined.

End PatternRuns.

Section SharedState.

Context {json : Type}.

Lemma blackboard_set_next (now : datetime) (key : string) (value : json)
    (artifact_type : string) (producer : option string)
    (db : gmap string (blackboard_row json)) :
  (blackboard_set now key value artifact_type producer db).1
  = (stored_version key db + 1)%Z
  ∧ stored_version key
      (blackboard_set now key value artifact_type producer db).2
    = (stored_version key db + 1)%Z
  ∧ ∀ other, other ≠ key →
      (blackboard_set now key value artifact_type producer db).2 !! other
      = db !! other.
Proof.
  unfold blackboard_set, stored_version. cbn [fst snd].
  rewrite lookup_insert_eq. cbn [bb_version].
  split; [destruct (db !! key); reflexivity|].
  split; [destruct (db !! key); reflexivity|].
  intros other Hother. apply lookup_insert_ne. congruence.
Qed.

Lemma blackboard_sets_version (key : string)
    (writes : list (datetime * json)) :
  ∀ (db : gmap string (blackboard_row json)) (v : Z),
    stored_version key
      (foldl (fun acc write =>
                blackboard_set write.1 key write.2 "generic" None acc.2)
             (v, db) writes).2
    = (stored_version key db + Z.of_nat (length writes))%Z
    ∧ ∀ other, other ≠ key →
        (foldl (fun acc write =>
                  blackboard_set write.1 key write.2 "generic" None acc.2)
               (v, db) writes).2 !! other
        = db !! other.
Proof.
  induction writes as [|[now value] writes IH]; intros db v.
  - cbn [foldl snd length]. split; [lia | reflexivity].
  - cbn [foldl fst snd length].
    destruct (blackboard_set_next now key value "generic" None db)
      as (_ & Hnext & Hkeep).
    destruct (blackboard_set now key value "generic" None db)
      as [v1 db1] eqn:Hset.
    cbn [snd] in *. destruct (IH db1 v1) as [Hversion Hothers].
    split; [rewrite Hversion, Hnext; lia|].
    intros other Hother.
    rewrite Hothers, Hkeep by exact Hother. reflexivity.
Qed.

(** X23. The embedded blackboard counts the writes of a key and forgets
    its creation time. The n-th [blackboard_set] on a key that was not
    stored (never written, or deleted by [blackboard_delete]) returns
    version n; [blackboard_get] then returns the value of that last
    write; the row's [created_at] is the time of the last write, not of
    the first; and the other keys are as they were. *)
Theorem blackboard_set_counts_versions (key : string)
    (writes : list (datetime * json)) (now : datetime) (value : json)
    (db : gmap string (blackboard_row json)) :
  let written := blackboard_sets key (writes ++ [(now, value)])
                   (blackboard_delete key db) in
  written.1 = Z.of_nat (length writes + 1)
  ∧ blackboard_get key written.2 = Some value
  ∧ (∃ row, written.2 !! key = Some row
            ∧ bb_version row = written.1
            ∧ bb_created_at row = now ∧ bb_updated_at row = now)
  ∧ ∀ other, other ≠ key → written.2 !! other = db !! other.
Proof.
  cbv zeta. unfold blackboard_sets. rewrite foldl_app. cbn [foldl fst snd].
  destruct (blackboard_sets_version key writes (blackboard_delete key db) 0)
    as [Hversion Hothers].
  set (before := (foldl
                    (fun acc write =>
                       blackboard_set write.1 key write.2 "generic" None
                         acc.2)
                    (0%Z, blackboard_delete key db) writes).2) in *.
  assert (Hzero : stored_version key (blackboard_delete key db) = 0%Z)
    by (unfold stored_version, blackboard_delete;
        rewrite lookup_delete_eq; reflexivity).
  rewrite Hzero in Hversion.
  destruct (blackboard_set_next now key value "generic" None before)
    as (Hreturned & _ & Hkeep).
  split; [rewrite Hreturned, Hversion; lia|].
  unfold blackboard_get, blackboard_set. cbn [fst snd].
  rewrite lookup_insert_eq.
  split; [reflexivity|]. split.
  - eexists. split; [reflexivity|]. cbn. auto.
  - intros other Hother. rewrite lookup_insert_ne by congruence.
    rewrite Hothers by exact Hother.
    apply lookup_delete_ne. congruence.
Qed.

End SharedState.

Section RetryAttempts.

Lemma retried_transient (f : fault) :
  retried f → is_transient (fault_exn f) = true.
Proof.
  destruct f; [reflexivity | reflexivity |].
  intros H. contradiction H. reflexivity.
Qed.

Lemma delays_cons (max_retries : nat) (delay : R) (first count : nat) :
  delays max_retries delay first (S count)
  = (if (first <? max_retries - 1)%nat
     then [delay * INR (first + 1)] else [])
    ++ delays max_retries delay (S first) count.
Proof.
  unfold delays. cbn [seq List.filter].
  destruct (first <? max_retries - 1)%nat; reflexivity.
Qed.

Lemma delays_all (max_retries : nat) (delay : R) (first count : nat) :
  (first + count <= max_retries - 1)%nat →
  delays max_retries delay first count
  = map (fun attempt => delay * INR (attempt + 1)) (seq first count).
Proof.
  revert first. induction count as [|count IH]; intros first Hle;
    [reflexivity|].
  rewrite delays_cons, IH by lia.
  replace (first <? max_retries - 1)%nat with true
    by (symmetry; apply Nat.ltb_lt; lia).
  reflexivity.
Qed.

Lemma delays_last (max_retries : nat) (delay : R) :
  delays max_retries delay 0 max_retries
  = map (fun attempt => delay * INR (attempt + 1)) (seq 0 (max_retries - 1)).
Proof.
  destruct max_retries as [|n]; [reflexivity|].
  replace (S n) with (n + 1)%nat at 2 by lia.
  unfold delays. rewrite seq_app, List.filter_app, map_app.
  fold (delays (S n) delay 0 n). rewrite delays_all by lia.
  cbn [seq List.filter Nat.add].
  replace (n <? S n - 1)%nat with false
    by (symmetry; apply Nat.ltb_ge; lia).
  cbn [map]. rewrite app_nil_r. f_equal. f_equal. lia.
Qed.

(** The wrapper's loop over a run of transient faults: one command per
    fault, and a sleep after each but the last attempt allowed. *)
Lemma retry_loop_down {A : Type} (max_retries : nat) (delay : R)
    (run : world → A * world) (more : list nat)
    (rest : list (option fault)) :
  ∀ (down : list fault) (first : nat) (last : option exn) (w : world),
    Forall retried down →
    faults w = map Some down ++ rest →
    ∃ last',
      retry_loop max_retries delay (command run)
        (seq first (length down) ++ more) last w
      = retry_loop max_retries delay (command run) more last'
          (after_retries (delays max_retries delay first (length down))
             rest w).
Proof.
  induction down as [|f down IH]; intros first last w Hdown Hfaults.
  - exists last. cbn [length seq app delays]. unfold after_retries, delays.
    cbn [seq List.filter map fold_left]. rewrite app_nil_r.
    cbn [map app] in Hfaults. rewrite <- Hfaults.
    destruct w; reflexivity.
  - apply Forall_cons in Hdown as [Hf Hdown].
    cbn [length seq app retry_loop]. cbn [map app] in Hfaults.
    rewrite (command_fault run w f _ Hfaults).
    rewrite (retried_transient f Hf).
    unfold mbind at 1, M_bind at 1.
    rewrite delays_cons.
    destruct (first <? max_retries - 1)%nat.
    + unfold time_sleep at 1.
      match goal with
      | |- context [retry_loop _ _ _ _ (Some ?e) ?w1] =>
          destruct (IH (S first) (Some e) w1 Hdown eq_refl) as [last' Hrun]
      end.
      exists last'. rewrite Hrun. f_equal.
      unfold after_retries, refused; cbn [kv clock slept faults app fold_left].
      rewrite <- app_assoc. reflexivity.
    + unfold mret at 1, M_ret at 1.
      match goal with
      | |- context [retry_loop _ _ _ _ (Some ?e) ?w1] =>
          destruct (IH (S first) (Some e) w1 Hdown eq_refl) as [last' Hrun]
      end.
      exists last'. rewrite Hrun. reflexivity.
Qed.

(** X24. The retry wrapper, for any [max_retries] and [delay], on a store
    command that meets a connection loss or a timeout every time: it
    sends exactly [max_retries] commands, sleeps [delay * 1],
    [delay * 2], ... after each of them but the last, and then raises
    [ConnectionError]. With [max_retries = 0] it sends no command at all
    and raises [ConnectionError] at once, whatever the store would have
    answered. *)
Theorem retry_on_failure_gives_up {A : Type} (max_retries : nat)
    (delay : R) (run : world → A * world) (w : world) (down : list fault)
    (rest : list (option fault)) :
  length down = max_retries → Forall retried down →
  faults w = map Some down ++ rest →
  retry_on_failure max_retries delay (command run) w
  = Some (Raise ConnectionError,
          after_retries
            (map (fun attempt => delay * INR (attempt + 1))
                 (seq 0 (max_retries - 1)))
            rest w).
Proof.
  intros Hlen Hdown Hfaults. unfold retry_on_failure.
  destruct (retry_loop_down max_retries delay run [] rest down 0 None w
              Hdown Hfaults) as [last' Hrun].
  rewrite Hlen, app_nil_r in Hrun. rewrite Hrun, delays_last.
  reflexivity.
Qed.

Lemma retry_on_failure_gives_up_witness :
  retry_on_failure 4 2 ping store_down
  = Some (Raise ConnectionError,
          after_retries
            (map (fun attempt => 2 * INR (attempt + 1)) (seq 0 (4 - 1)))
            [] store_down)
  ∧ retry_on_failure 0 2 ping empty_store
    = Some (Raise ConnectionError,
            after_retries
              (map (fun attempt => 2 * INR (attempt + 1)) (seq 0 (0 - 1)))
              [] empty_store).
Proof.
  split.
  - apply (retry_on_failure_gives_up 4 2 (fun w => (true, w)) store_down
             [ConnectionLost; ConnectionLost; ConnectionLost;
              ConnectionLost] []).
    + reflexivity.
    + repeat constructor; discriminate.
    + reflexivity.
  - apply (retry_on_failure_gives_up 0 2 (fun w => (true, w)) empty_store
             [] []).
    + reflexivity.
    + constructor.
    + reflexivity.
Defined.

(** X25. The retry wrapper, for any [max_retries] and [delay], on a store
    command that meets fewer than [max_retries] connection losses or
    timeouts in a row: it sleeps [delay * 1], ..., [delay * failures]
    between the attempts, and the first attempt that returns, or that
    raises another error, gives the outcome of the call. *)
Theorem retry_on_failure_recovers {A : Type} (max_retries : nat)
    (delay : R) (run : world → A * world) (w w' : world)
    (down : list fault) (rest : list (option fault)) (r : result A) :
  (length down < max_retries)%nat → Forall retried down →
  faults w = map Some down ++ rest →
  command run
    (after_retries
       (map (fun attempt => delay * INR (attempt + 1))
            (seq 0 (length down)))
       rest w)
  = Some (r, w') →
  ends_loop r = true →
  retry_on_failure max_retries delay (command run) w = Some (r, w').
Proof.
  intros Hlen Hdown Hfaults Hnext Hends. unfold retry_on_failure.
  replace max_retries
    with (length down + S (max_retries - length down - 1))%nat at 2 by lia.
  rewrite seq_app.
  destruct (retry_loop_down max_retries delay run
              (seq (0 + length down) (S (max_retries - length down - 1)))
              rest down 0 None w Hdown Hfaults) as [last' Hrun].
  rewrite Hrun, delays_all by lia.
  cbn [seq retry_loop]. rewrite Hnext.
  destruct r as [a|e]; [reflexivity|].
  cbn [ends_loop] in Hends. apply negb_true_iff in Hends.
  rewrite Hends. reflexivity.
Qed.

Lemma retry_on_failure_recovers_witness :
  retry_on_failure 5 0.5 ping
    (refused [Some TimedOut; Some ConnectionLost; None] empty_store)
  = Some (Return true,
          after_retries
            (map (fun attempt => 0.5 * INR (attempt + 1)) (seq 0 2))
            [] empty_store).
Proof.
  apply (retry_on_failure_recovers 5 0.5 (fun w => (true, w))
           (refused [Some TimedOut; Some ConnectionLost; None] empty_store)
           _ [TimedOut; ConnectionLost] [None]).
  - simpl. lia.
  - repeat constructor; discriminate.
  - reflexivity.
  - reflexivity.
  - reflexivity.
Defined.

End RetryAttempts.

Section ConnectionTests.

Lemma fault_is_redis_error (f : fault) :
  isinstance (fault_exn f) redis_RedisError = true.
Proof. destruct f; reflexivity. Qed.

(** X26. [health_check] never raises on a store fault and never retries.
    In every world it returns after at most two store commands, without
    sleeping and without touching a key; it reports the store unhealthy
    exactly when one of those two commands meets a fault, and otherwise
    reports the two counters of the reply, 0 for one that is missing. *)
Theorem health_check_never_raises (stats : gmap string Z) (w : world) :
  ∃ h w',
    health_check stats w = Some (Return h, w')
    ∧ kv w' = kv w ∧ clock w' = clock w ∧ slept w' = slept w
    ∧ (∃ used, (used <= 2)%nat ∧ faults w' = drop used (faults w))
    ∧ h = (if meets_fault 2 (faults w) then Unhealthy
           else Healthy (default 0%Z (stats !! "total_commands_processed"))
                        (default 0%Z
                           (stats !! "instantaneous_ops_per_sec"))).
Proof.
  unfold health_check, try_except, redis_ping, redis_info, command,
    mbind, M_bind, meets_fault.
  destruct w as [kv0 clock0 slept0 faults0]; cbn [faults kv clock slept].
  destruct faults0 as [|[f|] [|[g|] rest]]; cbn;
    rewrite ?fault_is_redis_error; cbn;
    eexists _, _; (split; [reflexivity|]); cbn;
    (split; [reflexivity|]); (split; [reflexivity|]);
    (split; [reflexivity|]);
    (split; [|reflexivity]).
  - exists 0%nat. split; [lia | reflexivity].
  - exists 1%nat. split; [lia | reflexivity].
  - exists 1%nat. split; [lia | reflexivity].
  - exists 1%nat. split; [lia | reflexivity].
  - exists 1%nat. split; [lia | reflexivity].
  - exists 2%nat. split; [lia | reflexivity].
  - exists 2%nat. split; [lia | reflexivity].
Qed.

(** X27. The connection test of the constructor turns a lost connection
    into the blackboard's own [ConnectionError], and nothing else: a
    timeout, or another error of the store, leaves the constructor as
    the redis exception it is, which is no [BlackboardError]; and the
    test is made once, without retry or sleep. *)
Theorem init_connection_test (w : world) (f : fault)
    (rest : list (option fault)) :
  faults w = Some f :: rest →
  ∃ e,
    __init__ w = Some (Raise e, refused rest w)
    ∧ e = (match f with
           | ConnectionLost => ConnectionError
           | TimedOut => redis_TimeoutError
           | CommandRefused => redis_RedisError
           end)
    ∧ isinstance e BlackboardError
      = (match f with ConnectionLost => true | _ => false end).
Proof.
  intros Hf. unfold __init__, reraise_as, mbind, M_bind, redis_ping.
  rewrite (command_fault _ _ _ _ Hf).
  destruct f; eexists; (split; [reflexivity|]); split; reflexivity.
Qed.

Lemma init_connection_test_witness :
  ∃ e,
    __init__ (refused [Some TimedOut] empty_store)
    = Some (Raise e, refused [] (refused [Some TimedOut] empty_store))
    ∧ e = redis_TimeoutError
    ∧ isinstance e BlackboardError = false.
Proof.
  apply (init_connection_test (refused [Some TimedOut] empty_store)
           TimedOut []).
  reflexivity.
Defined.

End ConnectionTests.

Section LockHandover.

(** While the holder's marker is set, a poll that ends has acquired the
    lock, provided the marker expires within the blocking timeout: it
    ends at the first attempt made once the marker has expired. *)
Lemma poll_waits_out (fuel : nat) (key v : string) (ttl : Z)
    (bt start e : R) :
  e <= start + bt →
  ∀ (wait : R) (w : world) (r : result bool) (w' : world),
    kv w !! key = Some (v, Some e) → no_fault (faults w) →
    poll fuel key ttl bt start wait w = Some (r, w') →
    r = Return true
    ∧ e <= clock w'
    ∧ (clock w' = clock w ∨ clock w' < e + 1)
    ∧ kv w' = <[key := ("1", Some (clock w' + IZR ttl / 1000))]> (kv w).
Proof.
  intros He. induction fuel as [|fuel IH];
    intros wait w r w' Hkey Hnf Hrun; [discriminate|].
  rewrite poll_step in Hrun.
  destruct (Rlt_dec (clock w) e) as [Hheld|Hfree].
  - destruct (redis_set_nx_px_held key "1" v ttl e w Hkey Hheld Hnf)
      as (w1 & Hset & Hkv & Hclock & Hnf1).
    rewrite Hset in Hrun.
    destruct (Rge_dec (clock w1 - start) bt) as [Hge|Hlt]; [lra|].
    apply IH in Hrun as (-> & Hexp & Hwhen & Hkv');
      [| cbn [after_sleep kv]; rewrite Hkv; exact Hkey | exact Hnf1].
    cbn [after_sleep clock kv] in *. rewrite Hkv in Hkv'.
    split; [reflexivity|]. split; [exact Hexp|]. split; [|exact Hkv'].
    right. assert (Rmin wait 1.0 <= 1) by minmax.
    destruct Hwhen as [Hwhen|Hwhen]; lra.
  - rewrite redis_set_nx_px_run in Hrun by exact Hnf.
    assert (Hlive : live w key = None).
    { unfold live. rewrite Hkey.
      destruct (Rlt_dec (clock w) e); [contradiction | reflexivity]. }
    rewrite Hlive in Hrun. injection Hrun as <- <-.
    cbn [marked clock kv].
    split; [reflexivity|]. split; [lra|]. split; [left|]; reflexivity.
Qed.

(** X28. A blocking [acquire_lock] waits out a lock that expires in
    time. When the resource is held by a marker that expires no later
    than the blocking timeout allows, and the store answers, then given
    rounds enough the call returns [True]: it has the lock from its first
    attempt after the marker's expiry, less than a second after it, and
    the marker it wrote is the caller's own. *)
Theorem acquire_lock_waits_for_expiry (w : world)
    (resource_id holder : string) (timeout_ms : Z)
    (blocking_timeout expires : R) :
  kv w !! _make_lock_key resource_id = Some (holder, Some expires) →
  clock w < expires → expires <= clock w + blocking_timeout →
  no_fault (faults w) →
  ∃ enough : nat, ∀ fuel : nat, (enough <= fuel)%nat →
    ∃ w',
      acquire_lock fuel resource_id timeout_ms true blocking_timeout w
      = Some (Return true, w')
      ∧ expires <= clock w' < expires + 1
      ∧ kv w'
        = <[_make_lock_key resource_id
            := ("1", Some (clock w' + IZR timeout_ms / 1000))]> (kv w).
Proof.
  intros Hkey Hheld Hexp Hnf.
  destruct (poll_enough w (_make_lock_key resource_id) timeout_ms
              blocking_timeout) as [enough Henough].
  exists enough. intros fuel Hfuel.
  destruct (Henough fuel Hfuel) as (r & w' & Hpoll).
  destruct (poll_waits_out _ _ _ _ _ _ _ Hexp _ _ _ _ Hkey Hnf Hpoll)
    as (-> & Hafter & Hwhen & Hkv).
  exists w'. split; [apply acquire_lock_once; [exact Hpoll | discriminate]|].
  split; [|exact Hkv]. destruct Hwhen as [Hwhen|Hwhen]; lra.
Qed.

Lemma acquire_lock_waits_for_expiry_witness :
  ∃ enough : nat, ∀ fuel : nat, (enough <= fuel)%nat →
    ∃ w',
      acquire_lock fuel "r" 5000 true 120 held_by_other
      = Some (Return true, w')
      ∧ 100 <= clock w' < 100 + 1
      ∧ kv w'
        = <[_make_lock_key "r" := ("1", Some (clock w' + IZR 5000 / 1000))]>
            (kv held_by_other).
Proof.
  apply (acquire_lock_waits_for_expiry held_by_other "r" "1" 5000 120 100).
  - apply lookup_singleton_eq.
  - simpl. lra.
  - simpl. lra.
  - constructor.
Defined.

End LockHandover.
